(** * YouTube transcript extractor: selection cascade, formatter, chunker

    A shallow embedding of [main.py] (class [YouTubeTranscriptExtractor],
    [main] and [extract_youtube_transcript]) together with the properties the
    specification states about it.

    Conventions of the embedding:
    - a Python [str] is a [string]; one [ascii] stands for one code point
      below 256;
    - a number of seconds is a Python [int] or a finite [float]; a float is
      the rational it denotes, and [//] and [%] on floats round to binary64
      as CPython's [float_floor_div] and [float_rem] do;
    - a Python exception is a value of [exn]; code that may raise returns
      [result A = exn + A];
    - the transcript provider ([youtube_transcript_api]) is an interface,
      [Provider], and a catalog is the list of its tracks in iteration order;
    - list objects live in a store ([gmap loc (list string)]) so that the
      default argument [languages=['en']], evaluated once when the function
      is defined, is one shared object;
    - the two regular expressions of [extract_video_id] are the matchers of
      [PyRe];
    - [main] is a command on a [World] (the arguments of the [print] calls
      on the two streams and the writes to files) that returns the exit
      status, once [parse_args] has returned the arguments; the clock, the
      outcome of [open] and [repr] come from its [Host];
    - a track answers a [fetch] request at one attempt of the cascade and
      may answer differently at another. *)

From Stdlib Require Import ZArith QArith Qround List Ascii String Bool Lia.
From Stdlib Require Import DecimalString DecimalN.
From stdpp Require Import base strings gmap.
Import ListNotations.

Open Scope string_scope.
Open Scope list_scope.
Open Scope Z_scope.

(** ** Exceptions and results *)

Inductive exn : Type :=
| NoTranscriptFound (requested : list string)
    (* raised by the provider's [find_*] lookups *)
| ProviderError (msg : string)
    (* any other failure of a provider call (network, disabled video) *)
| Exception (msg : string).
    (* the built-in [Exception] this program raises itself *)

(** [str(e)] *)
Definition exn_str (e : exn) : string :=
  match e with
  | NoTranscriptFound _ => "No transcripts were found for any of the requested language codes"
  | ProviderError msg => msg
  | Exception msg => msg
  end.

Definition result (A : Type) : Type := (exn + A)%type.

Definition ret {A} (a : A) : result A := inr a.
Definition raise {A} (e : exn) : result A := inl e.

Definition bind {A B} (m : result A) (k : A -> result B) : result B :=
  match m with
  | inl e => inl e
  | inr a => k a
  end.

(** [try: body  except: handler] (a bare [except] catches every exception). *)
Definition try_except {A} (body : result A) (handler : exn -> result A) : result A :=
  match body with
  | inl e => handler e
  | inr a => inr a
  end.

Declare Scope result_scope.
Delimit Scope result_scope with result.
Notation "x <- m ;; k" := (bind m (fun x => k))
  (at level 100, m at next level, right associativity) : result_scope.
Open Scope result_scope.

(** ** Python strings *)

Module PyStr.

(** [str.isspace] on one character, for code points below 256: tab to
    carriage return, the four separators 0x1c-0x1f, space, NEL and the
    non-breaking space.  [str.strip] and the pattern [\s] use this class. *)
Definition is_space (c : ascii) : bool :=
  let n := N_of_ascii c in
  ((9 <=? n)%N && (n <=? 13)%N || (28 <=? n)%N && (n <=? 32)%N
   || (n =? 133)%N || (n =? 160)%N).

Fixpoint lstrip (s : string) : string :=
  match s with
  | String c s' => if is_space c then lstrip s' else s
  | EmptyString => EmptyString
  end.

Fixpoint rstrip (s : string) : string :=
  match s with
  | String c s' =>
      match rstrip s' with
      | EmptyString => if is_space c then EmptyString else String c EmptyString
      | r => String c r
      end
  | EmptyString => EmptyString
  end.

(** [s.strip()] *)
Definition strip (s : string) : string := rstrip (lstrip s).

(** [sep.join(parts)] *)
Fixpoint join (sep : string) (parts : list string) : string :=
  match parts with
  | [] => ""
  | [p] => p
  | p :: rest => p +:+ sep +:+ join sep rest
  end.

(** [re.sub(r'\s+', ' ', s)]: the scanner replaces each leftmost maximal
    match of [\s+] by one space.  [in_match] records that the previous
    character belonged to the match being consumed. *)
Fixpoint sub_spaces_from (in_match : bool) (s : string) : string :=
  match s with
  | EmptyString => EmptyString
  | String c s' =>
      if is_space c
      then if in_match then sub_spaces_from true s'
           else String " " (sub_spaces_from true s')
      else String c (sub_spaces_from false s')
  end.

Definition re_sub_spaces (s : string) : string := sub_spaces_from false s.

(** [len(s)] *)
Definition len (s : string) : Z := Z.of_nat (String.length s).

(** [range(start, stop, step)] for [step <> 0]; CPython computes the number
    of elements first.  [range] with a zero step raises [ValueError]. *)
Definition range_length (start stop step : Z) : Z :=
  if 0 <? step then
    if start <? stop then (stop - start - 1) / step + 1 else 0
  else
    if stop <? start then (start - stop - 1) / (- step) + 1 else 0.

Definition range (start stop step : Z) : list Z :=
  map (fun k => start + Z.of_nat k * step)
      (seq 0 (Z.to_nat (range_length start stop step))).

(** [s[i:j]] for indices [0 <= i <= j]; the slice is clipped at the end of
    the string. *)
Definition slice (s : string) (i j : Z) : string :=
  substring (Z.to_nat i) (Z.to_nat (j - i)) s.

(** Decimal digits of a natural number, ["0"] for zero. *)
Definition digits (n : N) : string := NilEmpty.string_of_uint (N.to_uint n).

Fixpoint zeros (k : nat) : string :=
  match k with
  | O => ""
  | S k' => String "0" (zeros k')
  end.

(** [format(z, '0{width}d')]: sign first, then zeros up to the width. *)
Definition format_0d (width : nat) (z : Z) : string :=
  let d := digits (Z.abs_N z) in
  if z <? 0
  then String "-" (zeros (width - 1 - String.length d) +:+ d)
  else zeros (width - String.length d) +:+ d.

(** [str(i)] for an integer. *)
Definition str_of_int (z : Z) : string :=
  if z <? 0 then String "-" (digits (Z.abs_N z)) else digits (Z.abs_N z).

(** [s.rfind(c)] for a one-character needle: index of the last occurrence,
    [-1] when there is none. *)
Fixpoint rfind_from (c : ascii) (s : string) (i : Z) (last : Z) : Z :=
  match s with
  | EmptyString => last
  | String x s' => rfind_from c s' (i + 1) (if Ascii.eqb x c then i else last)
  end.

Definition rfind (c : ascii) (s : string) : Z := rfind_from c s 0 (-1).

(** [posixpath.splitext]: split at the last dot of the last path component,
    unless that component consists of leading dots only up to that dot. *)
Definition splitext (p : string) : string * string :=
  let sepIndex := rfind "/" p in
  let dotIndex := rfind "." p in
  if sepIndex <? dotIndex then
    if existsb (fun k => negb (String.eqb (slice p k (k + 1)) "."))
               (range (sepIndex + 1) dotIndex 1)
    then (slice p 0 dotIndex, slice p dotIndex (len p))
    else (p, "")
  else (p, "").

End PyStr.

(** ** Python numbers *)

(** A number of seconds is an [int] or a [float].  A float is a finite
    binary64 value, held as the rational it denotes; the sign of a zero is
    dropped, [int] does not see it. *)
Inductive number : Type :=
| PyInt (z : Z)
| PyFloat (x : Q).

Module PyNum.

(** The rational a number denotes. *)
Definition value (a : number) : Q :=
  match a with
  | PyInt z => inject_Z z
  | PyFloat x => x
  end.

(** *** binary64 arithmetic

    An operation on floats is the operation on the rationals followed by
    rounding to 53 significant bits, ties to even.  The range of the
    exponent is left out: for finite operands no result below overflows or
    is subnormal unless it is exact. *)

(** [a / b] rounded to the nearest integer, ties to even, for [0 < b]. *)
Definition round_half_even (a b : Z) : Z :=
  let q := a / b in
  let r := a mod b in
  if 2 * r <? b then q
  else if b <? 2 * r then q + 1
  else if Z.even q then q else q + 1.

(** [floor (log2 (n / d))] for [0 < n] and [0 < d]. *)
Definition ilog2 (n d : Z) : Z :=
  let c := Z.log2 n - Z.log2 d in
  if (if 0 <=? c then 2 ^ c * d <=? n else d <=? 2 ^ (- c) * n) then c else c - 1.

(** The binary64 value nearest to [q], ties to even. *)
Definition round64 (q : Q) : Q :=
  let n := Qnum q in
  let d := Zpos (Qden q) in
  if n =? 0 then 0%Q
  else
    let e := ilog2 (Z.abs n) d - 52 in
    if 0 <=? e
    then inject_Z (round_half_even n (d * 2 ^ e) * 2 ^ e)
    else Qred (round_half_even (n * 2 ^ (- e)) d # Z.to_pos (2 ^ (- e))).

(** [q] is a binary64 value: rounding leaves it as it is. *)
Definition is_binary64 (q : Q) : bool := Qeq_bool (round64 q) q.

(** Truncation towards zero. *)
Definition Qtrunc (q : Q) : Z := Z.quot (Qnum q) (Zpos (Qden q)).

Definition Qlt_bool (x y : Q) : bool := negb (Qle_bool y x).

(** C's [fmod(x, y)]: the remainder of the division truncated towards zero,
    which has the sign of [x]; it is a binary64 value, so that nothing is
    rounded. *)
Definition fmod (x y : Q) : Q := (x - y * inject_Z (Qtrunc (x / y)))%Q.

(** [x % y] on floats (CPython's [float_rem]), for [y <> 0]: the remainder
    of [fmod], moved to the sign of [y] by one rounded addition. *)
Definition float_rem (x y : Q) : Q :=
  let mod_ := fmod x y in
  if Qeq_bool mod_ 0 then 0%Q
  else if xorb (Qlt_bool y 0) (Qlt_bool mod_ 0) then round64 (mod_ + y)
       else mod_.

(** [x // y] on floats (CPython's [float_floor_div]), for [y <> 0]. *)
Definition float_floor_div (x y : Q) : Q :=
  let mod_ := fmod x y in
  let div := round64 (round64 (x - mod_) / y) in
  let div :=
    if negb (Qeq_bool mod_ 0) && xorb (Qlt_bool y 0) (Qlt_bool mod_ 0)
    then round64 (div - 1)
    else div in
  if Qeq_bool div 0 then 0%Q
  else
    let floordiv := inject_Z (Qfloor div) in
    if Qlt_bool (1 # 2) (round64 (div - floordiv))
    then round64 (floordiv + 1)
    else floordiv.

(** [a // b] for an [int] literal [b]: floor division of integers, or of
    floats after [b] has become a float. *)
Definition floordiv (a : number) (b : Z) : number :=
  match a with
  | PyInt z => PyInt (z / b)
  | PyFloat x => PyFloat (float_floor_div x (inject_Z b))
  end.

(** [a % b] for an [int] literal [b]. *)
Definition mod_ (a : number) (b : Z) : number :=
  match a with
  | PyInt z => PyInt (z mod b)
  | PyFloat x => PyFloat (float_rem x (inject_Z b))
  end.

(** [int(a)]: an [int] is returned as it is, a float is truncated towards
    zero. *)
Definition int (a : number) : Z :=
  match a with
  | PyInt z => z
  | PyFloat x => Qtrunc x
  end.

End PyNum.

Import PyStr.

(** ** Data model *)

(** One element of the list [transcript.fetch()] returns: a dictionary with
    the keys ['text'], ['start'] and ['duration']. *)
Record TranscriptEntry : Type := mkEntry {
  text : string;
  start : number;
  duration : number
}.

(** A track of the provider's catalog.  [fetch k] is the outcome of the
    network call [transcript.fetch()] for this track when it is made in
    attempt number [k] of a call of [get_transcript] (the attempts are
    numbered from 0 in the order in which they are made): the provider may
    fail one request and answer the next. *)
Record Transcript : Type := mkTranscript {
  language : string;
  language_code : string;
  is_generated : bool;
  fetch : nat -> result (list TranscriptEntry)
}.

(** The catalog, in the order in which iterating over it yields the tracks. *)
Definition TranscriptList : Type := list Transcript.

(** ** The provider ([youtube_transcript_api]) *)

(** What the program needs from the library: the catalog of a video, and the
    rule by which [find_transcript] decides that a track answers a requested
    language code. *)
Class Provider : Type := {
  list_transcripts : string -> result TranscriptList;
  language_matches : string -> string -> bool
}.

Definition manually_created (catalog : TranscriptList) : list Transcript :=
  List.filter (fun t => negb (is_generated t)) catalog.

Definition generated (catalog : TranscriptList) : list Transcript :=
  List.filter is_generated catalog.

(** The library's lookup: for each requested code in turn, the first group
    of tracks holding a track for it answers. *)
Fixpoint find_in_groups (matches : string -> string -> bool) (code : string)
    (groups : list (list Transcript)) : option Transcript :=
  match groups with
  | [] => None
  | g :: groups' =>
      match find (fun t => matches code (language_code t)) g with
      | Some t => Some t
      | None => find_in_groups matches code groups'
      end
  end.

Fixpoint find_by_codes (matches : string -> string -> bool)
    (language_codes : list string) (groups : list (list Transcript))
    (requested : list string) : result Transcript :=
  match language_codes with
  | [] => raise (NoTranscriptFound requested)
  | code :: codes' =>
      match find_in_groups matches code groups with
      | Some t => ret t
      | None => find_by_codes matches codes' groups requested
      end
  end.

(** Steps 1 and 2 look a track up by its language code. *)
Definition find_manually_created_transcript (catalog : TranscriptList)
    (language_codes : list string) : result Transcript :=
  find_by_codes String.eqb language_codes [manually_created catalog] language_codes.

Definition find_generated_transcript (catalog : TranscriptList)
    (language_codes : list string) : result Transcript :=
  find_by_codes String.eqb language_codes [generated catalog] language_codes.

(** [find_transcript] prefers manually created tracks and applies the
    provider's matching rule. *)
Definition find_transcript `{Provider} (catalog : TranscriptList)
    (language_codes : list string) : result Transcript :=
  find_by_codes language_matches language_codes
    [manually_created catalog; generated catalog] language_codes.

(** ** YouTubeTranscriptExtractor *)

(** What [get_transcript] returns: the fetched entries, the reported
    language and the provenance tag. *)
Definition Selection : Type := (list TranscriptEntry * string * string)%type.

(** [for x in xs: try: return body(x)  except: continue], the attempts
    numbered from [k] on.  [None] means the loop ended without returning. *)
Fixpoint for_try_return {A B} (body : nat -> A -> result B) (k : nat) (xs : list A)
    : option B :=
  match xs with
  | [] => None
  | x :: xs' =>
      match body k x with
      | inr b => Some b
      | inl _ => for_try_return body (S k) xs'
      end
  end.

(** The body of the [try] in the first loop (lines 41-42), as attempt [k]:
    look the manual track up, fetch it, return.  Either call may raise. *)
Definition try_manual (transcript_list : TranscriptList) (k : nat) (lang : string)
    : result Selection :=
  transcript <- find_manually_created_transcript transcript_list [lang] ;;
  data <- fetch transcript k ;;
  ret (data, lang, "manual").

(** The body of the [try] in the second loop (lines 49-50). *)
Definition try_generated (transcript_list : TranscriptList) (k : nat) (lang : string)
    : result Selection :=
  transcript <- find_generated_transcript transcript_list [lang] ;;
  data <- fetch transcript k ;;
  ret (data, lang, "auto-generated").

(** The body of the third [try] (lines 56-57). *)
Definition try_fallback `{Provider} (transcript_list : TranscriptList) (k : nat)
    : result Selection :=
  transcript <- find_transcript transcript_list ["en"] ;;
  data <- fetch transcript k ;;
  ret (data, "en", "fallback").

(** The handler of the third [try] (lines 60-65). *)
Definition first_available (transcript_list : TranscriptList) (k : nat)
    : result Selection :=
  match transcript_list with
  | transcript :: _ =>
      data <- fetch transcript k ;;
      ret (data, language_code transcript, "available")
  | [] => raise (Exception "No transcripts available")
  end.

(** The body of the outer [try] of [get_transcript], after the catalog has
    been obtained.  With [n] preferences the first loop makes the attempts
    [0 .. n-1], the second loop the attempts [n .. 2n-1], the third [try]
    is attempt [2n] and its handler attempt [2n+1]. *)
Definition select_transcript `{Provider} (transcript_list : TranscriptList)
    (languages : list string) : result Selection :=
  let n := List.length languages in
  match for_try_return (try_manual transcript_list) 0 languages with
  | Some r => ret r
  | None =>
      match for_try_return (try_generated transcript_list) n languages with
      | Some r => ret r
      | None =>
          try_except (try_fallback transcript_list (2 * n))
                     (fun _ => first_available transcript_list (2 * n + 1))
      end
  end.

(** [get_transcript] (lines 32-68): the outer [try] wraps every exception
    that reaches it. *)
Definition get_transcript `{Provider} (video_id : string) (languages : list string)
    : result Selection :=
  try_except
    (transcript_list <- list_transcripts video_id ;;
     select_transcript transcript_list languages)
    (fun e => raise (Exception ("Error fetching transcript: " +:+ exn_str e))).

(** [seconds_to_timestamp] (lines 92-101) *)
Definition seconds_to_timestamp (seconds : number) : string :=
  let hours := PyNum.int (PyNum.floordiv seconds 3600) in
  let minutes := PyNum.int (PyNum.floordiv (PyNum.mod_ seconds 3600) 60) in
  let seconds := PyNum.int (PyNum.mod_ seconds 60) in
  if 0 <? hours
  then format_0d 2 hours +:+ ":" +:+ format_0d 2 minutes +:+ ":" +:+ format_0d 2 seconds
  else format_0d 2 minutes +:+ ":" +:+ format_0d 2 seconds.

(** [format_transcript] returns one string or a list of strings. *)
Inductive FormattedOutput : Type :=
| Text (s : string)
| Chunks (l : list string).

(** Truth value of the argument [chunk_size] ([None] and [0] are false). *)
Definition chunk_size_truthy (chunk_size : option Z) : bool :=
  match chunk_size with
  | Some n => negb (n =? 0)
  | None => false
  end.

(** The loop that builds [formatted_text] by [append]. *)
Definition timestamped_lines (transcript_data : list TranscriptEntry) : list string :=
  fold_left
    (fun formatted_text entry =>
       let timestamp := seconds_to_timestamp (start entry) in
       let text := strip (text entry) in
       (formatted_text ++ ["[" +:+ timestamp +:+ "] " +:+ text])%list)
    transcript_data [].

(** [format_transcript] (lines 70-90) *)
Definition format_transcript (transcript_data : list TranscriptEntry)
    (include_timestamps : bool) (chunk_size : option Z) : FormattedOutput :=
  let result :=
    if include_timestamps
    then join (String (ascii_of_nat 10) "") (timestamped_lines transcript_data)
    else strip (re_sub_spaces
                  (join " " (map (fun entry => strip (text entry)) transcript_data)))
  in
  match chunk_size with
  | Some size =>
      if chunk_size_truthy chunk_size && negb include_timestamps
      then Chunks (map (fun i => slice result i (i + size))
                       (range 0 (len result) size))
      else Text result
  | None => Text result
  end.

(** [save_to_file] (lines 103-114): the file system is the list of files
    written so far, the latest first, and writing to it succeeds; [now] is
    the value of [datetime.now().strftime(...)] at the call.  The name of
    the written file is returned. *)
Definition FileSystem : Type := list (string * string).

Definition save_to_file (now : string) (fs : FileSystem) (text : string)
    (filename : option string) (video_id : string) : string * FileSystem :=
  let filename :=
    match filename with
    | Some f => if String.eqb f "" then None else Some f
    | None => None
    end in
  let filename :=
    match filename with
    | Some f => f
    | None => "youtube_transcript_" +:+ video_id +:+ "_" +:+ now +:+ ".txt"
    end in
  (filename, (filename, text) :: fs).

(** The name [main] gives to chunk [i] out of [n_chunks] (lines 186-189). *)
Definition chunk_filename (output : option string) (video_id : string)
    (n_chunks : nat) (i : Z) : string :=
  let default := "transcript_chunk_" +:+ str_of_int i +:+ "_" +:+ video_id +:+ ".txt" in
  let filename :=
    match output with
    | Some o => if String.eqb o "" then default else o
    | None => default
    end in
  if (1 <? n_chunks)%nat
  then let '(base, ext) := splitext filename in
       base +:+ "_chunk_" +:+ str_of_int i +:+ ext
  else filename.

(** [enumerate(xs, 1)] *)
Definition enumerate_from_1 {A} (xs : list A) : list (Z * A) :=
  combine (map (fun k => Z.of_nat k) (seq 1 (List.length xs))) xs.

(** The output stage of [main] (lines 182-196): the names of the files
    saved, in order, and the file system afterwards. *)
Definition main_save (now : string) (fs : FileSystem) (output : option string)
    (video_id : string) (formatted_text : FormattedOutput)
    : list string * FileSystem :=
  match formatted_text with
  | Chunks chunks =>
      fold_left
        (fun '(saved, fs) '(i, chunk) =>
           let filename := chunk_filename output video_id (List.length chunks) i in
           let '(saved_file, fs') := save_to_file now fs chunk (Some filename) video_id in
           ((saved ++ [saved_file])%list, fs'))
        (enumerate_from_1 chunks) ([], fs)
  | Text s =>
      let '(saved_file, fs') := save_to_file now fs s output video_id in
      ([saved_file], fs')
  end.

(** The value object [extract_youtube_transcript] returns. *)
Record Extracted : Type := mkExtracted {
  ex_text : FormattedOutput;
  ex_language : string;
  ex_source : string;
  ex_video_id : string
}.

(** ** The specification's vocabulary *)

Module Spec.

(** [x] is the first element of [l] that satisfies [P]. *)
Definition first_with {A} (P : A -> Prop) (l : list A) (x : A) : Prop :=
  exists l1 l2, l = (l1 ++ x :: l2)%list /\ P x /\ Forall (fun y => ~ P y) l1.

Definition manual_for (lang : string) (t : Transcript) : Prop :=
  is_generated t = false /\ language_code t = lang.

Definition generated_for (lang : string) (t : Transcript) : Prop :=
  is_generated t = true /\ language_code t = lang.

Definition has_manual (catalog : TranscriptList) (lang : string) : Prop :=
  exists t, In t catalog /\ manual_for lang t.

Definition has_generated (catalog : TranscriptList) (lang : string) : Prop :=
  exists t, In t catalog /\ generated_for lang t.

(** The tests behind the two properties, as the lookups compute them. *)
Definition manual_test (lang : string) (t : Transcript) : bool :=
  negb (is_generated t) && String.eqb lang (language_code t).

Definition generated_test (lang : string) (t : Transcript) : bool :=
  is_generated t && String.eqb lang (language_code t).

(** The attempt [body x] raised. *)
Definition fails {A B} (body : A -> result B) (x : A) : Prop :=
  exists e, body x = inl e.

(** The elements of [xs] have the property [P], each at its own attempt: the
    first at attempt [k], the next at attempt [k + 1], and so on. *)
Fixpoint each_from {A} (P : nat -> A -> Prop) (k : nat) (xs : list A) : Prop :=
  match xs with
  | [] => True
  | x :: xs' => P k x /\ each_from P (S k) xs'
  end.

(** The attempts on the elements of [xs], numbered from [k] on, all
    raised. *)
Definition fails_from {A B} (body : nat -> A -> result B) (k : nat) (xs : list A)
    : Prop :=
  each_from (fun k x => fails (body k) x) k xs.

(** The four selection rules of the cascade as the specification states
    them, in priority order: the chosen track, the reported language and the
    provenance tag.  Whether a track can be fetched plays no part in
    them. *)
Inductive cascade `{Provider} (catalog : TranscriptList) (languages : list string)
  : Transcript -> string -> string -> Prop :=
| cascade_manual pre lang post t :
    languages = (pre ++ lang :: post)%list ->
    Forall (fun l => ~ has_manual catalog l) pre ->
    first_with (manual_for lang) catalog t ->
    cascade catalog languages t lang "manual"
| cascade_generated pre lang post t :
    Forall (fun l => ~ has_manual catalog l) languages ->
    languages = (pre ++ lang :: post)%list ->
    Forall (fun l => ~ has_generated catalog l) pre ->
    first_with (generated_for lang) catalog t ->
    cascade catalog languages t lang "auto-generated"
| cascade_fallback t :
    Forall (fun l => ~ has_manual catalog l) languages ->
    Forall (fun l => ~ has_generated catalog l) languages ->
    find_transcript catalog ["en"] = inr t ->
    cascade catalog languages t "en" "fallback"
| cascade_available t rest e :
    Forall (fun l => ~ has_manual catalog l) languages ->
    Forall (fun l => ~ has_generated catalog l) languages ->
    find_transcript catalog ["en"] = inl e ->
    catalog = t :: rest ->
    cascade catalog languages t (language_code t) "available".

(** Every fetch of every track of the catalog succeeds. *)
Definition always_fetchable (catalog : TranscriptList) : Prop :=
  forall t k, In t catalog -> exists data, fetch t k = inr data.

(** In attempt [k] the first manual (generated) track [t] for [lang]
    delivers the entries [data]. *)
Definition manual_delivers (catalog : TranscriptList) (k : nat) (lang : string)
    (t : Transcript) (data : list TranscriptEntry) : Prop :=
  first_with (manual_for lang) catalog t /\ fetch t k = inr data.

Definition generated_delivers (catalog : TranscriptList) (k : nat) (lang : string)
    (t : Transcript) (data : list TranscriptEntry) : Prop :=
  first_with (generated_for lang) catalog t /\ fetch t k = inr data.

(** In attempt [k] nothing is delivered for [lang]: the catalog has no such
    track, or the fetch of the one it has fails. *)
Definition manual_misses (catalog : TranscriptList) (k : nat) (lang : string) : Prop :=
  forall t data, ~ manual_delivers catalog k lang t data.

Definition generated_misses (catalog : TranscriptList) (k : nat) (lang : string) : Prop :=
  forall t data, ~ generated_delivers catalog k lang t data.

(** The four selection rules as the code applies them: a rule selects a
    track when the fetch of that track succeeds in the rule's attempt, and
    a track whose fetch fails is passed over like a track that is missing.
    With [n] preferences, the manual attempts are numbered [0 .. n-1], the
    generated attempts [n .. 2n-1], the fallback is attempt [2n] and the
    last step attempt [2n+1]. *)
Inductive selects `{Provider} (catalog : TranscriptList) (languages : list string)
  : Transcript -> list TranscriptEntry -> string -> string -> Prop :=
| selects_manual pre lang post t data :
    languages = (pre ++ lang :: post)%list ->
    each_from (manual_misses catalog) 0 pre ->
    manual_delivers catalog (List.length pre) lang t data ->
    selects catalog languages t data lang "manual"
| selects_generated pre lang post t data :
    each_from (manual_misses catalog) 0 languages ->
    languages = (pre ++ lang :: post)%list ->
    each_from (generated_misses catalog) (List.length languages) pre ->
    generated_delivers catalog (List.length languages + List.length pre) lang t data ->
    selects catalog languages t data lang "auto-generated"
| selects_fallback t data :
    each_from (manual_misses catalog) 0 languages ->
    each_from (generated_misses catalog) (List.length languages) languages ->
    find_transcript catalog ["en"] = inr t ->
    fetch t (2 * List.length languages) = inr data ->
    selects catalog languages t data "en" "fallback"
| selects_available t rest data :
    each_from (manual_misses catalog) 0 languages ->
    each_from (generated_misses catalog) (List.length languages) languages ->
    (forall t', find_transcript catalog ["en"] = inr t' ->
                exists e, fetch t' (2 * List.length languages) = inl e) ->
    catalog = t :: rest ->
    fetch t (2 * List.length languages + 1) = inr data ->
    selects catalog languages t data (language_code t) "available".

(** A field zero-padded to two digits. *)
Definition two_digits (n : Z) : string :=
  if n <? 10 then String "0" (digits (Z.to_N n)) else digits (Z.to_N n).

(** The timestamp of a whole number of seconds. *)
Definition timestamp_of_whole (n : Z) : string :=
  let hours := n / 3600 in
  let minutes := (n mod 3600) / 60 in
  let seconds := n mod 60 in
  if 0 <? hours
  then two_digits hours +:+ ":" +:+ two_digits minutes +:+ ":" +:+ two_digits seconds
  else two_digits minutes +:+ ":" +:+ two_digits seconds.

Fixpoint string_rev (s : string) : string :=
  match s with
  | EmptyString => EmptyString
  | String c s' => string_rev s' +:+ String c EmptyString
  end.

(** Trimming: drop the leading whitespace, and the leading whitespace of
    the mirror image. *)
Definition trim (s : string) : string :=
  string_rev (lstrip (string_rev (lstrip s))).

(** Collapsing runs of whitespace: a whitespace character becomes a space,
    unless what follows it already starts with the space of its own run. *)
Fixpoint collapse (s : string) : string :=
  match s with
  | EmptyString => EmptyString
  | String c s' =>
      if is_space c
      then match s' with
           | String c' _ => if is_space c' then collapse s' else String " " (collapse s')
           | EmptyString => String " " EmptyString
           end
      else String c (collapse s')
  end.

(** Plain mode, in the words of the specification. *)
Definition plain (entries : list TranscriptEntry) : string :=
  trim (collapse (join " " (map (fun e => trim (text e)) entries))).

Definition newline : string := String (ascii_of_nat 10) EmptyString.

(** One line of the timestamped rendering. *)
Definition line (e : TranscriptEntry) : string :=
  "[" +:+ seconds_to_timestamp (start e) +:+ "] " +:+ trim (text e).

(** Timestamped mode, in the words of the specification: the lines of the
    entries in order, every line but the last followed by one newline. *)
Fixpoint timestamped (entries : list TranscriptEntry) : string :=
  match entries with
  | [] => ""
  | e :: rest =>
      match rest with
      | [] => line e
      | _ :: _ => line e +:+ newline +:+ timestamped rest
      end
  end.

(** The name of chunk [i] as the specification gives it: derived from the
    output path when there is one, the default chunk name otherwise. *)
Definition claimed_chunk_name (output : option string) (video_id : string)
    (i : Z) : string :=
  match output with
  | Some o =>
      let '(base, ext) := splitext o in
      base +:+ "_chunk_" +:+ str_of_int i +:+ ext
  | None => "transcript_chunk_" +:+ str_of_int i +:+ "_" +:+ video_id +:+ ".txt"
  end.

(** The numbers [1 .. n] that [enumerate(chunks, 1)] assigns. *)
Definition chunk_numbers (n : nat) : list Z := map Z.of_nat (seq 1 n).

(** [s] ends with the string [suffix]. *)
Definition ends_with (s suffix : string) : Prop :=
  exists s0, s = s0 +:+ suffix.

End Spec.

(** ** Sample providers and catalogs *)

Module Samples.

(** The released library compares language codes for equality. *)
Definition exact_match (requested code : string) : bool := String.eqb requested code.

(** A provider that also answers a request by a regional variant of the
    requested language (["en-US"] for ["en"]). *)
Definition regional_match (requested code : string) : bool :=
  String.eqb requested code || String.prefix (requested +:+ "-") code.

(** A provider that serves the same catalog for every video. *)
Definition serving (matches : string -> string -> bool) (catalog : TranscriptList)
    : Provider :=
  {| list_transcripts := fun _ => ret catalog;
     language_matches := matches |}.

Definition hello : TranscriptEntry :=
  mkEntry "  hello  " (PyFloat 0) (PyFloat (3 # 2)).
Definition world : TranscriptEntry :=
  mkEntry ("world" +:+ Spec.newline) (PyFloat (7323 # 2)) (PyFloat 2).

Definition manual_es : Transcript :=
  mkTranscript "Spanish" "es" false (fun _ => ret [hello; world]).
Definition generated_en : Transcript :=
  mkTranscript "English (auto-generated)" "en" true (fun _ => ret [hello]).
Definition generated_fr : Transcript :=
  mkTranscript "French (auto-generated)" "fr" true (fun _ => ret [world]).
Definition manual_en_US : Transcript :=
  mkTranscript "English (United States)" "en-US" false (fun _ => ret [hello; world]).
Definition manual_ko : Transcript :=
  mkTranscript "Korean" "ko" false (fun _ => ret [world]).

(** A track whose fetch always fails. *)
Definition broken_de : Transcript :=
  mkTranscript "German" "de" false
    (fun _ => raise (ProviderError "Could not retrieve a transcript")).

(** A track whose first fetch fails and whose later fetches succeed. *)
Definition flaky_en : Transcript :=
  mkTranscript "English" "en" false
    (fun k => match k with
              | O => raise (ProviderError "Could not retrieve a transcript")
              | S _ => ret [hello]
              end).

Definition video : string := "abc12345678".

End Samples.

(** ** Regular expressions of [extract_video_id] *)

Module PyRe.

(** The class [[^&\n?#]] of the group. *)
Definition id_char (c : ascii) : bool :=
  negb (Ascii.eqb c "&" || Ascii.eqb c (ascii_of_nat 10)
        || Ascii.eqb c "?" || Ascii.eqb c "#").

Fixpoint take_while (p : ascii -> bool) (s : string) : string :=
  match s with
  | String c s' => if p c then String c (take_while p s') else EmptyString
  | EmptyString => EmptyString
  end.

Fixpoint drop (n : nat) (s : string) : string :=
  match n, s with
  | S n', String _ s' => drop n' s'
  | _, _ => s
  end.

(** The group [([^&\n?#]+)] matched at the start of [s]: greedy, and at
    least one character. *)
Definition group_at (s : string) : option string :=
  match take_while id_char s with
  | EmptyString => None
  | g => Some g
  end.

(** A literal followed by the group, matched at the start of [s]. *)
Definition literal_group_at (literal s : string) : option string :=
  if String.prefix literal s
  then group_at (drop (String.length literal) s)
  else None.

(** The first pattern at the start of [s]; the alternatives are tried in
    order, the next one when the previous fails with its group. *)
Definition pattern1_at (s : string) : option string :=
  match literal_group_at "youtube.com/watch?v=" s with
  | Some g => Some g
  | None =>
      match literal_group_at "youtu.be/" s with
      | Some g => Some g
      | None => literal_group_at "youtube.com/embed/" s
      end
  end.

(** [.*v=([^&\n?#]+)] at the start of [r]: the greedy [.*] stays on the
    line and gives back characters until [v=] and the group match, so the
    last position that matches wins. *)
Fixpoint dotstar_v_group_at (r : string) : option string :=
  match r with
  | EmptyString => None
  | String c r' =>
      match (if Ascii.eqb c (ascii_of_nat 10) then None else dotstar_v_group_at r') with
      | Some g => Some g
      | None => literal_group_at "v=" r
      end
  end.

(** The second pattern at the start of [s]. *)
Definition pattern2_at (s : string) : option string :=
  if String.prefix "youtube.com/watch?" s
  then dotstar_v_group_at (drop (String.length "youtube.com/watch?") s)
  else None.

(** [re.search(pattern, s)], as [match.group(1)]: the match at the leftmost
    position of [s] where the pattern matches. *)
Fixpoint search (pattern_at : string -> option string) (s : string) : option string :=
  match pattern_at s with
  | Some g => Some g
  | None =>
      match s with
      | String _ s' => search pattern_at s'
      | EmptyString => None
      end
  end.

(** [c.isalnum()] for a code point below 256. *)
Definition is_alnum_char (c : ascii) : bool :=
  let n := N_of_ascii c in
  ((48 <=? n)%N && (n <=? 57)%N) || ((65 <=? n)%N && (n <=? 90)%N)
  || ((97 <=? n)%N && (n <=? 122)%N)
  || (n =? 170)%N || (n =? 178)%N || (n =? 179)%N || (n =? 181)%N
  || (n =? 185)%N || (n =? 186)%N || (n =? 188)%N || (n =? 189)%N || (n =? 190)%N
  || ((192 <=? n)%N && (n <=? 214)%N) || ((216 <=? n)%N && (n <=? 246)%N)
  || ((248 <=? n)%N && (n <=? 255)%N).

Fixpoint all_chars (p : ascii -> bool) (s : string) : bool :=
  match s with
  | String c s' => p c && all_chars p s'
  | EmptyString => true
  end.

(** [s.isalnum()]: every character alphanumeric, and at least one. *)
Definition isalnum (s : string) : bool :=
  match s with
  | EmptyString => false
  | _ => all_chars is_alnum_char s
  end.

End PyRe.

(** ** The rest of the extractor and the command line *)

(** What the body of [main] may raise: the [ValueError] of
    [extract_video_id], or an exception of the other methods. *)
Inductive raised : Type :=
| ValueError (msg : string)
| Raised (e : exn).

Definition raised_str (r : raised) : string :=
  match r with
  | ValueError msg => msg
  | Raised e => exn_str e
  end.

(** The list [patterns] of [extract_video_id]. *)
Definition patterns : list (string -> option string) :=
  [PyRe.pattern1_at; PyRe.pattern2_at].

(** [for pattern in patterns: match = re.search(pattern, url); if match:
    return match.group(1)]; [None] when the loop ends. *)
Fixpoint first_pattern_match (patterns : list (string -> option string))
    (url : string) : option string :=
  match patterns with
  | [] => None
  | pattern :: patterns' =>
      match PyRe.search pattern url with
      | Some g => Some g
      | None => first_pattern_match patterns' url
      end
  end.

(** [extract_video_id] (lines 13-30) *)
Definition extract_video_id (url : string) : raised + string :=
  match first_pattern_match patterns url with
  | Some video_id => inr video_id
  | None =>
      if (len url =? 11) && PyRe.isalnum url
      then inr url
      else inl (ValueError "Invalid YouTube URL or video ID")
  end.

(** The dictionaries [get_video_info] builds. *)
Record LangInfo : Type := mkLangInfo {
  li_language : string;
  li_language_code : string;
  li_is_generated : bool
}.

Record VideoInfo : Type := mkVideoInfo {
  vi_video_id : string;
  vi_video_url : string;
  vi_available_languages : list LangInfo
}.

(** [get_video_info] (lines 116-135) *)
Definition get_video_info `{Provider} (video_id : string) : result VideoInfo :=
  try_except
    (transcript_list <- list_transcripts video_id ;;
     let available_languages :=
       fold_left
         (fun available_languages transcript =>
            let lang_info :=
              mkLangInfo (language transcript) (language_code transcript)
                         (is_generated transcript) in
            (available_languages ++ [lang_info])%list)
         transcript_list [] in
     ret (mkVideoInfo video_id
            ("https://www.youtube.com/watch?v=" +:+ video_id)
            available_languages))
    (fun e => raise (Exception ("Error getting video info: " +:+ exn_str e))).

(** [extract_youtube_transcript] (lines 207-239), with the preference list
    as a value. *)
Definition extract_youtube_transcript `{Provider} (url : string)
    (languages : list string) (include_timestamps : bool) (chunk_size : option Z)
    : result Extracted :=
  let body : raised + Extracted :=
    match extract_video_id url with
    | inl e => inl e
    | inr video_id =>
        match get_transcript video_id languages with
        | inl e => inl (Raised e)
        | inr (transcript_data, language, source) =>
            let formatted_text :=
              format_transcript transcript_data include_timestamps chunk_size in
            inr (mkExtracted formatted_text language source video_id)
        end
    end in
  match body with
  | inl e => raise (Exception ("Failed to extract transcript: " +:+ raised_str e))
  | inr extracted => ret extracted
  end.

(** ** Default arguments and the object store

    [def get_transcript(self, video_id, languages=['en'])] evaluates
    [['en']] once, when the [def] statement runs, and keeps the resulting
    list object in the function's [__defaults__]; a call that omits
    [languages] binds the parameter to that very object. *)

Definition loc : Type := positive.

(** The list objects of the running program. *)
Abbreviation Store := (gmap loc (list string)).

Definition alloc (σ : Store) (v : list string) : loc * Store :=
  let l := fresh (dom σ) in (l, <[l := v]> σ).

(** [l.append(x)] on the list object at [l]. *)
Definition list_append (σ : Store) (l : loc) (x : string) : Store :=
  alter (fun v => (v ++ [x])%list) l σ.

(** The contents of the list object at [l]. *)
Definition deref (σ : Store) (l : loc) : list string := default [] (σ !! l).

Record Defaults : Type := mkDefaults {
  get_transcript_defaults : loc;
  extract_youtube_transcript_defaults : loc
}.

(** Running the two [def] statements. *)
Definition define_functions (σ : Store) : Defaults * Store :=
  let '(d1, σ1) := alloc σ ["en"] in
  let '(d2, σ2) := alloc σ1 ["en"] in
  (mkDefaults d1 d2, σ2).

(** The object a parameter with a default is bound to. *)
Definition bind_parameter (default : loc) (argument : option loc) : loc :=
  match argument with
  | Some l => l
  | None => default
  end.

(** The object at [l] is new to a call that starts in the store [σ]: it did
    not exist before the call. *)
Definition new_to_call (σ : Store) (l : loc) : Prop := σ !! l = None.

(** A call [extractor.get_transcript(video_id)] or
    [extractor.get_transcript(video_id, languages)]: the loops read the
    list object bound to [languages], nothing is written, and the store is
    returned as the call leaves it. *)
Definition call_get_transcript `{Provider} (D : Defaults) (σ : Store)
    (video_id : string) (languages : option loc) : result Selection * Store :=
  let languages := bind_parameter (get_transcript_defaults D) languages in
  (get_transcript video_id (deref σ languages), σ).

(** A call of [extract_youtube_transcript], which passes the object bound
    to its own parameter on to [get_transcript]. *)
Definition call_extract_youtube_transcript `{Provider}
    (D : Defaults) (σ : Store) (url : string) (languages : option loc)
    (include_timestamps : bool) (chunk_size : option Z)
    : result Extracted * Store :=
  let languages := bind_parameter (extract_youtube_transcript_defaults D) languages in
  (extract_youtube_transcript url (deref σ languages) include_timestamps chunk_size, σ).

(** *** Client code

    Code that uses the two entry points creates lists of its own, appends
    to them and passes them as preferences, or leaves the preferences out.
    It reaches a list through a variable of its own: [Some i] stands for
    the [i]-th list it has created.  The entry points return strings and
    entries and no list object, so that the default objects are no such
    variable. *)
Inductive ClientOp : Type :=
| NewList (v : list string)
| Append (i : nat) (x : string)
| CallGetTranscript (video_id : string) (languages : option nat)
| CallExtract (url : string) (languages : option nat)
    (include_timestamps : bool) (chunk_size : option Z).

(** What a call returned to the client. *)
Inductive Event : Type :=
| GetTranscriptReturned (video_id : string) (languages : option nat)
    (r : result Selection)
| ExtractReturned (url : string) (languages : option nat)
    (include_timestamps : bool) (chunk_size : option Z) (r : result Extracted).

Record Client : Type := mkClient {
  heap : Store;
  lists : list loc;
  events : list Event
}.

(** The argument a call passes: none, or the object of the client's
    variable.  A variable that does not exist yet stops the statement. *)
Definition argument (c : Client) (languages : option nat) : option (option loc) :=
  match languages with
  | None => Some None
  | Some i =>
      match nth_error (lists c) i with
      | Some l => Some (Some l)
      | None => None
      end
  end.

Definition client_step `{Provider} (D : Defaults) (c : Client) (op : ClientOp) : Client :=
  match op with
  | NewList v =>
      let '(l, σ) := alloc (heap c) v in
      mkClient σ (lists c ++ [l]) (events c)
  | Append i x =>
      match nth_error (lists c) i with
      | Some l => mkClient (list_append (heap c) l x) (lists c) (events c)
      | None => c
      end
  | CallGetTranscript video_id languages =>
      match argument c languages with
      | Some arg =>
          let '(r, σ) := call_get_transcript D (heap c) video_id arg in
          mkClient σ (lists c)
                   (events c ++ [GetTranscriptReturned video_id languages r])
      | None => c
      end
  | CallExtract url languages include_timestamps chunk_size =>
      match argument c languages with
      | Some arg =>
          let '(r, σ) :=
            call_extract_youtube_transcript D (heap c) url arg
              include_timestamps chunk_size in
          mkClient σ (lists c)
                   (events c ++ [ExtractReturned url languages include_timestamps
                                   chunk_size r])
      | None => c
      end
  end.

Definition run_client `{Provider} (D : Defaults) (script : list ClientOp) (c : Client)
    : Client :=
  fold_left (client_step D) script c.

(** What holds of a client between any two of its statements: the two
    default objects hold en alone, no variable of the client is one of
    them, and every call it made without preferences returned what the call
    with the preference list en returns. *)
Definition isolated `{Provider} (D : Defaults) (c : Client) : Prop :=
  heap c !! get_transcript_defaults D = Some ["en"]
  /\ heap c !! extract_youtube_transcript_defaults D = Some ["en"]
  /\ Forall (fun l => l <> get_transcript_defaults D
                      /\ l <> extract_youtube_transcript_defaults D) (lists c)
  /\ (forall video_id r,
        In (GetTranscriptReturned video_id None r) (events c) ->
        r = get_transcript video_id ["en"])
  /\ (forall url include_timestamps chunk_size r,
        In (ExtractReturned url None include_timestamps chunk_size r) (events c) ->
        r = extract_youtube_transcript url ["en"] include_timestamps chunk_size).

(** *** [main] *)

(** The parsed command line. *)
Record Args : Type := mkArgs {
  url : string;
  languages : list string;
  output : option string;
  no_timestamps : bool;
  chunk_size : option Z;
  info : bool
}.

(** What [main] takes from its host: the formatted time of
    [datetime.now()], for each file name whether [open(filename, 'w')]
    fails and with which message, and [repr] of a list of strings. *)
Record Host : Type := mkHost {
  host_now : string;
  host_open_error : string -> option string;
  host_repr : list string -> string
}.

(** What [main] acts on: the arguments of the [print] calls on the two
    streams, in order ([print] writes its argument and a line feed, see
    [Shape.written]), and the writes to files, the latest first (a file
    written again holds what the later write has put there). *)
Record World : Type := mkWorld {
  stdout : list string;
  stderr : list string;
  files : FileSystem
}.

(** A command: it changes the world and returns or raises. *)
Definition IO (A : Type) : Type := World -> (raised + A) * World.

Definition io_ret {A} (a : A) : IO A := fun w => (inr a, w).

Definition io_raise {A} (e : raised) : IO A := fun w => (inl e, w).

Definition io_bind {A B} (m : IO A) (k : A -> IO B) : IO B :=
  fun w =>
    match m w with
    | (inr a, w') => k a w'
    | (inl e, w') => (inl e, w')
    end.

Declare Scope io_scope.
Delimit Scope io_scope with io.
Notation "x <- m ;; k" := (io_bind m (fun x => k))
  (at level 100, m at next level, right associativity) : io_scope.

(** [print(line)] *)
Definition print (line : string) : IO unit :=
  fun w => (inr tt, mkWorld (stdout w ++ [line])%list (stderr w) (files w)).

(** [print(line, file=sys.stderr)] *)
Definition print_err (line : string) : World -> World :=
  fun w => mkWorld (stdout w) (stderr w ++ [line])%list (files w).

(** A call of a method that does no input or output. *)
Definition io_call {A} (r : result A) : IO A :=
  fun w => (match r with inl e => inl (Raised e) | inr a => inr a end, w).

(** [for x in xs: body(x)] *)
Fixpoint io_for {A} (xs : list A) (body : A -> IO unit) : IO unit :=
  match xs with
  | [] => io_ret tt
  | x :: xs' => (_ <- body x ;; io_for xs' body)%io
  end.

(** [save_to_file] (lines 103-114) with the outcome of [open]: when it
    fails nothing is written and the error is wrapped. *)
Definition save_to_file_io (host : Host) (text : string) (filename : option string)
    (video_id : string) : IO string :=
  fun w =>
    let '(name, fs) := save_to_file (host_now host) (files w) text filename video_id in
    match host_open_error host name with
    | None => (inr name, mkWorld (stdout w) (stderr w) fs)
    | Some msg =>
        (inl (Raised (Exception ("Error saving file: " +:+ msg))), w)
    end.

(** The [try] block of [main] (lines 155-200). *)
Definition main_body `{Provider} (host : Host) (args : Args) : IO unit :=
  (video_id <- (fun w => (extract_video_id (url args), w)) ;;
   _ <- print ("Processing video ID: " +:+ video_id) ;;
   if info args then
     info <- io_call (get_video_info video_id) ;;
     _ <- print (Spec.newline +:+ "Video URL: " +:+ vi_video_url info) ;;
     _ <- print "Available transcripts:" ;;
     io_for (vi_available_languages info)
       (fun lang =>
          let status := if li_is_generated lang then "Auto-generated" else "Manual" in
          print ("  - " +:+ li_language lang +:+ " (" +:+ li_language_code lang
                 +:+ ") - " +:+ status))
   else
     _ <- print ("Fetching transcript in languages: " +:+ host_repr host (languages args)) ;;
     selected <- io_call (get_transcript video_id (languages args)) ;;
     let '(transcript_data, language, source) := selected in
     _ <- print ("Found transcript in '" +:+ language +:+ "' (" +:+ source +:+ ")") ;;
     let include_timestamps := negb (no_timestamps args) in
     let formatted_text :=
       format_transcript transcript_data include_timestamps (chunk_size args) in
     match formatted_text with
     | Chunks chunks =>
         _ <- print ("Text split into " +:+ str_of_int (Z.of_nat (List.length chunks))
                     +:+ " chunks") ;;
         io_for (enumerate_from_1 chunks)
           (fun '(i, chunk) =>
              let filename := chunk_filename (output args) video_id (List.length chunks) i in
              saved_file <- save_to_file_io host chunk (Some filename) video_id ;;
              print ("Chunk " +:+ str_of_int i +:+ " saved to: " +:+ saved_file))
     | Text text =>
         saved_file <- save_to_file_io host text (output args) video_id ;;
         _ <- print ("Transcript saved to: " +:+ saved_file) ;;
         let preview :=
           if 500 <? len text then slice text 0 500 +:+ "..." else text in
         print (Spec.newline +:+ "Preview:" +:+ Spec.newline +:+ preview)
     end)%io.

(** [main] (lines 137-204) once [parse_args] has returned [args]: the exit
    status and the world it leaves.  [parse_args] belongs to argparse; a
    command line it refuses ends the program with status 2 before [main]
    does anything else, and is no [Args]. *)
Definition main `{Provider} (host : Host) (args : Args) (w : World) : Z * World :=
  match main_body host args w with
  | (inr _, w') => (0, w')
  | (inl e, w') => (1, print_err ("Error: " +:+ raised_str e) w')
  end.

(** ** Further vocabulary *)

Module Shape.

(** [g] occurs in [s] as a run of consecutive characters. *)
Definition occurs_in (g s : string) : Prop :=
  exists pre post, s = pre +:+ g +:+ post.

(** [s] has no character [x]. *)
Definition free_of (x : ascii) (s : string) : bool :=
  PyRe.all_chars (fun c => negb (Ascii.eqb c x)) s.

(** The tail of a URL after the identifier: nothing, or something that
    starts with one of the delimiters [&], [?], [#] or a line feed. *)
Definition delimited (tail : string) : Prop :=
  tail = "" \/ exists d t, tail = String d t /\ PyRe.id_char d = false.

(** In a normalized text every whitespace character is a single space
    between two other characters: [spaced prev s] checks [s] when [prev]
    tells that a space (or the start of the text) comes right before it. *)
Fixpoint spaced (prev : bool) (s : string) : bool :=
  match s with
  | EmptyString => negb prev
  | String c s' =>
      if PyStr.is_space c
      then Ascii.eqb c " " && negb prev && spaced true s'
      else spaced false s'
  end.

Definition normalized (s : string) : bool :=
  match s with
  | EmptyString => true
  | _ => spaced true s
  end.

(** The same without the conditions at the two ends. *)
Fixpoint single_spaces (prev : bool) (s : string) : bool :=
  match s with
  | EmptyString => true
  | String c s' =>
      if PyStr.is_space c
      then Ascii.eqb c " " && negb prev && single_spaces true s'
      else single_spaces false s'
  end.

(** The text a stream holds after the [print] calls with the arguments
    [calls]: [print] writes its argument and a line feed. *)
Fixpoint written (calls : list string) : string :=
  match calls with
  | [] => ""
  | line :: calls' => line +:+ Spec.newline +:+ written calls'
  end.

(** What the file [name] holds after the writes [fs], the latest first:
    what the latest write under that name has put there, [open(name, 'w')]
    having emptied the file before.  [None] when no write was made under
    that name. *)
Definition content (fs : FileSystem) (name : string) : option string :=
  match find (fun f => String.eqb (fst f) name) fs with
  | Some f => Some (snd f)
  | None => None
  end.

(** The number of leading file names that [open] accepts. *)
Fixpoint writable_prefix (host : Host) (names : list string) : nat :=
  match names with
  | [] => O
  | name :: names' =>
      match host_open_error host name with
      | None => S (writable_prefix host names')
      | Some _ => O
      end
  end.

(** The line [main] prints for a track in [--info] mode. *)
Definition info_line (t : Transcript) : string :=
  "  - " +:+ language t +:+ " (" +:+ language_code t +:+ ") - "
  +:+ (if is_generated t then "Auto-generated" else "Manual").

(** The name [save_to_file] writes to: the one given, or the default. *)
Definition saved_name (host : Host) (filename : option string) (video_id : string)
    : string :=
  fst (save_to_file (host_now host) [] "" filename video_id).

(** A decimal digit. *)
Definition is_digit (c : ascii) : bool :=
  let n := N_of_ascii c in ((48 <=? n)%N && (n <=? 57)%N).

(** The names [main] gives to the chunks of one run. *)
Definition chunk_names (output : option string) (video_id : string) (n : nat)
    : list string :=
  map (chunk_filename output video_id n) (Spec.chunk_numbers n).

End Shape.

(** * Properties *)

(** ** Numbers and timestamps *)

Section Binary64.

Import PyNum.

Local Open Scope Z_scope.

Lemma round_half_even_exact (n b : Z) : 0 < b -> round_half_even (n * b) b = n.
Proof.
  intros Hb. unfold round_half_even.
  rewrite Z.div_mul, Z.mod_mul by lia.
  destruct (Z.ltb_spec (2 * 0) b); [reflexivity | lia].
Qed.

Lemma ilog2_mul (m d : Z) : 0 < m -> 0 < d -> ilog2 (m * d) d = Z.log2 m.
Proof.
  intros Hm Hd. unfold ilog2.
  pose proof (Z.log2_mul_below m d Hm Hd) as Hlo.
  pose proof (Z.log2_mul_above m d ltac:(lia) ltac:(lia)) as Hhi.
  pose proof (Z.log2_nonneg m) as Hnn.
  destruct (Z.log2_spec m Hm) as [Hl Hu].
  set (L := Z.log2 m) in *.
  assert (Hc : Z.log2 (m * d) - Z.log2 d = L \/ Z.log2 (m * d) - Z.log2 d = L + 1) by lia.
  destruct Hc as [-> | ->].
  - destruct (Z.leb_spec 0 L); [|lia].
    destruct (Z.leb_spec (2 ^ L * d) (m * d)); [reflexivity | nia].
  - destruct (Z.leb_spec 0 (L + 1)); [|lia].
    replace (Z.succ L) with (L + 1) in Hu by lia.
    destruct (Z.leb_spec (2 ^ (L + 1) * d) (m * d)); [nia | lia].
Qed.

Lemma Qred_int (q : Q) (n : Z) : (q == inject_Z n)%Q -> Qred q = inject_Z n.
Proof.
  intros Hq. rewrite (Qred_complete _ _ Hq).
  pose proof (Qred_correct (inject_Z n)) as Hc.
  pose proof (gcd_Qred (inject_Z n)) as Hg.
  destruct (Qred (inject_Z n)) as [a b]. unfold Qeq, inject_Z in *. simpl in *.
  assert (Hb : Zpos b = 1).
  { assert (Hdiv : (Zpos b | a)) by (exists n; lia).
    pose proof (Z.gcd_divide_r a (Zpos b)) as _.
    assert (Hgb : (Zpos b | Z.gcd a (Zpos b))) by (apply Z.gcd_greatest; [assumption | reflexivity]).
    rewrite Hg in Hgb. apply Z.divide_1_r_nonneg in Hgb; lia. }
  assert (b = 1%positive) as -> by lia.
  f_equal. lia.
Qed.

(** Rounding leaves an integer below [2^53] as it is. *)
Lemma round64_int (q : Q) (n : Z) :
  (q == inject_Z n)%Q -> Z.abs n < 2 ^ 53 -> round64 q = inject_Z n.
Proof.
  intros Hq Hn. destruct q as [a d]. unfold Qeq in Hq. simpl in Hq.
  rewrite Z.mul_1_r in Hq. subst a. unfold round64. simpl Qnum. simpl Qden.
  destruct (Z.eqb_spec (n * Zpos d) 0) as [H0|H0].
  - assert (n = 0) as -> by nia. reflexivity.
  - assert (Hn0 : n <> 0) by (intros ->; lia).
    rewrite Z.abs_mul, (Z.abs_eq (Zpos d)) by lia.
    rewrite ilog2_mul by lia.
    assert (HL : 0 <= Z.log2 (Z.abs n) < 53).
    { split; [apply Z.log2_nonneg|]. apply Z.log2_lt_pow2; lia. }
    destruct (Z.leb_spec 0 (Z.log2 (Z.abs n) - 52)) as [He|He].
    + replace (Z.log2 (Z.abs n) - 52) with 0 by lia.
      rewrite Z.pow_0_r, !Z.mul_1_r. now rewrite round_half_even_exact by lia.
    + set (k := - (Z.log2 (Z.abs n) - 52)).
      assert (Hk : 0 < 2 ^ k) by (apply Z.pow_pos_nonneg; lia).
      replace (n * Zpos d * 2 ^ k) with (n * 2 ^ k * Zpos d) by ring.
      rewrite round_half_even_exact by lia.
      apply Qred_int. unfold Qeq. simpl. rewrite Z2Pos.id by lia. ring.
Qed.

Lemma round64_0 (q : Q) : (q == 0)%Q -> round64 q = 0%Q.
Proof. intros Hq. now apply (round64_int q 0). Qed.

Lemma Qtrunc_nonneg (q : Q) : (0 <= q)%Q -> Qtrunc q = Qfloor q.
Proof.
  destruct q as [n d]. unfold Qle, Qtrunc. simpl. intros Hn.
  apply Z.quot_div_nonneg; lia.
Qed.

Lemma Qtrunc_int (z : Z) : Qtrunc (inject_Z z) = z.
Proof. unfold Qtrunc, inject_Z. simpl. apply Z.quot_1_r. Qed.

Lemma Qfloor_div_pos (x : Q) (p : positive) :
  Qfloor (x / inject_Z (Zpos p)) = Qfloor x / Zpos p.
Proof.
  destruct x as [n d]. unfold Qdiv, Qinv, Qmult, inject_Z. simpl.
  rewrite Z.mul_1_r, Pos2Z.inj_mul.
  symmetry. apply Z.div_div; lia.
Qed.

Lemma Qfloor_sub_int (x : Q) (z : Z) : Qfloor (x - inject_Z z) = Qfloor x - z.
Proof.
  destruct x as [n d]. unfold Qminus, Qplus, Qopp, inject_Z. simpl.
  rewrite Z.mul_1_r, Pos.mul_1_r.
  replace (n + - z * Zpos d) with (n + (- z) * Zpos d) by ring.
  rewrite Z.div_add by lia. lia.
Qed.

Lemma Qfloor_nonneg (x : Q) : (0 <= x)%Q -> 0 <= Qfloor x.
Proof. intros Hx. rewrite <- (Qfloor_Z 0). now apply Qfloor_resp_le. Qed.

Lemma Qlt_bool_false (x y : Q) : (y <= x)%Q -> Qlt_bool x y = false.
Proof. intros H. unfold Qlt_bool. apply Qle_bool_iff in H. now rewrite H. Qed.

(** For [0 <= x] the remainder of [fmod] is the one of floor division. *)
Lemma fmod_nonneg (x : Q) (p : positive) :
  (0 <= x)%Q ->
  fmod x (inject_Z (Zpos p)) = (x - inject_Z (Zpos p * (Qfloor x / Zpos p)))%Q.
Proof.
  intros Hx. unfold fmod.
  rewrite Qtrunc_nonneg, Qfloor_div_pos.
  - reflexivity.
  - apply Qle_shift_div_l; [reflexivity|]. now rewrite Qmult_0_l.
Qed.

Lemma fmod_nonneg_floor (x : Q) (p : positive) :
  (0 <= x)%Q ->
  Qfloor (fmod x (inject_Z (Zpos p))) = Qfloor x mod Zpos p
  /\ (0 <= fmod x (inject_Z (Zpos p)))%Q.
Proof.
  intros Hx. rewrite fmod_nonneg by assumption.
  assert (Hfl : Qfloor (x - inject_Z (Zpos p * (Qfloor x / Zpos p)))
                = Qfloor x mod Zpos p).
  { rewrite Qfloor_sub_int, (Z.mod_eq (Qfloor x) (Zpos p)) by lia. reflexivity. }
  split; [exact Hfl|].
  apply Qle_trans with (inject_Z (Qfloor x mod Zpos p)).
  - change 0%Q with (inject_Z 0). rewrite <- Zle_Qle. apply Z.mod_pos_bound. lia.
  - rewrite <- Hfl. apply Qfloor_le.
Qed.

(** [x % b] for a float [0 <= x] and a positive [int] [b]: nothing is
    rounded. *)
Lemma float_rem_nonneg (x : Q) (p : positive) :
  (0 <= x)%Q ->
  Qfloor (float_rem x (inject_Z (Zpos p))) = Qfloor x mod Zpos p
  /\ (0 <= float_rem x (inject_Z (Zpos p)))%Q.
Proof.
  intros Hx. destruct (fmod_nonneg_floor x p Hx) as [Hfl Hpos].
  unfold float_rem.
  destruct (Qeq_bool (fmod x (inject_Z (Zpos p))) 0) eqn:E.
  - apply Qeq_bool_eq in E. split; [|apply Qle_refl].
    rewrite <- Hfl. now rewrite E.
  - rewrite (Qlt_bool_false (inject_Z (Zpos p)) 0) by (unfold Qle; simpl; lia).
    rewrite (Qlt_bool_false _ 0 Hpos). simpl. now split.
Qed.

(** [x // b] for a float [0 <= x < 2^53] and a positive [int] [b]: the
    difference [x - fmod(x, b)] and the quotient are integers below [2^53],
    so that nothing is rounded either. *)
Lemma float_floor_div_nonneg (x : Q) (p : positive) :
  (0 <= x)%Q -> Qfloor x < 2 ^ 53 ->
  float_floor_div x (inject_Z (Zpos p)) = inject_Z (Qfloor x / Zpos p).
Proof.
  intros Hx Hlt. pose proof (Qfloor_nonneg x Hx) as Hfl.
  destruct (fmod_nonneg_floor x p Hx) as [_ Hpos].
  set (h := Qfloor x / Zpos p).
  assert (Hh : 0 <= h) by (apply Z.div_pos; lia).
  assert (Hph : Zpos p * h <= Qfloor x) by (apply Z.mul_div_le; lia).
  assert (Hhx : h <= Qfloor x) by nia.
  unfold float_floor_div.
  rewrite (Qlt_bool_false (inject_Z (Zpos p)) 0) by (unfold Qle; simpl; lia).
  rewrite (Qlt_bool_false _ 0 Hpos). rewrite andb_false_r.
  assert (E1 : round64 (x - fmod x (inject_Z (Zpos p))) = inject_Z (Zpos p * h)).
  { apply round64_int; [|lia].
    rewrite fmod_nonneg by assumption. fold h. ring. }
  rewrite E1.
  assert (E2 : round64 (inject_Z (Zpos p * h) / inject_Z (Zpos p)) = inject_Z h).
  { apply round64_int; [|lia].
    rewrite inject_Z_mult. field. unfold Qeq. simpl. lia. }
  rewrite E2.
  destruct (Qeq_bool (inject_Z h) 0) eqn:E0.
  - apply Qeq_bool_eq in E0. unfold Qeq in E0. simpl in E0.
    assert (h = 0) as -> by lia. reflexivity.
  - rewrite Qfloor_Z.
    rewrite (round64_0 (inject_Z h - inject_Z h)) by ring.
    reflexivity.
Qed.

End Binary64.

Section Digits.

Lemma digits_length_ge_2 (n : N) :
  (10 <= n)%N -> (2 <= String.length (digits n))%nat.
Proof.
  intros Hn. unfold digits.
  pose proof (DecimalN.Unsigned.of_to n) as Hof.
  destruct (N.to_uint n) as [|u|u|u|u|u|u|u|u|u|u];
    try (destruct u; simpl; try lia; vm_compute in Hof; lia).
  vm_compute in Hof; lia.
Qed.

Lemma format_0d_two_digits (z : Z) :
  0 <= z -> format_0d 2 z = Spec.two_digits z.
Proof.
  intros Hz. unfold format_0d, Spec.two_digits.
  destruct (Z.ltb_spec z 0) as [|_]; [lia|].
  replace (Z.abs_N z) with (Z.to_N z) by lia.
  destruct (Z.ltb_spec z 10) as [Hlt|Hge].
  - assert (Hcases : z = 0 \/ z = 1 \/ z = 2 \/ z = 3 \/ z = 4 \/ z = 5
                     \/ z = 6 \/ z = 7 \/ z = 8 \/ z = 9) by lia.
    repeat (destruct Hcases as [->|Hcases]; [reflexivity|]).
    now subst.
  - pose proof (digits_length_ge_2 (Z.to_N z) ltac:(lia)) as Hlen.
    replace (2 - String.length (digits (Z.to_N z)))%nat with 0%nat by lia.
    reflexivity.
Qed.

End Digits.

Section Timestamps.

Import PyNum.

Local Open Scope Z_scope.

(** The three fields of a non-negative number of seconds: for an [int] of
    any size, and for a float below [2^53]. *)
Lemma seconds_to_timestamp_fields (s : number) :
  (0 <= PyNum.value s)%Q ->
  (forall x, s = PyFloat x -> Qfloor x < 2 ^ 53) ->
  let n := Qfloor (PyNum.value s) in
  PyNum.int (PyNum.floordiv s 3600) = n / 3600
  /\ PyNum.int (PyNum.floordiv (PyNum.mod_ s 3600) 60) = (n mod 3600) / 60
  /\ PyNum.int (PyNum.mod_ s 60) = n mod 60.
Proof.
  intros Hs Hfloat. destruct s as [z|x]; simpl PyNum.value in *.
  - cbv zeta. rewrite Qfloor_Z. auto.
  - specialize (Hfloat x eq_refl). cbv zeta.
    unfold PyNum.floordiv, PyNum.mod_, PyNum.int.
    change (inject_Z 3600) with (inject_Z (Zpos 3600)).
    change (inject_Z 60) with (inject_Z (Zpos 60)).
    destruct (float_rem_nonneg x 3600 Hs) as [Hm Hm0].
    destruct (float_rem_nonneg x 60 Hs) as [Hsec Hsec0].
    pose proof (Z.mod_pos_bound (Qfloor x) 3600 ltac:(lia)) as Hb.
    rewrite float_floor_div_nonneg by assumption.
    rewrite float_floor_div_nonneg by (try assumption; rewrite Hm; lia).
    rewrite !Qtrunc_int, Hm, Qtrunc_nonneg, Hsec by assumption.
    auto.
Qed.





End Timestamps.

(** ** Strings *)

Section Strings.

Local Arguments String.append : simpl nomatch.

Lemma append_nil_r (s : string) : s +:+ "" = s.
Proof. induction s as [|c s IH]; simpl; [reflexivity | now rewrite IH]. Qed.

Lemma append_assoc (a b c : string) : (a +:+ b) +:+ c = a +:+ (b +:+ c).
Proof. induction a as [|x a IH]; simpl; [reflexivity | now rewrite IH]. Qed.

Lemma append_eq_nil (a b : string) : a +:+ b = "" -> a = "" /\ b = "".
Proof. destruct a; simpl; [auto | discriminate]. Qed.

Lemma append_snoc_inj (a b : string) (x y : ascii) :
  a +:+ String x "" = b +:+ String y "" -> a = b /\ x = y.
Proof.
  revert b. induction a as [|c a IH]; intros [|c' b] H; simpl in H.
  - now inversion H.
  - inversion H as [[Hc Hb]]. destruct b; discriminate.
  - inversion H as [[Hc Ha]]. destruct a; discriminate.
  - inversion H as [[Hc Ha]]. destruct (IH _ Ha) as [-> ->]. now subst.
Qed.

Lemma string_rev_append (a b : string) :
  Spec.string_rev (a +:+ b) = Spec.string_rev b +:+ Spec.string_rev a.
Proof.
  induction a as [|c a IH]; simpl.
  - now rewrite append_nil_r.
  - now rewrite IH, append_assoc.
Qed.

Lemma string_rev_involutive (s : string) : Spec.string_rev (Spec.string_rev s) = s.
Proof.
  induction s as [|c s IH]; simpl; [reflexivity|].
  now rewrite string_rev_append, IH.
Qed.

(** Stripping on the left commutes with appending a character, unless the
    whole string is whitespace. *)
Lemma lstrip_snoc (s : string) (c : ascii) :
  lstrip (s +:+ String c "")
  = match lstrip s with
    | "" => if is_space c then "" else String c ""
    | r => r +:+ String c ""
    end.
Proof.
  induction s as [|x s IH]; simpl.
  - reflexivity.
  - destruct (is_space x); [exact IH | reflexivity].
Qed.

(** [rstrip] is [lstrip] on the mirror image. *)
Lemma rstrip_mirror (s : string) :
  rstrip s = Spec.string_rev (lstrip (Spec.string_rev s)).
Proof.
  induction s as [|c s IH]; simpl; [reflexivity|].
  rewrite lstrip_snoc, IH.
  destruct (lstrip (Spec.string_rev s)) as [|y r] eqn:E; simpl.
  - destruct (is_space c); reflexivity.
  - rewrite string_rev_append. simpl.
    destruct (Spec.string_rev r +:+ String y "") eqn:E'; [|reflexivity].
    apply append_eq_nil in E'. destruct E' as [_ E']. discriminate.
Qed.

Lemma strip_trim (s : string) : strip s = Spec.trim s.
Proof. unfold strip, Spec.trim. apply rstrip_mirror. Qed.

(** The scanner of [re.sub] computes the collapse of whitespace runs. *)
Lemma sub_spaces_collapse (s : string) :
  sub_spaces_from false s = Spec.collapse s
  /\ forall c, is_space c = true ->
       String " " (sub_spaces_from true s) = Spec.collapse (String c s).
Proof.
  induction s as [|x s [IH1 IH2]].
  - split; [reflexivity|]. intros c Hc. simpl. now rewrite Hc.
  - split.
    + simpl sub_spaces_from. destruct (is_space x) eqn:Hx.
      * rewrite (IH2 x Hx). reflexivity.
      * simpl. now rewrite Hx, IH1.
    + intros c Hc. simpl sub_spaces_from.
      change (Spec.collapse (String c (String x s)))
        with (if is_space c
              then if is_space x then Spec.collapse (String x s)
                   else String " " (Spec.collapse (String x s))
              else String c (Spec.collapse (String x s))).
      rewrite Hc. destruct (is_space x) eqn:Hx.
      * exact (IH2 x Hx).
      * simpl. now rewrite Hx, IH1.
Qed.

Lemma re_sub_spaces_collapse (s : string) : re_sub_spaces s = Spec.collapse s.
Proof. apply sub_spaces_collapse. Qed.

(** A stripped string does not end with a whitespace character. *)
Lemma rstrip_last (s r : string) (c : ascii) :
  rstrip s = r +:+ String c "" -> is_space c = false.
Proof.
  revert r. induction s as [|x s IH]; intros r H; simpl in H.
  - destruct r; discriminate.
  - destruct (rstrip s) as [|y t] eqn:E.
    + destruct (is_space x) eqn:Hx.
      * destruct r; discriminate.
      * destruct r as [|z r]; simpl in H.
        -- now inversion H; subst.
        -- inversion H as [[Hz Hr]]. destruct r; discriminate.
    + destruct r as [|z r]; simpl in H; [discriminate|].
      inversion H as [[Hz Hr]]. eapply IH. exact Hr.
Qed.

Lemma strip_last (s r : string) (c : ascii) :
  strip s = r +:+ String c "" -> is_space c = false.
Proof. apply rstrip_last. Qed.

End Strings.

(** ** The formatter *)

Section Formatter.

Local Arguments String.append : simpl nomatch.

Lemma fold_left_append {A B} (f : A -> B) (l : list A) (acc : list B) :
  fold_left (fun acc x => (acc ++ [f x])%list) l acc = (acc ++ map f l)%list.
Proof.
  revert acc. induction l as [|x l IH]; intros acc; simpl.
  - now rewrite app_nil_r.
  - rewrite IH, <- app_assoc. reflexivity.
Qed.

Lemma timestamped_lines_map (entries : list TranscriptEntry) :
  timestamped_lines entries = map Spec.line entries.
Proof.
  unfold timestamped_lines.
  rewrite (fold_left_append
             (fun entry => "[" +:+ seconds_to_timestamp (start entry) +:+ "] "
                           +:+ strip (text entry))).
  simpl. apply map_ext. intros e. unfold Spec.line. now rewrite strip_trim.
Qed.

Lemma string_snoc_cases (s : string) :
  s = "" \/ exists r c, s = r +:+ String c "".
Proof.
  induction s as [|x s IH]; [now left | right].
  destruct IH as [-> | (r & c & ->)].
  - now exists "", x.
  - now exists (String x r), c.
Qed.

(** A rendered line ends with a character that is not a line feed. *)
Lemma line_last (e : TranscriptEntry) :
  exists r c, Spec.line e = r +:+ String c "" /\ c <> ascii_of_nat 10.
Proof.
  unfold Spec.line. rewrite <- strip_trim.
  destruct (string_snoc_cases (strip (text e))) as [E | (r & c & E)].
  - rewrite E. exists ("[" +:+ seconds_to_timestamp (start e) +:+ "]"), " "%char.
    split; [|discriminate].
    rewrite !append_assoc. reflexivity.
  - exists ("[" +:+ seconds_to_timestamp (start e) +:+ "] " +:+ r), c.
    split; [rewrite E; now rewrite !append_assoc|].
    intros ->. apply strip_last in E. discriminate.
Qed.

(** A joined text ends with its last part. *)
Lemma join_last (sep : string) (parts : list string) (p : string) :
  exists r, join sep (parts ++ [p])%list = r +:+ p.
Proof.
  induction parts as [|q parts [r IH]].
  - now exists "".
  - exists (q +:+ sep +:+ r). simpl app.
    change (join sep (q :: parts ++ [p])%list)
      with (match (parts ++ [p])%list with
            | [] => q
            | _ => q +:+ sep +:+ join sep (parts ++ [p])%list
            end).
    destruct (parts ++ [p])%list eqn:E.
    + destruct parts; discriminate.
    + rewrite IH. now rewrite !append_assoc.
Qed.

(** Joining the rendered lines by a line feed gives the text of the
    specification. *)
Lemma join_lines_timestamped (entries : list TranscriptEntry) :
  join (String (ascii_of_nat 10) "") (map Spec.line entries) = Spec.timestamped entries.
Proof.
  induction entries as [|e rest IH]; [reflexivity|].
  destruct rest as [|e' rest]; [reflexivity|].
  change (Spec.timestamped (e :: e' :: rest))
    with (Spec.line e +:+ Spec.newline +:+ Spec.timestamped (e' :: rest)).
  rewrite <- IH. reflexivity.
Qed.

Lemma timestamped_no_trailing_newline (entries : list TranscriptEntry) :
  ~ Spec.ends_with (Spec.timestamped entries) Spec.newline.
Proof.
  intros [s0 H]. rewrite <- join_lines_timestamped in H. unfold Spec.newline in H.
  destruct entries as [|e0 es].
  - simpl in H. symmetry in H. apply append_eq_nil in H.
    destruct H as [_ H]. discriminate.
  - destruct (@exists_last _ (e0 :: es)) as (front & e & E); [discriminate|].
    rewrite E, map_app in H. simpl map in H.
    destruct (join_last (String (ascii_of_nat 10) "") (map Spec.line front)
                        (Spec.line e)) as [r Hr].
    destruct (line_last e) as (r' & c & Hl & Hc).
    rewrite Hr, Hl, <- append_assoc in H.
    apply append_snoc_inj in H. destruct H as [_ ->]. now apply Hc.
Qed.

(** The text plain mode computes before any chunking. *)
Lemma plain_text_spec (entries : list TranscriptEntry) :
  strip (re_sub_spaces (join " " (map (fun entry => strip (text entry)) entries)))
  = Spec.plain entries.
Proof.
  unfold Spec.plain. rewrite strip_trim, re_sub_spaces_collapse.
  now rewrite (map_ext (fun entry => strip (text entry))
                       (fun e => Spec.trim (text e)))
    by (intros; apply strip_trim).
Qed.

Lemma format_transcript_plain (entries : list TranscriptEntry) (chunk_size : option Z) :
  chunk_size_truthy chunk_size = false ->
  format_transcript entries false chunk_size = Text (Spec.plain entries).
Proof.
  intros Hfalse. unfold format_transcript. rewrite plain_text_spec.
  destruct chunk_size as [size|]; [|reflexivity].
  now rewrite Hfalse.
Qed.

(** C5: in plain mode (no timestamps, no chunk size in force) the output
    is the entries' trimmed texts joined by one space, with every run of
    whitespace collapsed to one space, trimmed; the texts "  hello  " and
    "world\n" give "hello world". *)
Theorem plain_format_correct (entries : list TranscriptEntry) (chunk_size : option Z) :
  chunk_size_truthy chunk_size = false ->
  format_transcript entries false chunk_size = Text (Spec.plain entries)
  /\ format_transcript [Samples.hello; Samples.world] false chunk_size
     = Text "hello world".
Proof.
  intros Hfalse. split; [now apply format_transcript_plain|].
  rewrite format_transcript_plain by assumption. reflexivity.
Qed.

Lemma plain_format_correct_witness :
  chunk_size_truthy (Some 0) = false
  /\ format_transcript [Samples.hello; Samples.world] false (Some 0)
     = Text (Spec.plain [Samples.hello; Samples.world]).
Proof.
  split; [reflexivity|].
  apply (plain_format_correct [Samples.hello; Samples.world] (Some 0)).
  reflexivity.
Defined.

(** C6: in timestamped mode the output is, for each entry in order, the
    line "[T] text" with T the timestamp of the entry's start and text the
    trimmed text of the entry, every line but the last followed by one
    newline, and it does not end with a newline; the entries "  hello  " at
    0 seconds and "world\n" at 3661.5 seconds give the two lines
    "[00:00] hello" and "[01:01:01] world". *)
Theorem timestamped_format_correct (entries : list TranscriptEntry)
    (chunk_size : option Z) :
  format_transcript entries true chunk_size = Text (Spec.timestamped entries)
  /\ ~ Spec.ends_with (Spec.timestamped entries) Spec.newline
  /\ format_transcript [Samples.hello; Samples.world] true chunk_size
     = Text ("[00:00] hello" +:+ String (ascii_of_nat 10) "[01:01:01] world")
  /\ format_transcript [Samples.hello] true chunk_size = Text "[00:00] hello"
  /\ format_transcript [] true chunk_size = Text "".
Proof.
  assert (Hsize : forall es, format_transcript es true chunk_size
                             = format_transcript es true None).
  { intros es. unfold format_transcript.
    destruct chunk_size as [size|]; [|reflexivity]. now rewrite andb_false_r. }
  split; [|split; [apply timestamped_no_trailing_newline|]].
  - rewrite Hsize. unfold format_transcript.
    now rewrite timestamped_lines_map, join_lines_timestamped.
  - rewrite !Hsize. repeat split; vm_compute; reflexivity.
Qed.

End Formatter.

(** ** The provider's lookups *)

Section Lookups.

Lemma find_filter {A} (p q : A -> bool) (l : list A) :
  find p (List.filter q l) = find (fun x => q x && p x) l.
Proof.
  induction l as [|x l IH]; simpl; [reflexivity|].
  destruct (q x); simpl; [now rewrite IH | exact IH].
Qed.

Lemma find_first_with {A} (p : A -> bool) (l : list A) (x : A) :
  find p l = Some x <-> Spec.first_with (fun y => p y = true) l x.
Proof.
  split.
  - induction l as [|y l IH]; simpl; [discriminate|].
    destruct (p y) eqn:Hy.
    + intros [= ->]. exists [], l. now repeat split.
    + intros Hf. destruct (IH Hf) as (l1 & l2 & -> & Hx & Hl1).
      exists (y :: l1), l2. repeat split; [assumption|].
      constructor; [congruence | assumption].
  - intros (l1 & l2 & -> & Hx & Hl1).
    induction Hl1 as [|y l1 Hy _ IH]; simpl.
    + now rewrite Hx.
    + destruct (p y); [contradiction | exact IH].
Qed.

Lemma find_none_iff {A} (p : A -> bool) (l : list A) :
  find p l = None <-> forall x, In x l -> p x = false.
Proof.
  split.
  - intros Hf x Hx. now apply (find_none p l Hf).
  - induction l as [|y l IH]; intros Hall; simpl; [reflexivity|].
    rewrite (Hall y) by now left. apply IH. intros x Hx. apply Hall. now right.
Qed.

Lemma first_with_In {A} (P : A -> Prop) (l : list A) (x : A) :
  Spec.first_with P l x -> In x l /\ P x.
Proof.
  intros (l1 & l2 & -> & Hx & _). split; [|assumption].
  apply in_or_app. right. now left.
Qed.

Lemma first_with_ext {A} (P Q : A -> Prop) (l : list A) (x : A) :
  (forall y, P y <-> Q y) -> Spec.first_with P l x -> Spec.first_with Q l x.
Proof.
  intros HPQ (l1 & l2 & -> & Hx & Hl1). exists l1, l2.
  repeat split; [now apply HPQ|].
  eapply List.Forall_impl; [|exact Hl1]. intros y Hy HQ. now apply Hy, HPQ.
Qed.

Lemma manual_test_spec (lang : string) (t : Transcript) :
  Spec.manual_test lang t = true <-> Spec.manual_for lang t.
Proof.
  unfold Spec.manual_test, Spec.manual_for.
  rewrite andb_true_iff, negb_true_iff, String.eqb_eq. intuition congruence.
Qed.

Lemma generated_test_spec (lang : string) (t : Transcript) :
  Spec.generated_test lang t = true <-> Spec.generated_for lang t.
Proof.
  unfold Spec.generated_test, Spec.generated_for.
  rewrite andb_true_iff, String.eqb_eq. intuition congruence.
Qed.

Lemma find_manually_created_transcript_one (catalog : TranscriptList) (lang : string) :
  find_manually_created_transcript catalog [lang]
  = match find (Spec.manual_test lang) catalog with
    | Some t => ret t
    | None => raise (NoTranscriptFound [lang])
    end.
Proof.
  unfold find_manually_created_transcript, manually_created. simpl.
  rewrite find_filter. fold (Spec.manual_test lang).
  now destruct (find (Spec.manual_test lang) catalog).
Qed.

Lemma find_generated_transcript_one (catalog : TranscriptList) (lang : string) :
  find_generated_transcript catalog [lang]
  = match find (Spec.generated_test lang) catalog with
    | Some t => ret t
    | None => raise (NoTranscriptFound [lang])
    end.
Proof.
  unfold find_generated_transcript, generated. simpl.
  rewrite find_filter. fold (Spec.generated_test lang).
  now destruct (find (Spec.generated_test lang) catalog).
Qed.

(** A manually created track is found exactly when it is the first manual
    track of the catalog with the requested code. *)
Lemma find_manually_created_transcript_found catalog lang t :
  find_manually_created_transcript catalog [lang] = inr t
  <-> Spec.first_with (Spec.manual_for lang) catalog t.
Proof.
  rewrite find_manually_created_transcript_one. split.
  - destruct (find (Spec.manual_test lang) catalog) as [t'|] eqn:E; [|discriminate].
    intros [= <-]. apply find_first_with in E.
    eapply first_with_ext; [|exact E]. apply manual_test_spec.
  - intros Hf.
    assert (E : find (Spec.manual_test lang) catalog = Some t).
    { apply find_first_with. eapply first_with_ext; [|exact Hf].
      intros y. symmetry. apply manual_test_spec. }
    now rewrite E.
Qed.

Lemma find_manually_created_transcript_missing catalog lang :
  ~ Spec.has_manual catalog lang ->
  find_manually_created_transcript catalog [lang] = inl (NoTranscriptFound [lang]).
Proof.
  intros Hno. rewrite find_manually_created_transcript_one.
  destruct (find (Spec.manual_test lang) catalog) as [t|] eqn:E; [|reflexivity].
  exfalso. apply Hno. apply find_some in E. destruct E as [Hin Ht].
  exists t. split; [assumption | now apply manual_test_spec].
Qed.

Lemma find_generated_transcript_found catalog lang t :
  find_generated_transcript catalog [lang] = inr t
  <-> Spec.first_with (Spec.generated_for lang) catalog t.
Proof.
  rewrite find_generated_transcript_one. split.
  - destruct (find (Spec.generated_test lang) catalog) as [t'|] eqn:E; [|discriminate].
    intros [= <-]. apply find_first_with in E.
    eapply first_with_ext; [|exact E]. apply generated_test_spec.
  - intros Hf.
    assert (E : find (Spec.generated_test lang) catalog = Some t).
    { apply find_first_with. eapply first_with_ext; [|exact Hf].
      intros y. symmetry. apply generated_test_spec. }
    now rewrite E.
Qed.

Lemma find_generated_transcript_missing catalog lang :
  ~ Spec.has_generated catalog lang ->
  find_generated_transcript catalog [lang] = inl (NoTranscriptFound [lang]).
Proof.
  intros Hno. rewrite find_generated_transcript_one.
  destruct (find (Spec.generated_test lang) catalog) as [t|] eqn:E; [|reflexivity].
  exfalso. apply Hno. apply find_some in E. destruct E as [Hin Ht].
  exists t. split; [assumption | now apply generated_test_spec].
Qed.

Lemma find_in_groups_In matches code groups t :
  find_in_groups matches code groups = Some t ->
  exists g, In g groups /\ In t g.
Proof.
  induction groups as [|g groups IH]; simpl; [discriminate|].
  destruct (find _ g) as [t'|] eqn:E.
  - intros [= <-]. exists g. split; [now left|]. now apply find_some in E.
  - intros Hf. destruct (IH Hf) as (g' & Hg' & Ht). exists g'. split; [now right | assumption].
Qed.

Lemma find_by_codes_In matches codes groups requested t :
  find_by_codes matches codes groups requested = inr t ->
  exists g, In g groups /\ In t g.
Proof.
  induction codes as [|code codes IH]; simpl; [discriminate|].
  destruct (find_in_groups matches code groups) as [t'|] eqn:E.
  - intros [= <-]. eapply find_in_groups_In. exact E.
  - exact IH.
Qed.

(** Whatever the provider's matching rule, [find_transcript] answers with a
    track of the catalog. *)
Lemma find_transcript_In `{Provider} catalog codes t :
  find_transcript catalog codes = inr t -> In t catalog.
Proof.
  unfold find_transcript. intros Hf.
  apply find_by_codes_In in Hf. destruct Hf as (g & Hg & Ht).
  destruct Hg as [<- | [<- | []]]; unfold manually_created, generated in Ht;
    apply filter_In in Ht; tauto.
Qed.

End Lookups.

(** ** The selection cascade *)

Section Cascade.

Context `{provider : Provider}.

Lemma each_from_app {A} (P : nat -> A -> Prop) (k : nat) (xs ys : list A) :
  Spec.each_from P k (xs ++ ys)
  <-> Spec.each_from P k xs /\ Spec.each_from P (k + List.length xs) ys.
Proof.
  revert k. induction xs as [|x xs IH]; intros k; simpl.
  - rewrite Nat.add_0_r. tauto.
  - rewrite IH. replace (S k + List.length xs)%nat with (k + S (List.length xs))%nat by lia.
    tauto.
Qed.

Lemma each_from_impl {A} (P Q : nat -> A -> Prop) (k : nat) (xs : list A) :
  (forall j x, P j x -> Q j x) -> Spec.each_from P k xs -> Spec.each_from Q k xs.
Proof.
  intros HPQ. revert k. induction xs as [|x xs IH]; intros k; simpl; [auto|].
  intros [Hx Hxs]. split; [now apply HPQ | now apply IH].
Qed.

Lemma each_from_Forall {A} (P : A -> Prop) (k : nat) (xs : list A) :
  Spec.each_from (fun _ x => P x) k xs <-> Forall P xs.
Proof.
  revert k. induction xs as [|x xs IH]; intros k; simpl.
  - split; [constructor | auto].
  - rewrite IH. split.
    + intros [Hx Hxs]. now constructor.
    + intros H. inversion H. now split.
Qed.

Lemma for_try_return_skip {A B} (body : nat -> A -> result B) (k : nat)
    (pre rest : list A) :
  Spec.fails_from body k pre ->
  for_try_return body k (pre ++ rest)
  = for_try_return body (k + List.length pre) rest.
Proof.
  revert k. induction pre as [|x pre IH]; intros k; simpl.
  - intros _. now rewrite Nat.add_0_r.
  - intros [[e Hx] Hpre]. rewrite Hx, (IH (S k) Hpre).
    f_equal. lia.
Qed.

Lemma for_try_return_None {A B} (body : nat -> A -> result B) (k : nat) (xs : list A) :
  for_try_return body k xs = None <-> Spec.fails_from body k xs.
Proof.
  split.
  - revert k. induction xs as [|x xs IH]; intros k; simpl; [constructor|].
    destruct (body k x) as [e|b] eqn:Hx; [|discriminate].
    intros Hn. split; [now exists e | now apply IH].
  - intros Hall. rewrite <- (app_nil_r xs). now rewrite for_try_return_skip.
Qed.

Lemma for_try_return_Some {A B} (body : nat -> A -> result B) (k : nat) (xs : list A)
    (b : B) :
  for_try_return body k xs = Some b <->
  exists pre x post, xs = (pre ++ x :: post)%list
                     /\ Spec.fails_from body k pre
                     /\ body (k + List.length pre)%nat x = inr b.
Proof.
  split.
  - revert k. induction xs as [|x xs IH]; intros k; simpl; [discriminate|].
    destruct (body k x) as [e|b'] eqn:Hx.
    + intros Hs. destruct (IH _ Hs) as (pre & y & post & -> & Hpre & Hy).
      exists (x :: pre), y, post. repeat split; [now exists e | assumption |].
      simpl. now replace (k + S (List.length pre))%nat with (S k + List.length pre)%nat by lia.
    + intros [= ->]. exists [], x, xs. repeat split. simpl. now rewrite Nat.add_0_r.
  - intros (pre & x & post & -> & Hpre & Hx).
    rewrite for_try_return_skip by assumption. simpl. now rewrite Hx.
Qed.

Lemma try_manual_inr catalog k lang r :
  try_manual catalog k lang = inr r <->
  exists t data, Spec.first_with (Spec.manual_for lang) catalog t
                 /\ fetch t k = inr data /\ r = (data, lang, "manual").
Proof.
  unfold try_manual, bind, ret. split.
  - destruct (find_manually_created_transcript catalog [lang]) as [e|t] eqn:E;
      [discriminate|].
    destruct (fetch t k) as [e|data] eqn:F; [discriminate|].
    intros [= <-]. exists t, data.
    split; [now apply find_manually_created_transcript_found | auto].
  - intros (t & data & Ht & F & ->).
    apply find_manually_created_transcript_found in Ht. now rewrite Ht, F.
Qed.

Lemma try_generated_inr catalog k lang r :
  try_generated catalog k lang = inr r <->
  exists t data, Spec.first_with (Spec.generated_for lang) catalog t
                 /\ fetch t k = inr data /\ r = (data, lang, "auto-generated").
Proof.
  unfold try_generated, bind, ret. split.
  - destruct (find_generated_transcript catalog [lang]) as [e|t] eqn:E;
      [discriminate|].
    destruct (fetch t k) as [e|data] eqn:F; [discriminate|].
    intros [= <-]. exists t, data.
    split; [now apply find_generated_transcript_found | auto].
  - intros (t & data & Ht & F & ->).
    apply find_generated_transcript_found in Ht. now rewrite Ht, F.
Qed.

Lemma try_fallback_inr catalog k r :
  try_fallback catalog k = inr r <->
  exists t data, find_transcript catalog ["en"] = inr t
                 /\ fetch t k = inr data /\ r = (data, "en", "fallback").
Proof.
  unfold try_fallback, bind, ret. split.
  - destruct (find_transcript catalog ["en"]) as [e|t] eqn:E; [discriminate|].
    destruct (fetch t k) as [e|data] eqn:F; [discriminate|].
    intros [= <-]. now exists t, data.
  - intros (t & data & Ht & F & ->). now rewrite Ht, F.
Qed.

Lemma first_available_inr catalog k r :
  first_available catalog k = inr r <->
  exists t rest data, catalog = t :: rest /\ fetch t k = inr data
                      /\ r = (data, language_code t, "available").
Proof.
  unfold first_available, bind, ret. split.
  - destruct catalog as [|t rest]; [discriminate|].
    destruct (fetch t k) as [e|data] eqn:F; [discriminate|].
    intros [= <-]. now exists t, rest, data.
  - intros (t & rest & data & -> & F & ->). now rewrite F.
Qed.

(** A request for a language the catalog has no manual (generated) track
    for is answered by the provider's "not found". *)
Lemma try_manual_missing catalog k lang :
  ~ Spec.has_manual catalog lang ->
  try_manual catalog k lang = inl (NoTranscriptFound [lang]).
Proof.
  intros Hno. unfold try_manual.
  now rewrite find_manually_created_transcript_missing.
Qed.

Lemma try_generated_missing catalog k lang :
  ~ Spec.has_generated catalog lang ->
  try_generated catalog k lang = inl (NoTranscriptFound [lang]).
Proof.
  intros Hno. unfold try_generated.
  now rewrite find_generated_transcript_missing.
Qed.

Lemma manual_all_missing catalog k languages :
  Forall (fun l => ~ Spec.has_manual catalog l) languages ->
  Spec.fails_from (try_manual catalog) k languages.
Proof.
  intros Hall. apply (each_from_Forall _ k) in Hall.
  eapply each_from_impl; [|exact Hall].
  intros j l Hl. eexists. now apply try_manual_missing.
Qed.

Lemma generated_all_missing catalog k languages :
  Forall (fun l => ~ Spec.has_generated catalog l) languages ->
  Spec.fails_from (try_generated catalog) k languages.
Proof.
  intros Hall. apply (each_from_Forall _ k) in Hall.
  eapply each_from_impl; [|exact Hall].
  intros j l Hl. eexists. now apply try_generated_missing.
Qed.

(** An attempt raises exactly when nothing is delivered in it. *)
Lemma try_manual_fails_iff catalog k lang :
  Spec.fails (try_manual catalog k) lang <-> Spec.manual_misses catalog k lang.
Proof.
  split.
  - intros [e He] t data [Ht F].
    assert (E : try_manual catalog k lang = inr (data, lang, "manual"))
      by (apply try_manual_inr; now exists t, data).
    congruence.
  - intros Hmiss. destruct (try_manual catalog k lang) as [e|r] eqn:E; [now exists e|].
    apply try_manual_inr in E. destruct E as (t & data & Ht & F & _).
    exfalso. now apply (Hmiss t data).
Qed.

Lemma try_generated_fails_iff catalog k lang :
  Spec.fails (try_generated catalog k) lang <-> Spec.generated_misses catalog k lang.
Proof.
  split.
  - intros [e He] t data [Ht F].
    assert (E : try_generated catalog k lang = inr (data, lang, "auto-generated"))
      by (apply try_generated_inr; now exists t, data).
    congruence.
  - intros Hmiss. destruct (try_generated catalog k lang) as [e|r] eqn:E; [now exists e|].
    apply try_generated_inr in E. destruct E as (t & data & Ht & F & _).
    exfalso. now apply (Hmiss t data).
Qed.

Lemma manual_fails_from_iff catalog k languages :
  Spec.fails_from (try_manual catalog) k languages
  <-> Spec.each_from (Spec.manual_misses catalog) k languages.
Proof.
  unfold Spec.fails_from.
  split; apply each_from_impl; intros j l; apply try_manual_fails_iff.
Qed.

Lemma generated_fails_from_iff catalog k languages :
  Spec.fails_from (try_generated catalog) k languages
  <-> Spec.each_from (Spec.generated_misses catalog) k languages.
Proof.
  unfold Spec.fails_from.
  split; apply each_from_impl; intros j l; apply try_generated_fails_iff.
Qed.

Lemma try_fallback_fails_iff catalog k :
  (exists e, try_fallback catalog k = inl e)
  <-> (forall t, find_transcript catalog ["en"] = inr t -> exists e, fetch t k = inl e).
Proof.
  unfold try_fallback, bind, ret. split.
  - intros [e He] t Ht. rewrite Ht in He.
    destruct (fetch t k) as [e'|data]; [now exists e' | discriminate].
  - intros Hall. destruct (find_transcript catalog ["en"]) as [e|t]; [now exists e|].
    destruct (Hall t eq_refl) as [e He]. rewrite He. now exists e.
Qed.

(** *** The four ways [select_transcript] returns *)

Lemma select_manual catalog pre lang post r :
  Spec.fails_from (try_manual catalog) 0 pre ->
  try_manual catalog (List.length pre) lang = inr r ->
  select_transcript catalog (pre ++ lang :: post) = inr r.
Proof.
  intros Hpre Hr. unfold select_transcript.
  assert (E : for_try_return (try_manual catalog) 0 (pre ++ lang :: post) = Some r).
  { apply for_try_return_Some. now exists pre, lang, post. }
  now rewrite E.
Qed.

Lemma select_generated catalog languages pre lang post r :
  Spec.fails_from (try_manual catalog) 0 languages ->
  languages = (pre ++ lang :: post)%list ->
  Spec.fails_from (try_generated catalog) (List.length languages) pre ->
  try_generated catalog (List.length languages + List.length pre) lang = inr r ->
  select_transcript catalog languages = inr r.
Proof.
  intros Hman Hl Hpre Hr. unfold select_transcript.
  apply for_try_return_None in Hman. rewrite Hman.
  assert (E : for_try_return (try_generated catalog) (List.length languages) languages
              = Some r).
  { apply for_try_return_Some. exists pre, lang, post. now rewrite <- Hl. }
  now rewrite E.
Qed.

Lemma select_after_scans catalog languages :
  Spec.fails_from (try_manual catalog) 0 languages ->
  Spec.fails_from (try_generated catalog) (List.length languages) languages ->
  select_transcript catalog languages
  = try_except (try_fallback catalog (2 * List.length languages))
               (fun _ => first_available catalog (2 * List.length languages + 1)).
Proof.
  intros Hman Hgen. unfold select_transcript.
  apply for_try_return_None in Hman. apply for_try_return_None in Hgen.
  now rewrite Hman, Hgen.
Qed.

(** Every outcome of [select_transcript] is the outcome of one of the four
    steps, reached after all earlier attempts raised. *)
Lemma select_transcript_cases catalog languages :
  let n := List.length languages in
  (exists pre lang post r,
      languages = (pre ++ lang :: post)%list
      /\ Spec.fails_from (try_manual catalog) 0 pre
      /\ try_manual catalog (List.length pre) lang = inr r
      /\ select_transcript catalog languages = inr r)
  \/ (Spec.fails_from (try_manual catalog) 0 languages
      /\ ((exists pre lang post r,
             languages = (pre ++ lang :: post)%list
             /\ Spec.fails_from (try_generated catalog) n pre
             /\ try_generated catalog (n + List.length pre) lang = inr r
             /\ select_transcript catalog languages = inr r)
          \/ (Spec.fails_from (try_generated catalog) n languages
              /\ ((exists r, try_fallback catalog (2 * n) = inr r
                             /\ select_transcript catalog languages = inr r)
                  \/ ((exists e, try_fallback catalog (2 * n) = inl e)
                      /\ select_transcript catalog languages
                         = first_available catalog (2 * n + 1)))))).
Proof.
  intros n. unfold select_transcript. fold n.
  destruct (for_try_return (try_manual catalog) 0 languages) as [r|] eqn:Em.
  { left. apply for_try_return_Some in Em.
    destruct Em as (pre & lang & post & -> & Hpre & Hr).
    now exists pre, lang, post, r. }
  right. apply for_try_return_None in Em. split; [assumption|].
  destruct (for_try_return (try_generated catalog) n languages) as [r|] eqn:Eg.
  { left. apply for_try_return_Some in Eg.
    destruct Eg as (pre & lang & post & Hl & Hpre & Hr).
    now exists pre, lang, post, r. }
  right. apply for_try_return_None in Eg. split; [assumption|].
  destruct (try_fallback catalog (2 * n)) as [e|r] eqn:Ef.
  - right. split; [now exists e | reflexivity].
  - left. now exists r.
Qed.

(** [get_transcript] wraps whatever the cascade raises. *)
Lemma get_transcript_listed video_id catalog languages :
  list_transcripts video_id = inr catalog ->
  get_transcript video_id languages
  = match select_transcript catalog languages with
    | inr r => inr r
    | inl e => inl (Exception ("Error fetching transcript: " +:+ exn_str e))
    end.
Proof.
  intros Hl. unfold get_transcript, bind, try_except, raise. now rewrite Hl.
Qed.

(** What the cascade returns, rule by rule. *)
Lemma select_transcript_selects catalog languages data lang tag :
  select_transcript catalog languages = inr (data, lang, tag)
  <-> exists t, Spec.selects catalog languages t data lang tag.
Proof.
  split.
  - intros Hsel.
    destruct (select_transcript_cases catalog languages)
      as [(pre & l & post & r & Hl & Hpre & Hr & Hs)
         | (Hman & [(pre & l & post & r & Hl & Hpre & Hr & Hs)
         | (Hgen & [(r & Hr & Hs) | (Hfb & Hs)])])];
      rewrite Hs in Hsel.
    + apply try_manual_inr in Hr. destruct Hr as (t & d & Ht & F & ->).
      injection Hsel as -> -> <-. exists t.
      apply (Spec.selects_manual catalog languages pre lang post t data);
        [assumption | now apply manual_fails_from_iff | now split].
    + apply try_generated_inr in Hr. destruct Hr as (t & d & Ht & F & ->).
      injection Hsel as -> -> <-. exists t.
      apply (Spec.selects_generated catalog languages pre lang post t data);
        [now apply manual_fails_from_iff | assumption
        | now apply generated_fails_from_iff | now split].
    + apply try_fallback_inr in Hr. destruct Hr as (t & d & Ht & F & ->).
      injection Hsel as -> <- <-. exists t.
      apply Spec.selects_fallback;
        [now apply manual_fails_from_iff | now apply generated_fails_from_iff
        | assumption | assumption].
    + apply first_available_inr in Hsel. destruct Hsel as (t & rest & d & Hc & F & Hr).
      injection Hr as -> -> ->. exists t.
      apply (Spec.selects_available catalog languages t rest d);
        [now apply manual_fails_from_iff | now apply generated_fails_from_iff
        | now apply try_fallback_fails_iff | assumption | assumption].
  - intros [t Hsel].
    destruct Hsel as [pre lang post t data Hl Hpre [Ht F]
                     | pre lang post t data Hman Hl Hpre [Ht F]
                     | t data Hman Hgen Ht F
                     | t rest data Hman Hgen Hfb Hc F].
    + rewrite Hl. apply select_manual; [now apply manual_fails_from_iff|].
      apply try_manual_inr. now exists t, data.
    + apply (select_generated catalog languages pre lang post);
        [now apply manual_fails_from_iff | assumption
        | now apply generated_fails_from_iff |].
      apply try_generated_inr. now exists t, data.
    + rewrite select_after_scans
        by (now apply manual_fails_from_iff || now apply generated_fails_from_iff).
      assert (E : try_fallback catalog (2 * List.length languages)
                  = inr (data, "en", "fallback"))
        by (apply try_fallback_inr; now exists t, data).
      now rewrite E.
    + rewrite select_after_scans
        by (now apply manual_fails_from_iff || now apply generated_fails_from_iff).
      apply try_fallback_fails_iff in Hfb. destruct Hfb as [e He]. rewrite He.
      simpl. apply first_available_inr. now exists t, rest, data.
Qed.

End Cascade.

(** ** The cascade as the specification states it *)

Section CascadeClaims.

Context `{provider : Provider}.

Lemma misses_of_missing_manual catalog k languages :
  Forall (fun l => ~ Spec.has_manual catalog l) languages ->
  Spec.each_from (Spec.manual_misses catalog) k languages.
Proof.
  intros Hall. apply manual_fails_from_iff. now apply manual_all_missing.
Qed.

Lemma misses_of_missing_generated catalog k languages :
  Forall (fun l => ~ Spec.has_generated catalog l) languages ->
  Spec.each_from (Spec.generated_misses catalog) k languages.
Proof.
  intros Hall. apply generated_fails_from_iff. now apply generated_all_missing.
Qed.

(** C1, as the code has it: the cascade picks by strict priority among the
    tracks it can fetch.  Scanning the preference list in order, the first
    manually created track whose code equals the entry and whose fetch
    succeeds wins (tag manual); only when that gives nothing for the whole
    list, the first auto-generated track whose code equals an entry and
    whose fetch succeeds (tag auto-generated); only then the
    English-equivalent fallback (tag fallback); only then the first track of
    the catalog (tag available).  A track whose fetch fails is passed over
    like a track that is missing.  The result is the one of the rule that
    applies, and every result comes from such a rule.  With preference en,
    es, no manual en track and a manual es track that can be fetched, the
    manual es track is selected, whatever generated tracks exist; and when
    every fetch succeeds the rules are the ones of the specification. *)
Theorem selection_cascade_priority (video_id : string) (catalog : TranscriptList)
    (languages : list string) :
  list_transcripts video_id = inr catalog ->
  (forall data lang tag,
      get_transcript video_id languages = inr (data, lang, tag)
      <-> exists t, Spec.selects catalog languages t data lang tag)
  /\ (forall t data,
        languages = ["en"; "es"] ->
        ~ Spec.has_manual catalog "en" ->
        Spec.first_with (Spec.manual_for "es") catalog t ->
        fetch t 1 = inr data ->
        get_transcript video_id languages = inr (data, "es", "manual"))
  /\ (Spec.always_fetchable catalog ->
      forall t lang tag,
        Spec.cascade catalog languages t lang tag ->
        exists data k,
          fetch t k = inr data
          /\ get_transcript video_id languages = inr (data, lang, tag)).
Proof.
  intros Hlist.
  assert (Hiff : forall data lang tag,
             get_transcript video_id languages = inr (data, lang, tag)
             <-> exists t, Spec.selects catalog languages t data lang tag).
  { intros data lang tag. rewrite (get_transcript_listed _ _ _ Hlist).
    rewrite <- select_transcript_selects.
    destruct (select_transcript catalog languages) as [e|r]; [|reflexivity].
    split; discriminate. }
  split; [exact Hiff|]. split.
  - intros t data -> Hen Hes F. apply Hiff. exists t.
    apply (Spec.selects_manual catalog ["en"; "es"] ["en"] "es" [] t data);
      [reflexivity | | now split].
    apply (misses_of_missing_manual catalog 0 ["en"]). now constructor.
  - intros Hfetch t lang tag Hc.
    destruct Hc as [pre lang post t Hl Hpre Ht
                   | pre lang post t Hman Hl Hpre Ht
                   | t Hman Hgen Ht
                   | t rest e Hman Hgen Ht Hcat].
    + destruct (Hfetch t (List.length pre) (proj1 (first_with_In _ _ _ Ht))) as [data F].
      exists data, (List.length pre). split; [exact F|]. apply Hiff. exists t.
      apply (Spec.selects_manual catalog languages pre lang post t data);
        [assumption | now apply misses_of_missing_manual | now split].
    + destruct (Hfetch t (List.length languages + List.length pre)%nat
                  (proj1 (first_with_In _ _ _ Ht))) as [data F].
      exists data, (List.length languages + List.length pre)%nat.
      split; [exact F|]. apply Hiff. exists t.
      apply (Spec.selects_generated catalog languages pre lang post t data);
        [now apply misses_of_missing_manual | assumption
        | now apply misses_of_missing_generated | now split].
    + destruct (Hfetch t (2 * List.length languages)%nat (find_transcript_In _ _ _ Ht))
        as [data F].
      exists data, (2 * List.length languages)%nat.
      split; [exact F|]. apply Hiff. exists t.
      apply Spec.selects_fallback;
        [now apply misses_of_missing_manual | now apply misses_of_missing_generated
        | assumption | assumption].
    + destruct (Hfetch t (2 * List.length languages + 1)%nat) as [data F];
        [rewrite Hcat; now left|].
      exists data, (2 * List.length languages + 1)%nat.
      split; [exact F|]. apply Hiff. exists t.
      apply (Spec.selects_available catalog languages t rest data);
        [now apply misses_of_missing_manual | now apply misses_of_missing_generated
        | | assumption | assumption].
      intros t' Ht'. congruence.
Qed.

(** C2, as the code has it: with an empty catalog the cascade fails with
    the "no transcripts available" error.  With a non-empty catalog it
    returns the entries of one of the catalog's tracks whenever the first
    track can be fetched in the last attempt, and when it fails the error is
    the one of that fetch: the other tracks are not tried in the last
    step. *)
Theorem empty_catalog_exhausts (video_id : string) (catalog : TranscriptList)
    (languages : list string) :
  list_transcripts video_id = inr catalog ->
  (catalog = [] ->
   get_transcript video_id languages
   = inl (Exception "Error fetching transcript: No transcripts available"))
  /\ (forall t rest data,
        catalog = t :: rest ->
        fetch t (2 * List.length languages + 1) = inr data ->
        exists t' k data' lang tag,
          In t' catalog /\ fetch t' k = inr data'
          /\ get_transcript video_id languages = inr (data', lang, tag))
  /\ (forall t rest err,
        catalog = t :: rest ->
        get_transcript video_id languages = inl err ->
        exists e, fetch t (2 * List.length languages + 1) = inl e
                  /\ err = Exception ("Error fetching transcript: " +:+ exn_str e))
  /\ (forall data lang tag,
        get_transcript video_id languages = inr (data, lang, tag) ->
        exists t k, In t catalog /\ fetch t k = inr data).
Proof.
  intros Hlist. rewrite (get_transcript_listed _ _ _ Hlist).
  assert (Hreturned : forall data lang tag,
             select_transcript catalog languages = inr (data, lang, tag) ->
             exists t k, In t catalog /\ fetch t k = inr data).
  { intros data lang tag Hsel. apply select_transcript_selects in Hsel.
    destruct Hsel as [t Hsel].
    destruct Hsel as [pre l post t data _ _ [Ht F]
                     | pre l post t data _ _ _ [Ht F]
                     | t data _ _ Ht F
                     | t rest data _ _ _ Hc F].
    - exists t, (List.length pre). split; [now apply first_with_In in Ht | assumption].
    - exists t, (List.length languages + List.length pre)%nat.
      split; [now apply first_with_In in Ht | assumption].
    - exists t, (2 * List.length languages)%nat.
      split; [now apply find_transcript_In in Ht | assumption].
    - exists t, (2 * List.length languages + 1)%nat.
      split; [rewrite Hc; now left | assumption]. }
  split; [|split; [|split]].
  - intros ->. rewrite select_after_scans.
    + reflexivity.
    + apply manual_all_missing, List.Forall_forall. intros l _ (t & [] & _).
    + apply generated_all_missing, List.Forall_forall. intros l _ (t & [] & _).
  - intros t rest data Hc F.
    destruct (select_transcript catalog languages) as [e|[[data' lang] tag]] eqn:Hsel.
    + exfalso.
      destruct (select_transcript_cases catalog languages)
        as [(pre & l & post & r & _ & _ & _ & Hs)
           | (_ & [(pre & l & post & r & _ & _ & _ & Hs)
           | (_ & [(r & _ & Hs) | (_ & Hs)])])];
        rewrite Hs in Hsel; try discriminate.
      rewrite Hc in Hsel. unfold first_available, bind in Hsel.
      rewrite F in Hsel. discriminate.
    + destruct (Hreturned data' lang tag eq_refl) as (t' & k & Hin & F').
      now exists t', k, data', lang, tag.
  - intros t rest err Hc Herr.
    destruct (select_transcript_cases catalog languages)
      as [(pre & l & post & r & _ & _ & _ & Hs)
         | (_ & [(pre & l & post & r & _ & _ & _ & Hs)
         | (_ & [(r & _ & Hs) | (_ & Hs)])])];
      rewrite Hs in Herr; try discriminate.
    rewrite Hc in Herr. unfold first_available, bind in Herr.
    destruct (fetch t (2 * List.length languages + 1)) as [e|data]; [|discriminate].
    exists e. split; [reflexivity|]. now injection Herr as <-.
  - intros data lang tag Hget.
    destruct (select_transcript catalog languages) as [e|r] eqn:Hsel; [discriminate|].
    injection Hget as ->. now apply (Hreturned data lang tag).
Qed.

(** C3: an attempt of steps 1 to 3 that raises (the provider's "not found",
    or a failed fetch) only moves the cascade on: the scan continues with
    the next preference entry, a later successful attempt is returned as if
    the failed ones had not been made, and an error that leaves the cascade
    is always the error of step 4, never the one of an attempt. *)
Theorem attempt_failures_are_skipped (video_id : string) (catalog : TranscriptList)
    (languages : list string) :
  list_transcripts video_id = inr catalog ->
  let n := List.length languages in
  (forall pre lang post r,
      languages = (pre ++ lang :: post)%list ->
      Spec.fails_from (try_manual catalog) 0 pre ->
      try_manual catalog (List.length pre) lang = inr r ->
      get_transcript video_id languages = inr r)
  /\ (forall pre lang post r,
        Spec.fails_from (try_manual catalog) 0 languages ->
        languages = (pre ++ lang :: post)%list ->
        Spec.fails_from (try_generated catalog) n pre ->
        try_generated catalog (n + List.length pre) lang = inr r ->
        get_transcript video_id languages = inr r)
  /\ (forall r,
        Spec.fails_from (try_manual catalog) 0 languages ->
        Spec.fails_from (try_generated catalog) n languages ->
        try_fallback catalog (2 * n) = inr r ->
        get_transcript video_id languages = inr r)
  /\ (forall r,
        Spec.fails_from (try_manual catalog) 0 languages ->
        Spec.fails_from (try_generated catalog) n languages ->
        (exists e, try_fallback catalog (2 * n) = inl e) ->
        first_available catalog (2 * n + 1) = inr r ->
        get_transcript video_id languages = inr r)
  /\ (forall err,
        get_transcript video_id languages = inl err ->
        exists e, first_available catalog (2 * n + 1) = inl e
                  /\ err = Exception ("Error fetching transcript: " +:+ exn_str e)
                  /\ Spec.fails_from (try_manual catalog) 0 languages
                  /\ Spec.fails_from (try_generated catalog) n languages
                  /\ exists e', try_fallback catalog (2 * n) = inl e').
Proof.
  intros Hlist n. rewrite (get_transcript_listed _ _ _ Hlist).
  split; [|split; [|split; [|split]]].
  - intros pre lang post r -> Hpre Hr.
    now rewrite (select_manual catalog pre lang post r).
  - intros pre lang post r Hman Hl Hpre Hr.
    now rewrite (select_generated catalog languages pre lang post r).
  - intros r Hman Hgen Hr. rewrite select_after_scans by assumption.
    fold n. now rewrite Hr.
  - intros r Hman Hgen [e He] Hr. rewrite select_after_scans by assumption.
    fold n. rewrite He. cbn [try_except]. now rewrite Hr.
  - intros err Herr.
    destruct (select_transcript_cases catalog languages)
      as [(pre & lang & post & r & _ & _ & _ & Hs)
         | (Hman & [(pre & lang & post & r & _ & _ & _ & Hs)
         | (Hgen & [(r & _ & Hs) | ((e & He) & Hs)])])];
      rewrite Hs in Herr; try discriminate.
    fold n in Herr.
    destruct (first_available catalog (2 * n + 1)) as [e'|r] eqn:Ha; [|discriminate].
    exists e'. injection Herr as <-. repeat split; try assumption. now exists e.
Qed.


End CascadeClaims.

(** *** The cascade on the sample catalogs *)

Lemma selection_cascade_priority_witness :
  let provider := Samples.serving Samples.exact_match
                    [Samples.generated_en; Samples.manual_es] in
  list_transcripts Samples.video = inr [Samples.generated_en; Samples.manual_es]
  /\ get_transcript Samples.video ["en"; "es"]
     = inr ([Samples.hello; Samples.world], "es", "manual").
Proof.
  intros provider. split; [reflexivity|].
  apply (proj1 (proj2 (@selection_cascade_priority provider Samples.video
                  [Samples.generated_en; Samples.manual_es] ["en"; "es"]
                  eq_refl)) Samples.manual_es).
  - reflexivity.
  - intros (t & Hin & Hman & Hcode).
    destruct Hin as [<- | [<- | []]]; discriminate.
  - exists [Samples.generated_en], []. split; [reflexivity|].
    split; [split; reflexivity|].
    constructor; [|constructor]. intros [Hman _]. discriminate.
  - reflexivity.
Defined.

(** C1 as stated fails: the catalog has a manual track for the first
    preference, so that the first rule of the specification selects it with
    the tag manual; its fetch fails, the code passes it over and returns the
    generated track of the second preference.  In the same way the manual
    es track of the specification's example loses against the generated en
    track when its fetch fails. *)
Lemma cascade_passes_over_failed_fetch :
  let catalog := [Samples.broken_de; Samples.generated_fr] in
  let provider := Samples.serving Samples.exact_match catalog in
  let broken_es :=
    mkTranscript "Spanish" "es" false
      (fun _ => raise (ProviderError "Could not retrieve a transcript")) in
  Spec.cascade catalog ["de"; "fr"] Samples.broken_de "de" "manual"
  /\ get_transcript Samples.video ["de"; "fr"]
     = inr ([Samples.world], "fr", "auto-generated")
  /\ (forall data, get_transcript Samples.video ["de"; "fr"] <> inr (data, "de", "manual"))
  /\ @get_transcript (Samples.serving Samples.exact_match [Samples.generated_en; broken_es])
       Samples.video ["en"; "es"]
     = inr ([Samples.hello], "en", "auto-generated").
Proof.
  intros catalog provider broken_es. split; [|split; [|split]].
  - apply (Spec.cascade_manual catalog ["de"; "fr"] [] "de" ["fr"] Samples.broken_de);
      [reflexivity | constructor |].
    exists [], [Samples.generated_fr]. repeat split. constructor.
  - reflexivity.
  - intros data. vm_compute. discriminate.
  - reflexivity.
Qed.

Lemma empty_catalog_exhausts_witness :
  @get_transcript (Samples.serving Samples.exact_match []) Samples.video ["de"]
  = inl (Exception "Error fetching transcript: No transcripts available")
  /\ exists t k data lang tag,
       In t [Samples.manual_ko] /\ fetch t k = inr data
       /\ @get_transcript (Samples.serving Samples.exact_match [Samples.manual_ko])
            Samples.video ["de"]
          = inr (data, lang, tag).
Proof.
  split.
  - apply (proj1 (@empty_catalog_exhausts (Samples.serving Samples.exact_match [])
                    Samples.video [] ["de"] eq_refl)).
    reflexivity.
  - apply (proj1 (proj2 (@empty_catalog_exhausts
                    (Samples.serving Samples.exact_match [Samples.manual_ko])
                    Samples.video [Samples.manual_ko] ["de"] eq_refl))
             Samples.manual_ko [] [Samples.world]); reflexivity.
Defined.

(** C2 as stated fails: the catalog holds a track that can be fetched at
    any time, and the cascade fails all the same, with the error of the
    first track of the catalog: the last step tries no other track. *)
Lemma some_track_exists_yet_none_is_returned :
  let catalog := [Samples.broken_de; Samples.manual_ko] in
  let provider := Samples.serving Samples.exact_match catalog in
  catalog <> []
  /\ In Samples.manual_ko catalog
  /\ (forall k, fetch Samples.manual_ko k = inr [Samples.world])
  /\ get_transcript Samples.video ["fr"]
     = inl (Exception "Error fetching transcript: Could not retrieve a transcript")
  /\ ~ exists data lang tag, get_transcript Samples.video ["fr"] = inr (data, lang, tag).
Proof.
  intros catalog provider.
  split; [discriminate|]. split; [right; now left|]. split; [reflexivity|].
  split; [reflexivity|]. intros (data & lang & tag & H). vm_compute in H. discriminate.
Qed.

Lemma attempt_failures_are_skipped_witness :
  let catalog := [Samples.broken_de; Samples.manual_ko] in
  let provider := Samples.serving Samples.exact_match catalog in
  try_manual catalog 0 "de" = inl (ProviderError "Could not retrieve a transcript")
  /\ get_transcript Samples.video ["de"; "ko"] = inr ([Samples.world], "ko", "manual").
Proof.
  intros catalog provider. split; [reflexivity|].
  apply (proj1 (@attempt_failures_are_skipped provider Samples.video catalog
                  ["de"; "ko"] eq_refl) ["de"] "ko" []).
  - reflexivity.
  - split; [|exact I]. eexists. reflexivity.
  - reflexivity.
Defined.


(** ** Default arguments *)

Section DefaultArguments.

Context `{provider : Provider}.

Lemma define_functions_store (σ : Store) (D : Defaults) (σ0 : Store) :
  define_functions σ = (D, σ0) ->
  get_transcript_defaults D <> extract_youtube_transcript_defaults D
  /\ σ0 !! get_transcript_defaults D = Some ["en"]
  /\ σ0 !! extract_youtube_transcript_defaults D = Some ["en"].
Proof.
  unfold define_functions, alloc. intros [= <- <-]. simpl.
  set (l1 := fresh (dom σ)).
  set (l2 := fresh (dom (<[l1:=["en"]]> σ))).
  assert (Hne : l1 <> l2).
  { intros Heq. apply (is_fresh (dom (<[l1:=["en"]]> σ))). fold l2.
    rewrite <- Heq. rewrite dom_insert_L. set_solver. }
  split; [exact Hne|]. split.
  - rewrite lookup_insert_ne by congruence. apply lookup_insert_eq.
  - apply lookup_insert_eq.
Qed.

Lemma alloc_keeps (σ : Store) (v w : list string) (d : loc) :
  σ !! d = Some w ->
  fst (alloc σ v) <> d /\ snd (alloc σ v) !! d = Some w.
Proof.
  intros Hd. unfold alloc. simpl.
  assert (Hne : fresh (dom σ) <> d).
  { intros Heq. apply (is_fresh (dom σ)). rewrite Heq.
    now apply (elem_of_dom_2 σ d w). }
  split; [exact Hne|]. now rewrite lookup_insert_ne.
Qed.

Lemma client_step_isolated (D : Defaults) (c : Client) (op : ClientOp) :
  isolated D c -> isolated D (client_step D c op).
Proof.
  intros (H1 & H2 & Hl & Hg & He).
  destruct op as [v | i x | video_id languages | url languages ts cs];
    cbn [client_step].
  - destruct (alloc_keeps (heap c) v _ _ H1) as [Hn1 Hk1].
    destruct (alloc_keeps (heap c) v _ _ H2) as [Hn2 Hk2].
    destruct (alloc (heap c) v) as [l σ']. cbn [fst snd] in *.
    unfold isolated. cbn [heap lists events].
    split; [exact Hk1|]. split; [exact Hk2|]. split; [|now split].
    apply List.Forall_app. split; [assumption|]. now repeat constructor.
  - destruct (nth_error (lists c) i) as [l|] eqn:Hi; [|now repeat split].
    apply nth_error_In in Hi.
    destruct (proj1 (List.Forall_forall _ _) Hl l Hi) as [Hn1 Hn2].
    unfold isolated, list_append. cbn [heap lists events].
    rewrite !lookup_alter_ne by assumption. now repeat split.
  - destruct (argument c languages) as [arg|] eqn:Harg; [|now repeat split].
    unfold call_get_transcript, isolated. cbn [heap lists events].
    split; [exact H1|]. split; [exact H2|]. split; [exact Hl|]. split.
    + intros v r Hin. apply in_app_or in Hin. destruct Hin as [Hin | [Hin | []]].
      * now apply Hg.
      * injection Hin as <- -> <-. cbn [argument] in Harg. injection Harg as <-.
        unfold bind_parameter, deref. now rewrite H1.
    + intros u ts cs r Hin. apply in_app_or in Hin.
      destruct Hin as [Hin | [Hin | []]]; [now apply (He u ts cs) | discriminate].
  - destruct (argument c languages) as [arg|] eqn:Harg; [|now repeat split].
    unfold call_extract_youtube_transcript, isolated. cbn [heap lists events].
    split; [exact H1|]. split; [exact H2|]. split; [exact Hl|]. split.
    + intros v r Hin. apply in_app_or in Hin.
      destruct Hin as [Hin | [Hin | []]]; [now apply Hg | discriminate].
    + intros u ts' cs' r Hin. apply in_app_or in Hin.
      destruct Hin as [Hin | [Hin | []]]; [now apply (He u ts' cs')|].
      injection Hin as <- -> <- <- <-. cbn [argument] in Harg. injection Harg as <-.
      unfold bind_parameter, deref. now rewrite H2.
Qed.

Lemma run_client_isolated (D : Defaults) (script : list ClientOp) (c : Client) :
  isolated D c -> isolated D (run_client D script c).
Proof.
  revert c. induction script as [|op script IH]; intros c Hc; [exact Hc|].
  simpl. apply IH. now apply client_step_isolated.
Qed.


End DefaultArguments.



(** ** The chunker *)

Section Chunker.

Local Arguments String.append : simpl nomatch.

Lemma substring_all (s : string) (n : nat) :
  (String.length s <= n)%nat -> substring 0 n s = s.
Proof.
  revert n. induction s as [|c s IH]; intros [|n] Hn; simpl in *;
    try reflexivity; try lia.
  now rewrite IH by lia.
Qed.

Lemma substring_split (s : string) (a b : nat) :
  substring 0 a s +:+ substring a b s = substring 0 (a + b) s.
Proof.
  revert a. induction s as [|c s IH]; intros a.
  - destruct a, b; reflexivity.
  - destruct a as [|a]; simpl.
    + reflexivity.
    + now rewrite IH.
Qed.

Lemma substring_length (s : string) (a b : nat) :
  String.length (substring a b s) = Nat.min b (String.length s - a).
Proof.
  revert a b. induction s as [|c s IH]; intros a b.
  - destruct a, b; reflexivity.
  - destruct a as [|a]; simpl.
    + destruct b as [|b]; simpl; [reflexivity|].
      rewrite IH. now rewrite Nat.sub_0_r.
    + apply IH.
Qed.

Lemma join_empty_app (l1 l2 : list string) :
  join "" (l1 ++ l2) = join "" l1 +:+ join "" l2.
Proof.
  induction l1 as [|x l1 IH]; [reflexivity|].
  destruct l1 as [|y l1].
  - simpl. destruct l2; simpl; [now rewrite append_nil_r | reflexivity].
  - change (join "" ((x :: y :: l1) ++ l2))
      with (x +:+ "" +:+ join "" ((y :: l1) ++ l2)).
    rewrite IH.
    change (join "" (x :: y :: l1)) with (x +:+ "" +:+ join "" (y :: l1)).
    simpl. now rewrite append_assoc.
Qed.

(** The slices the comprehension takes, by their index. *)
Lemma chunk_slices (s : string) (size : Z) :
  0 < size ->
  map (fun i => slice s i (i + size)) (range 0 (len s) size)
  = map (fun k => substring (k * Z.to_nat size) (Z.to_nat size) s)
        (seq 0 (Z.to_nat (range_length 0 (len s) size))).
Proof.
  intros Hsize. unfold range. rewrite map_map. apply map_ext. intros k.
  unfold slice. f_equal; lia.
Qed.

Lemma join_slices (s : string) (n m : nat) :
  join "" (map (fun k => substring (k * n) n s) (seq 0 m))
  = substring 0 (m * n) s.
Proof.
  induction m as [|m IH].
  - simpl. now destruct s.
  - rewrite seq_S, map_app, join_empty_app, IH. simpl.
    rewrite substring_split. f_equal. lia.
Qed.

Lemma range_length_covers (L size : Z) :
  0 <= L -> 0 < size ->
  let count := range_length 0 L size in
  0 <= count /\ L <= count * size /\ (0 < count -> (count - 1) * size < L).
Proof.
  intros HL Hsize. unfold range_length.
  destruct (Z.ltb_spec 0 size) as [_|]; [|lia].
  destruct (Z.ltb_spec 0 L) as [Hpos|Hzero]; simpl.
  - rewrite Z.sub_0_r.
    pose proof (Z.div_mod (L - 1) size ltac:(lia)) as Hdm.
    pose proof (Z.mod_pos_bound (L - 1) size Hsize) as Hmod.
    pose proof (Z.div_pos (L - 1) size ltac:(lia) Hsize) as Hdiv.
    nia.
  - lia.
Qed.

(** For a positive chunk size the chunks are the consecutive slices of the
    plain text: joined again they give the text, every chunk but the last
    has exactly [size] characters, and the last one has between 1 and
    [size]. *)
Lemma chunks_of_positive_size (entries : list TranscriptEntry) (size : Z) :
  0 < size ->
  exists chunks,
    format_transcript entries false (Some size) = Chunks chunks
    /\ join "" chunks = Spec.plain entries
    /\ (forall k, (k < List.length chunks)%nat ->
          nth k chunks ""
          = substring (k * Z.to_nat size) (Z.to_nat size) (Spec.plain entries))
    /\ (forall k, (S k < List.length chunks)%nat ->
          len (nth k chunks "") = size)
    /\ (forall k, (S k = List.length chunks)%nat ->
          1 <= len (nth k chunks "") <= size).
Proof.
  intros Hsize.
  unfold format_transcript. rewrite plain_text_spec.
  simpl chunk_size_truthy.
  destruct (Z.eqb_spec size 0) as [|_]; [lia|]. simpl.
  set (s := Spec.plain entries).
  rewrite chunk_slices by assumption.
  set (n := Z.to_nat size).
  destruct (range_length_covers (len s) size ltac:(unfold len; lia) Hsize)
    as (Hc0 & Hcover & Hlast).
  set (count := Z.to_nat (range_length 0 (len s) size)).
  assert (Hn : Z.of_nat n = size) by (subst n; lia).
  assert (Hcount : Z.of_nat count = range_length 0 (len s) size)
    by (subst count; lia).
  rewrite <- Hcount in Hcover, Hlast. rewrite <- Hn in Hcover, Hlast.
  unfold len in Hcover, Hlast.
  assert (Hnth : forall k, (k < count)%nat ->
            nth k (map (fun k => substring (k * n) n s) (seq 0 count)) ""
            = substring (k * n) n s).
  { intros k Hk. set (f := fun k => substring (k * n) n s).
    rewrite (nth_indep _ "" (f 0%nat)) by now rewrite length_map, length_seq.
    rewrite (map_nth f), seq_nth by assumption. reflexivity. }
  eexists. split; [reflexivity|].
  rewrite length_map, length_seq.
  split; [|split; [|split]].
  - rewrite join_slices. apply substring_all. nia.
  - exact Hnth.
  - intros k Hk. rewrite Hnth by lia. unfold len.
    rewrite substring_length, <- Hn.
    assert ((k + 1) * n <= String.length s)%nat by nia. nia.
  - intros k Hk. rewrite Hnth by lia. unfold len.
    rewrite substring_length, <- Hn.
    assert (k * n < String.length s)%nat by nia.
    assert (0 < n)%nat by lia. nia.
Qed.

(** The example of the specification: chunk size 5 on the text abcdefgh. *)
Lemma chunks_example :
  format_transcript [mkEntry "abcdefgh" (PyFloat 0) (PyFloat 1)] false (Some 5)
  = Chunks ["abcde"; "fgh"].
Proof. reflexivity. Qed.

(** Timestamps, an absent chunk size and the chunk size 0 leave the output
    in one piece. *)
Lemma unchunked_output (entries : list TranscriptEntry) (include_timestamps : bool)
    (chunk_size : option Z) :
  include_timestamps = true \/ chunk_size_truthy chunk_size = false ->
  exists s, format_transcript entries include_timestamps chunk_size = Text s.
Proof.
  intros Hcase. unfold format_transcript.
  destruct chunk_size as [size|]; [|eauto].
  destruct Hcase as [-> | ->]; [rewrite andb_false_r|]; eauto.
Qed.

(** C7, where the code departs from it: a negative chunk size is true as a
    condition, so the chunker runs in plain mode, and as [range] with a
    negative step from 0 is empty it returns no chunk at all, whatever the
    text. *)
Theorem negative_chunk_size_drops_text (entries : list TranscriptEntry) (size : Z) :
  size < 0 ->
  format_transcript entries false (Some size) = Chunks [].
Proof.
  intros Hsize. unfold format_transcript. simpl chunk_size_truthy.
  destruct (Z.eqb_spec size 0) as [|_]; [lia|]. simpl.
  unfold range, range_length.
  destruct (Z.ltb_spec 0 size) as [|_]; [lia|].
  match goal with |- context [len ?s <? 0] => destruct (Z.ltb_spec (len s) 0) as [Hl|_] end.
  - unfold len in Hl. lia.
  - reflexivity.
Qed.

Lemma negative_chunk_size_drops_text_witness :
  -1 < 0
  /\ format_transcript [Samples.hello; Samples.world] false (Some (-1)) = Chunks []
  /\ format_transcript [Samples.hello; Samples.world] false None = Text "hello world".
Proof.
  split; [lia|]. split; [|reflexivity].
  apply (negative_chunk_size_drops_text [Samples.hello; Samples.world] (-1)). lia.
Defined.

End Chunker.

(** ** File names *)

Section FileNames.

Local Arguments String.append : simpl nomatch.

Lemma eqb_empty_false (s : string) : s <> "" -> String.eqb s "" = false.
Proof. intros Hs. now apply String.eqb_neq. Qed.

Lemma save_to_file_named now fs text filename video_id :
  filename <> "" ->
  save_to_file now fs text (Some filename) video_id
  = (filename, (filename, text) :: fs).
Proof. intros Hf. unfold save_to_file. now rewrite eqb_empty_false. Qed.

Lemma chunk_filename_nonempty output video_id n i :
  chunk_filename output video_id n i <> "".
Proof.
  unfold chunk_filename.
  set (default := "transcript_chunk_" +:+ str_of_int i +:+ "_" +:+ video_id +:+ ".txt").
  set (filename := match output with
                   | Some o => if String.eqb o "" then default else o
                   | None => default
                   end).
  assert (Hf : filename <> "").
  { subst filename. destruct output as [o|]; [|discriminate].
    destruct (String.eqb_spec o ""); [discriminate | assumption]. }
  destruct (1 <? n)%nat; [|exact Hf].
  destruct (splitext filename) as [base ext]. destruct base; discriminate.
Qed.

(** The loop over [enumerate(formatted_text, 1)] saves chunk [i] under the
    name computed for it. *)
Lemma save_chunks_names now output video_id n (chunks : list string) :
  forall (first : nat) (saved : list string) (fs : FileSystem),
    fst (fold_left
           (fun '(saved, fs) '(i, chunk) =>
              let filename := chunk_filename output video_id n i in
              let '(saved_file, fs') :=
                save_to_file now fs chunk (Some filename) video_id in
              ((saved ++ [saved_file])%list, fs'))
           (combine (map (fun k => Z.of_nat k) (seq first (List.length chunks))) chunks)
           (saved, fs))
    = (saved ++ map (chunk_filename output video_id n)
                    (map Z.of_nat (seq first (List.length chunks))))%list.
Proof.
  induction chunks as [|c chunks IH]; intros first saved fs;
    cbn [List.length seq map combine fold_left].
  - simpl. now rewrite app_nil_r.
  - rewrite save_to_file_named by apply chunk_filename_nonempty.
    rewrite IH, <- app_assoc. reflexivity.
Qed.

Lemma main_save_chunks now fs output video_id chunks :
  fst (main_save now fs output video_id (Chunks chunks))
  = map (chunk_filename output video_id (List.length chunks))
        (Spec.chunk_numbers (List.length chunks)).
Proof.
  unfold main_save, enumerate_from_1, Spec.chunk_numbers.
  now rewrite save_chunks_names.
Qed.

(** C8, as the code has it: with an output path and more than one chunk,
    chunk i (counted from 1) is saved as base_chunk_i.ext, base and ext
    being the split of the output path; a single chunk is saved under the
    output path itself, or as transcript_chunk_1_id.txt when no output path
    is given; and unchunked output without an output path is saved as
    youtube_transcript_id_timestamp.txt. *)
Theorem chunk_file_names (now : string) (fs : FileSystem) (video_id o : string)
    (chunks : list string) (chunk text : string) :
  o <> "" ->
  (1 < List.length chunks)%nat ->
  fst (main_save now fs (Some o) video_id (Chunks chunks))
  = map (fun i => fst (splitext o) +:+ "_chunk_" +:+ str_of_int i +:+ snd (splitext o))
        (Spec.chunk_numbers (List.length chunks))
  /\ fst (main_save now fs (Some o) video_id (Chunks chunks))
     = map (Spec.claimed_chunk_name (Some o) video_id)
           (Spec.chunk_numbers (List.length chunks))
  /\ fst (main_save now fs (Some o) video_id (Chunks [chunk])) = [o]
  /\ fst (main_save now fs None video_id (Chunks [chunk]))
     = ["transcript_chunk_1_" +:+ video_id +:+ ".txt"]
  /\ fst (main_save now fs None video_id (Text text))
     = ["youtube_transcript_" +:+ video_id +:+ "_" +:+ now +:+ ".txt"].
Proof.
  intros Ho Hmany.
  assert (Hnames : forall i,
             chunk_filename (Some o) video_id (List.length chunks) i
             = fst (splitext o) +:+ "_chunk_" +:+ str_of_int i +:+ snd (splitext o)).
  { intros i. unfold chunk_filename. rewrite (eqb_empty_false o Ho).
    destruct (Nat.ltb_spec 1 (List.length chunks)) as [_|]; [|lia].
    now destruct (splitext o). }
  split; [|split; [|split; [|split]]].
  - rewrite main_save_chunks. apply map_ext. exact Hnames.
  - rewrite main_save_chunks. apply map_ext. intros i. rewrite Hnames.
    unfold Spec.claimed_chunk_name. now destruct (splitext o).
  - rewrite main_save_chunks. simpl. unfold chunk_filename. simpl.
    now rewrite (eqb_empty_false o Ho).
  - rewrite main_save_chunks. reflexivity.
  - reflexivity.
Qed.

Lemma chunk_file_names_witness :
  "out.txt" <> "" /\ (1 < List.length ["abcde"; "fgh"])%nat
  /\ fst (main_save "20240101_120000" [] (Some "out.txt") Samples.video
            (Chunks ["abcde"; "fgh"]))
     = ["out_chunk_1.txt"; "out_chunk_2.txt"].
Proof.
  split; [discriminate|]. split; [simpl; lia|].
  rewrite (proj1 (chunk_file_names "20240101_120000" [] Samples.video "out.txt"
                    ["abcde"; "fgh"] "abcde" "abcde"
                    ltac:(discriminate) ltac:(simpl; lia))).
  reflexivity.
Defined.

(** C8 as stated fails: a single chunk with an output path is saved under
    that path, without the chunk suffix; and the code's names for several
    chunks without an output path carry the chunk number twice. *)
Lemma chunk_names_not_as_claimed :
  fst (main_save "20240101_120000" [] (Some "out.txt") Samples.video (Chunks ["abcde"]))
  = ["out.txt"]
  /\ map (Spec.claimed_chunk_name (Some "out.txt") Samples.video) (Spec.chunk_numbers 1)
     = ["out_chunk_1.txt"]
  /\ fst (main_save "20240101_120000" [] (Some "out.txt") Samples.video (Chunks ["abcde"]))
     <> map (Spec.claimed_chunk_name (Some "out.txt") Samples.video) (Spec.chunk_numbers 1)
  /\ fst (main_save "20240101_120000" [] None Samples.video (Chunks ["abcde"; "fgh"]))
     = ["transcript_chunk_1_abc12345678_chunk_1.txt";
        "transcript_chunk_2_abc12345678_chunk_2.txt"]
  /\ fst (main_save "20240101_120000" [] None Samples.video (Chunks ["abcde"; "fgh"]))
     <> map (Spec.claimed_chunk_name None Samples.video) (Spec.chunk_numbers 2).
Proof. vm_compute. repeat split; discriminate. Qed.

End FileNames.

(** ** The identifier resolver *)

Section Resolver.

Local Arguments String.append : simpl nomatch.

Import PyRe.

Lemma all_chars_app (p : ascii -> bool) (a b : string) :
  all_chars p (a +:+ b) = all_chars p a && all_chars p b.
Proof.
  induction a as [|c a IH]; simpl; [reflexivity|].
  now rewrite IH, andb_assoc.
Qed.

Lemma all_chars_impl (p q : ascii -> bool) (s : string) :
  (forall c, p c = true -> q c = true) ->
  all_chars p s = true -> all_chars q s = true.
Proof.
  intros Hpq. induction s as [|c s IH]; simpl; [reflexivity|].
  rewrite !andb_true_iff. intros [Hc Hs]. auto.
Qed.

(** The group takes the identifier characters up to the first delimiter. *)
Lemma take_while_stop (id tail : string) :
  all_chars id_char id = true ->
  Shape.delimited tail ->
  take_while id_char (id +:+ tail) = id.
Proof.
  intros Hid Htail. induction id as [|c id IH]; simpl in *.
  - destruct Htail as [-> | (d & t & -> & Hd)]; simpl; [reflexivity|].
    now rewrite Hd.
  - apply andb_true_iff in Hid. destruct Hid as [Hc Hid].
    now rewrite Hc, IH.
Qed.

Lemma group_at_stop (id tail : string) :
  id <> "" ->
  all_chars id_char id = true ->
  Shape.delimited tail ->
  group_at (id +:+ tail) = Some id.
Proof.
  intros Hne Hid Htail. unfold group_at. rewrite take_while_stop by assumption.
  destruct id; [contradiction | reflexivity].
Qed.

Lemma take_while_spec (p : ascii -> bool) (s : string) :
  all_chars p (take_while p s) = true
  /\ exists post, s = take_while p s +:+ post.
Proof.
  induction s as [|c s [IH1 (post & IH2)]]; simpl.
  - split; [reflexivity | now exists ""].
  - destruct (p c) eqn:Hc; simpl.
    + rewrite Hc, IH1. split; [reflexivity|]. exists post. now rewrite <- IH2.
    + split; [reflexivity|]. now exists (String c s).
Qed.

Lemma group_at_Some (s g : string) :
  group_at s = Some g ->
  g <> "" /\ all_chars id_char g = true /\ exists post, s = g +:+ post.
Proof.
  unfold group_at. destruct (take_while_spec id_char s) as [Hall Hpost].
  destruct (take_while id_char s) as [|c t] eqn:E; [discriminate|].
  intros [= <-]. split; [discriminate|]. now split.
Qed.

Lemma prefix_drop (literal s : string) :
  String.prefix literal s = true ->
  s = literal +:+ drop (String.length literal) s.
Proof.
  revert s. induction literal as [|c l IH]; intros [|c' s] H; simpl in *;
    try reflexivity; try discriminate.
  destruct (Ascii.ascii_dec c c') as [<-|]; [|discriminate].
  now rewrite <- IH.
Qed.

Lemma literal_group_at_Some (literal s g : string) :
  literal_group_at literal s = Some g ->
  g <> "" /\ all_chars id_char g = true
  /\ exists post, s = literal +:+ g +:+ post.
Proof.
  unfold literal_group_at.
  destruct (String.prefix literal s) eqn:Hp; [|discriminate].
  intros Hg. apply group_at_Some in Hg. destruct Hg as (Hne & Hall & post & Hpost).
  split; [assumption|]. split; [assumption|].
  exists post. rewrite <- Hpost. now apply prefix_drop.
Qed.

Lemma occurs_in_cons (g s : string) (c : ascii) :
  Shape.occurs_in g s -> Shape.occurs_in g (String c s).
Proof. intros (pre & post & ->). now exists (String c pre), post. Qed.

Lemma literal_group_at_occurs (literal s g : string) :
  literal_group_at literal s = Some g ->
  g <> "" /\ all_chars id_char g = true /\ Shape.occurs_in g s.
Proof.
  intros H. apply literal_group_at_Some in H. destruct H as (Hne & Hall & post & ->).
  repeat split; try assumption. now exists literal, post.
Qed.


Lemma dotstar_v_group_at_occurs (r g : string) :
  dotstar_v_group_at r = Some g ->
  g <> "" /\ all_chars id_char g = true /\ Shape.occurs_in g r.
Proof.
  induction r as [|c r IH]; [discriminate|].
  change (dotstar_v_group_at (String c r))
    with (match (if Ascii.eqb c (ascii_of_nat 10) then None else dotstar_v_group_at r) with
          | Some g => Some g
          | None => literal_group_at "v=" (String c r)
          end).
  destruct (Ascii.eqb c (ascii_of_nat 10)).
  - apply literal_group_at_occurs.
  - destruct (dotstar_v_group_at r) as [g'|].
    + intros [= <-]. destruct (IH eq_refl) as (Hne & Hall & Hocc).
      repeat split; try assumption. now apply occurs_in_cons.
    + apply literal_group_at_occurs.
Qed.

Lemma occurs_in_after (literal g s : string) :
  Shape.occurs_in g s -> Shape.occurs_in g (literal +:+ s).
Proof.
  intros (pre & post & ->). exists (literal +:+ pre), post.
  now rewrite append_assoc.
Qed.

Lemma pattern1_at_occurs (s g : string) :
  pattern1_at s = Some g ->
  g <> "" /\ all_chars id_char g = true /\ Shape.occurs_in g s.
Proof.
  unfold pattern1_at.
  destruct (literal_group_at "youtube.com/watch?v=" s) as [g1|] eqn:E1.
  { intros [= <-]. now apply literal_group_at_occurs in E1. }
  destruct (literal_group_at "youtu.be/" s) as [g2|] eqn:E2.
  { intros [= <-]. now apply literal_group_at_occurs in E2. }
  apply literal_group_at_occurs.
Qed.

Lemma pattern2_at_occurs (s g : string) :
  pattern2_at s = Some g ->
  g <> "" /\ all_chars id_char g = true /\ Shape.occurs_in g s.
Proof.
  unfold pattern2_at.
  destruct (String.prefix "youtube.com/watch?" s) eqn:Hp; [|discriminate].
  intros H. apply dotstar_v_group_at_occurs in H.
  destruct H as (Hne & Hall & Hocc). repeat split; try assumption.
  rewrite (prefix_drop _ _ Hp). now apply occurs_in_after.
Qed.

Lemma search_occurs (pattern_at : string -> option string) (s g : string) :
  (forall t h, pattern_at t = Some h ->
               h <> "" /\ all_chars id_char h = true /\ Shape.occurs_in h t) ->
  search pattern_at s = Some g ->
  g <> "" /\ all_chars id_char g = true /\ Shape.occurs_in g s.
Proof.
  intros Hat. induction s as [|c s IH].
  - simpl. destruct (pattern_at "") eqn:E; [|discriminate].
    intros [= <-]. now apply Hat.
  - simpl. destruct (pattern_at (String c s)) eqn:E.
    + intros [= <-]. now apply Hat.
    + intros H. destruct (IH H) as (Hne & Hall & Hocc).
      repeat split; try assumption. now apply occurs_in_cons.
Qed.

Lemma first_pattern_match_occurs (url g : string) :
  first_pattern_match patterns url = Some g ->
  g <> "" /\ all_chars id_char g = true /\ Shape.occurs_in g url.
Proof.
  unfold patterns. simpl.
  destruct (search pattern1_at url) as [g1|] eqn:E1.
  { intros [= <-]. eapply search_occurs; [apply pattern1_at_occurs | exact E1]. }
  destruct (search pattern2_at url) as [g2|] eqn:E2; [|discriminate].
  intros [= <-]. eapply search_occurs; [apply pattern2_at_occurs | exact E2].
Qed.

(** An alphanumeric character is none of the delimiters, nor a slash. *)
Lemma is_alnum_char_id_char (c : ascii) :
  is_alnum_char c = true ->
  id_char c = true /\ negb (Ascii.eqb c "/") = true.
Proof.
  destruct c as [[] [] [] [] [] [] [] []]; vm_compute; intros H;
    try discriminate; now split.
Qed.

Lemma isalnum_all (s : string) :
  isalnum s = true -> s <> "" /\ all_chars is_alnum_char s = true.
Proof. destruct s; [discriminate|]. intros H. split; [discriminate | exact H]. Qed.

Lemma extract_video_id_inr (url video_id : string) :
  extract_video_id url = inr video_id ->
  video_id <> ""
  /\ all_chars id_char video_id = true
  /\ Shape.occurs_in video_id url.
Proof.
  unfold extract_video_id.
  destruct (first_pattern_match patterns url) as [g|] eqn:E.
  - intros [= <-]. now apply first_pattern_match_occurs.
  - destruct ((len url =? 11) && isalnum url) eqn:Hc; [|discriminate].
    intros [= <-]. apply andb_true_iff in Hc. destruct Hc as [_ Hal].
    apply isalnum_all in Hal. destruct Hal as [Hne Hall].
    split; [assumption|]. split.
    + eapply all_chars_impl; [|exact Hall].
      intros c Hc. now apply is_alnum_char_id_char.
    + exists "", "". simpl. now rewrite append_nil_r.
Qed.

(** X2: the identifier [extract_video_id] returns is never empty, holds none of
    the delimiters [&], [?], [#] and line feed, and occurs in the input. *)
Theorem extract_video_id_shape (url video_id : string) :
  extract_video_id url = inr video_id ->
  video_id <> ""
  /\ all_chars id_char video_id = true
  /\ Shape.occurs_in video_id url.
Proof. apply extract_video_id_inr. Qed.

Lemma extract_video_id_shape_witness :
  extract_video_id "https://youtu.be/abc12345678?t=42" = inr "abc12345678"
  /\ "abc12345678" <> ""
  /\ Shape.occurs_in "abc12345678" "https://youtu.be/abc12345678?t=42".
Proof.
  split; [reflexivity|].
  destruct (extract_video_id_shape "https://youtu.be/abc12345678?t=42"
              "abc12345678" eq_refl) as (Hne & _ & Hocc).
  split; assumption.
Defined.


(** *** Inputs without a slash *)

Lemma prefix_free_of (x : ascii) (literal s : string) :
  String.prefix literal s = true ->
  Shape.free_of x s = true -> Shape.free_of x literal = true.
Proof.
  unfold Shape.free_of.
  revert s. induction literal as [|c l IH]; intros [|c' s] Hp Hs; simpl in *;
    try reflexivity; try discriminate.
  destruct (Ascii.ascii_dec c c') as [<-|]; [|discriminate].
  apply andb_true_iff in Hs. destruct Hs as [Hc Hs].
  rewrite Hc. simpl. eapply IH; eassumption.
Qed.

Lemma literal_group_at_slash (literal s : string) :
  Shape.free_of "/" literal = false ->
  Shape.free_of "/" s = true ->
  literal_group_at literal s = None.
Proof.
  intros Hl Hs. unfold literal_group_at.
  destruct (String.prefix literal s) eqn:Hp; [|reflexivity].
  rewrite (prefix_free_of _ _ _ Hp Hs) in Hl. discriminate.
Qed.

Lemma pattern1_at_slash (s : string) :
  Shape.free_of "/" s = true -> pattern1_at s = None.
Proof.
  intros Hs. unfold pattern1_at.
  now rewrite !literal_group_at_slash by (assumption || reflexivity).
Qed.

Lemma pattern2_at_slash (s : string) :
  Shape.free_of "/" s = true -> pattern2_at s = None.
Proof.
  intros Hs. unfold pattern2_at.
  destruct (String.prefix "youtube.com/watch?" s) eqn:Hp; [|reflexivity].
  pose proof (prefix_free_of _ _ _ Hp Hs) as Hl. discriminate.
Qed.

Lemma search_none (pattern_at : string -> option string) (x : ascii) (s : string) :
  (forall t, Shape.free_of x t = true -> pattern_at t = None) ->
  Shape.free_of x s = true ->
  search pattern_at s = None.
Proof.
  intros Hat. induction s as [|c s IH]; intros Hs.
  - simpl. now rewrite Hat.
  - simpl. rewrite (Hat _ Hs).
    unfold Shape.free_of in Hs. simpl in Hs.
    apply andb_true_iff in Hs. now apply IH.
Qed.

Lemma first_pattern_match_slash (url : string) :
  Shape.free_of "/" url = true -> first_pattern_match patterns url = None.
Proof.
  intros Hs. unfold patterns. simpl.
  rewrite (search_none pattern1_at "/") by (assumption || apply pattern1_at_slash).
  now rewrite (search_none pattern2_at "/") by (assumption || apply pattern2_at_slash).
Qed.

Lemma isalnum_free_of_slash (s : string) :
  isalnum s = true -> Shape.free_of "/" s = true.
Proof.
  intros H. apply isalnum_all in H. destruct H as [_ H].
  unfold Shape.free_of. eapply all_chars_impl; [|exact H].
  intros c Hc. now apply is_alnum_char_id_char.
Qed.

(** X3: an input without a slash matches none of the URL patterns: it is
    accepted exactly when it consists of 11 alphanumeric characters, and is
    then returned as it is; any other such input raises the ValueError.  A
    string of 11 alphanumeric characters has no slash. *)
Theorem extract_video_id_bare (url : string) :
  Shape.free_of "/" url = true ->
  extract_video_id url
  = (if (len url =? 11) && isalnum url
     then inr url
     else inl (ValueError "Invalid YouTube URL or video ID"))
  /\ (forall video_id,
        extract_video_id url = inr video_id <->
        video_id = url /\ String.length url = 11%nat /\ isalnum url = true)
  /\ (forall s, String.length s = 11%nat -> isalnum s = true ->
                extract_video_id s = inr s).
Proof.
  intros Hs.
  assert (Hbare : forall s, Shape.free_of "/" s = true ->
            extract_video_id s
            = (if (len s =? 11) && isalnum s
               then inr s
               else inl (ValueError "Invalid YouTube URL or video ID"))).
  { intros s H. unfold extract_video_id. now rewrite first_pattern_match_slash. }
  split; [now apply Hbare|]. split.
  - intros video_id. rewrite (Hbare url Hs). unfold len.
    destruct (Z.eqb_spec (Z.of_nat (String.length url)) 11) as [Hl|Hl];
      destruct (isalnum url); simpl; split;
      try discriminate; try (intros [= <-]; repeat split; lia);
      try (intros (-> & H1 & H2); (reflexivity || discriminate || lia)).
  - intros s Hl Hal. rewrite (Hbare s (isalnum_free_of_slash s Hal)).
    unfold len. rewrite Hl, Hal. reflexivity.
Qed.

Lemma extract_video_id_bare_witness :
  Shape.free_of "/" "short" = true
  /\ extract_video_id "short" = inl (ValueError "Invalid YouTube URL or video ID")
  /\ extract_video_id "abc12345678" = inr "abc12345678".
Proof.
  split; [reflexivity|]. split.
  - rewrite (proj1 (extract_video_id_bare "short" eq_refl)). reflexivity.
  - apply (proj2 (proj2 (extract_video_id_bare "short" eq_refl))); reflexivity.
Defined.


(** *** URLs *)

Lemma prefix_app (literal s : string) : String.prefix literal (literal +:+ s) = true.
Proof.
  induction literal as [|c l IH]; simpl.
  - now destruct s.
  - destruct (Ascii.ascii_dec c c); [exact IH | contradiction].
Qed.

Lemma drop_app (literal s : string) : drop (String.length literal) (literal +:+ s) = s.
Proof. induction literal as [|c l IH]; simpl; [now destruct s | exact IH]. Qed.

Lemma literal_group_at_app (literal video_id tail : string) :
  video_id <> "" ->
  all_chars id_char video_id = true ->
  Shape.delimited tail ->
  literal_group_at literal (literal +:+ video_id +:+ tail) = Some video_id.
Proof.
  intros Hne Hid Htail. unfold literal_group_at.
  rewrite prefix_app, drop_app. now apply group_at_stop.
Qed.

Lemma prefix_cons (a b : ascii) (l s : string) :
  String.prefix (String a l) (String b s)
  = match Ascii.ascii_dec a b with
    | left _ => String.prefix l s
    | right _ => false
    end.
Proof. reflexivity. Qed.

(** Every literal of the patterns starts with the letter y. *)
Lemma literal_group_at_head (literal s : string) (x c : ascii) :
  c <> x -> literal_group_at (String x literal) (String c s) = None.
Proof.
  intros Hc. unfold literal_group_at. rewrite prefix_cons.
  destruct (Ascii.ascii_dec x c); [congruence | reflexivity].
Qed.

Lemma pattern1_at_head (c : ascii) (s : string) :
  c <> "y"%char -> pattern1_at (String c s) = None.
Proof.
  intros Hc. unfold pattern1_at. now rewrite !literal_group_at_head.
Qed.

Lemma pattern2_at_head (c : ascii) (s : string) :
  c <> "y"%char -> pattern2_at (String c s) = None.
Proof.
  intros Hc. unfold pattern2_at. rewrite prefix_cons.
  destruct (Ascii.ascii_dec "y" c); [congruence | reflexivity].
Qed.

Lemma free_of_cons (x c : ascii) (s : string) :
  Shape.free_of x (String c s) = true -> c <> x /\ Shape.free_of x s = true.
Proof.
  unfold Shape.free_of. simpl. rewrite andb_true_iff, negb_true_iff.
  intros [Hc Hs]. split; [|assumption]. now apply Ascii.eqb_neq.
Qed.

(** No match starts inside a prefix that has no letter y. *)
Lemma search_skip (pattern_at : string -> option string) (pre s : string) :
  (forall c t, c <> "y"%char -> pattern_at (String c t) = None) ->
  Shape.free_of "y" pre = true ->
  search pattern_at (pre +:+ s) = search pattern_at s.
Proof.
  intros Hat. induction pre as [|c pre IH]; intros Hpre; [reflexivity|].
  apply free_of_cons in Hpre. destruct Hpre as [Hc Hpre].
  simpl. rewrite (Hat c _ Hc). now apply IH.
Qed.

Lemma search_cons (pattern_at : string -> option string) (c : ascii) (s : string) :
  search pattern_at (String c s)
  = match pattern_at (String c s) with
    | Some g => Some g
    | None => search pattern_at s
    end.
Proof. reflexivity. Qed.

Lemma search_here (pattern_at : string -> option string) (s g : string) :
  pattern_at s = Some g -> search pattern_at s = Some g.
Proof. intros H. destruct s; simpl; now rewrite H. Qed.

Lemma first_pattern_match_patterns (url : string) :
  first_pattern_match patterns url
  = match search pattern1_at url with
    | Some g => Some g
    | None => search pattern2_at url
    end.
Proof.
  unfold patterns. simpl. destruct (search pattern1_at url); [reflexivity|].
  now destruct (search pattern2_at url).
Qed.

Lemma extract_video_id_pattern1 (pre s video_id : string) :
  Shape.free_of "y" pre = true ->
  pattern1_at s = Some video_id ->
  extract_video_id (pre +:+ s) = inr video_id.
Proof.
  intros Hpre Hs. unfold extract_video_id, patterns. simpl.
  rewrite (search_skip pattern1_at) by (assumption || apply pattern1_at_head).
  now rewrite (search_here _ _ _ Hs).
Qed.

(** X1: the three URL shapes: after any prefix without the letter y (a scheme,
    a host prefix), the watch, short-link and embed forms give the
    identifier that follows, up to the end or the first delimiter. *)
Theorem extract_video_id_urls (pre video_id tail : string) :
  Shape.free_of "y" pre = true ->
  video_id <> "" ->
  all_chars id_char video_id = true ->
  Shape.delimited tail ->
  extract_video_id (pre +:+ "youtube.com/watch?v=" +:+ video_id +:+ tail) = inr video_id
  /\ extract_video_id (pre +:+ "youtu.be/" +:+ video_id +:+ tail) = inr video_id
  /\ extract_video_id (pre +:+ "youtube.com/embed/" +:+ video_id +:+ tail) = inr video_id.
Proof.
  intros Hpre Hne Hid Htail.
  pose proof (fun literal => literal_group_at_app literal video_id tail Hne Hid Htail)
    as Hlit.
  repeat split; apply extract_video_id_pattern1; try assumption; unfold pattern1_at.
  - now rewrite Hlit.
  - rewrite Hlit.
    now replace (literal_group_at "youtube.com/watch?v=" ("youtu.be/" +:+ video_id +:+ tail))
      with (@None string) by reflexivity.
  - rewrite Hlit.
    replace (literal_group_at "youtube.com/watch?v="
               ("youtube.com/embed/" +:+ video_id +:+ tail))
      with (@None string) by reflexivity.
    now replace (literal_group_at "youtu.be/" ("youtube.com/embed/" +:+ video_id +:+ tail))
      with (@None string) by reflexivity.
Qed.

Lemma extract_video_id_urls_witness :
  Shape.free_of "y" "https://www." = true
  /\ Shape.delimited "&t=42s"
  /\ extract_video_id "https://www.youtube.com/watch?v=abc12345678&t=42s"
     = inr "abc12345678".
Proof.
  assert (Hd : Shape.delimited "&t=42s").
  { right. now exists "&"%char, "t=42s". }
  split; [reflexivity|]. split; [exact Hd|].
  apply (proj1 (extract_video_id_urls "https://www." "abc12345678" "&t=42s"
                  eq_refl ltac:(discriminate) eq_refl Hd)).
Defined.


(** *** The identifier as a later parameter of the query *)

Lemma dotstar_v_group_at_cons (c : ascii) (r : string) :
  dotstar_v_group_at (String c r)
  = match (if Ascii.eqb c (ascii_of_nat 10) then None else dotstar_v_group_at r) with
    | Some g => Some g
    | None => literal_group_at "v=" (String c r)
    end.
Proof. reflexivity. Qed.

Lemma literal_v_alnum (s : string) :
  all_chars is_alnum_char s = true -> literal_group_at "v=" s = None.
Proof.
  intros Hs. unfold literal_group_at.
  destruct s as [|c [|c' s]]; try reflexivity.
  - rewrite prefix_cons. now destruct (Ascii.ascii_dec "v" c).
  - assert (Hc' : is_alnum_char c' = true).
    { change (is_alnum_char c && (is_alnum_char c' && all_chars is_alnum_char s) = true)
        in Hs.
      apply andb_true_iff in Hs. destruct Hs as [_ Hs].
      apply andb_true_iff in Hs. tauto. }
    rewrite prefix_cons. destruct (Ascii.ascii_dec "v" c); [|reflexivity].
    rewrite prefix_cons. destruct (Ascii.ascii_dec "=" c') as [<-|]; [|reflexivity].
    discriminate.
Qed.

Lemma dotstar_v_group_at_alnum (s : string) :
  all_chars is_alnum_char s = true -> dotstar_v_group_at s = None.
Proof.
  induction s as [|c s IH]; intros Hs; [reflexivity|].
  rewrite dotstar_v_group_at_cons, (literal_v_alnum _ Hs).
  change (is_alnum_char c && all_chars is_alnum_char s = true) in Hs.
  apply andb_true_iff in Hs. destruct Hs as [_ Hs].
  rewrite (IH Hs). now destruct (Ascii.eqb c (ascii_of_nat 10)).
Qed.

Lemma group_at_alnum (s : string) :
  isalnum s = true -> group_at s = Some s.
Proof.
  intros Hs. apply isalnum_all in Hs. destruct Hs as [Hne Hall].
  rewrite <- (append_nil_r s) at 1. apply group_at_stop; [assumption | | now left].
  eapply all_chars_impl; [|exact Hall]. intros c Hc. now apply is_alnum_char_id_char.
Qed.

(** After a query without line feed, [.*v=] reaches the last parameter. *)
Lemma dotstar_v_group_at_query (q video_id : string) :
  Shape.free_of (ascii_of_nat 10) q = true ->
  isalnum video_id = true ->
  dotstar_v_group_at (q +:+ "&v=" +:+ video_id) = Some video_id.
Proof.
  intros Hq Hid. induction q as [|c q IH].
  - change ("" +:+ "&v=" +:+ video_id)
      with (String "&" (String "v" (String "=" video_id))).
    rewrite !dotstar_v_group_at_cons.
    rewrite (dotstar_v_group_at_alnum video_id) by now apply isalnum_all in Hid.
    replace (literal_group_at "v=" (String "=" video_id)) with (@None string)
      by (unfold literal_group_at; rewrite prefix_cons; reflexivity).
    replace (literal_group_at "v=" (String "v" (String "=" video_id)))
      with (group_at video_id).
    + now rewrite group_at_alnum.
    + unfold literal_group_at. rewrite !prefix_cons. simpl.
      now destruct video_id.
  - apply free_of_cons in Hq. destruct Hq as [Hc Hq].
    change (String c q +:+ "&v=" +:+ video_id)
      with (String c (q +:+ "&v=" +:+ video_id)).
    rewrite dotstar_v_group_at_cons, (IH Hq).
    apply Ascii.eqb_neq in Hc. now rewrite Hc.
Qed.

Lemma prefix_app_app (a b s : string) :
  String.prefix (a +:+ b) (a +:+ s) = String.prefix b s.
Proof.
  induction a as [|c a IH]; [reflexivity|].
  change (String c a +:+ b) with (String c (a +:+ b)).
  change (String c a +:+ s) with (String c (a +:+ s)).
  rewrite prefix_cons. destruct (Ascii.ascii_dec c c); [exact IH | contradiction].
Qed.

Lemma prefix_v_query (q rest : string) :
  String.prefix "v=" q = false -> String.prefix "v=" (q +:+ String "&" rest) = false.
Proof.
  intros Hq. destruct q as [|c [|c' q]].
  - reflexivity.
  - change (String c "" +:+ String "&" rest) with (String c (String "&" rest)).
    rewrite prefix_cons. destruct (Ascii.ascii_dec "v" c); reflexivity.
  - change (String c (String c' q) +:+ String "&" rest)
      with (String c (String c' (q +:+ String "&" rest))).
    rewrite !prefix_cons in *.
    destruct (Ascii.ascii_dec "v" c); [|reflexivity].
    destruct (Ascii.ascii_dec "=" c'); [|reflexivity].
    now destruct q.
Qed.

(** X4: the second pattern: when the query of a watch URL does not start with
    the parameter v, the identifier is taken from the parameter v that ends
    the query. *)
Theorem extract_video_id_later_parameter (pre q video_id : string) :
  Shape.free_of "y" pre = true ->
  Shape.free_of "/" q = true ->
  Shape.free_of (ascii_of_nat 10) q = true ->
  String.prefix "v=" q = false ->
  isalnum video_id = true ->
  extract_video_id (pre +:+ "youtube.com/watch?" +:+ q +:+ "&v=" +:+ video_id)
  = inr video_id.
Proof.
  intros Hpre Hslash Hnl Hv Hid.
  set (rest := q +:+ "&v=" +:+ video_id).
  assert (Hrest : Shape.free_of "/" rest = true).
  { unfold rest, Shape.free_of. rewrite !all_chars_app.
    unfold Shape.free_of in Hslash. rewrite Hslash.
    apply isalnum_free_of_slash in Hid. unfold Shape.free_of in Hid.
    now rewrite Hid. }
  unfold extract_video_id. rewrite first_pattern_match_patterns.
  rewrite (search_skip pattern1_at) by (assumption || apply pattern1_at_head).
  rewrite (search_skip pattern2_at) by (assumption || apply pattern2_at_head).
  assert (H1 : pattern1_at ("youtube.com/watch?" +:+ rest) = None).
  { unfold pattern1_at.
    replace (literal_group_at "youtube.com/watch?v=" ("youtube.com/watch?" +:+ rest))
      with (@None string).
    - reflexivity.
    - unfold literal_group_at.
      change "youtube.com/watch?v=" with ("youtube.com/watch?" +:+ "v=").
      rewrite prefix_app_app. unfold rest.
      change ("&v=" +:+ video_id) with (String "&" ("v=" +:+ video_id)).
      now rewrite (prefix_v_query q ("v=" +:+ video_id) Hv). }
  assert (S1 : search pattern1_at ("youtube.com/watch?" +:+ rest) = None).
  { change ("youtube.com/watch?" +:+ rest)
      with (String "y" ("outube.com/watch?" +:+ rest)) in *.
    rewrite search_cons, H1.
    rewrite (search_skip pattern1_at) by (reflexivity || apply pattern1_at_head).
    apply (search_none pattern1_at "/"); [apply pattern1_at_slash | assumption]. }
  rewrite S1.
  rewrite (search_here pattern2_at _ video_id); [reflexivity|].
  unfold pattern2_at. rewrite prefix_app, drop_app.
  now apply dotstar_v_group_at_query.
Qed.

Lemma extract_video_id_later_parameter_witness :
  String.prefix "v=" "feature=share" = false
  /\ isalnum "abc12345678" = true
  /\ extract_video_id "https://www.youtube.com/watch?feature=share&v=abc12345678"
     = inr "abc12345678".
Proof.
  split; [reflexivity|]. split; [reflexivity|].
  apply (extract_video_id_later_parameter "https://www." "feature=share" "abc12345678");
    reflexivity.
Defined.

End Resolver.

(** ** Video information *)

Section VideoInfo.

Context `{provider : Provider}.

Local Arguments String.append : simpl nomatch.

(** The record [get_video_info] makes of a track. *)
Lemma get_video_info_listed (video_id : string) (catalog : TranscriptList) :
  list_transcripts video_id = inr catalog ->
  get_video_info video_id
  = inr (mkVideoInfo video_id ("https://www.youtube.com/watch?v=" +:+ video_id)
           (map (fun t => mkLangInfo (language t) (language_code t) (is_generated t))
                catalog)).
Proof.
  intros Hl. unfold get_video_info, bind, try_except, ret. rewrite Hl.
  now rewrite (fold_left_append
                 (fun t => mkLangInfo (language t) (language_code t) (is_generated t))).
Qed.

Lemma get_transcript_inr_listed (video_id : string) (languages : list string)
    (r : Selection) :
  get_transcript video_id languages = inr r ->
  exists catalog, list_transcripts video_id = inr catalog.
Proof.
  unfold get_transcript, bind, try_except.
  destruct (list_transcripts video_id) as [e|catalog]; [discriminate|].
  intros _. now exists catalog.
Qed.

(** X5: the URL [get_video_info] reports resolves to the identifier it was
    asked about, whenever that identifier came from [extract_video_id]. *)
Theorem video_url_round_trip (url video_id : string) (info : VideoInfo) :
  extract_video_id url = inr video_id ->
  get_video_info video_id = inr info ->
  vi_video_id info = video_id
  /\ extract_video_id (vi_video_url info) = inr video_id.
Proof.
  intros Hid Hinfo.
  apply extract_video_id_inr in Hid. destruct Hid as (Hne & Hchars & _).
  unfold get_video_info, bind, try_except, ret in Hinfo.
  destruct (list_transcripts video_id) as [e|catalog]; [discriminate|].
  injection Hinfo as <-. split; [reflexivity|]. cbn [vi_video_url].
  apply (extract_video_id_pattern1 "https://www." ("youtube.com/watch?v=" +:+ video_id));
    [reflexivity|].
  unfold PyRe.pattern1_at.
  rewrite <- (append_nil_r video_id) at 1.
  rewrite literal_group_at_app; [reflexivity | assumption | assumption | now left].
Qed.

(** X6: whatever [get_transcript] returns was fetched from a track that
    [get_video_info] lists; its code is the language reported, except in
    the fallback step, and the tags manual and auto-generated tell whether
    the track is generated. *)
Theorem selected_track_is_listed (video_id : string) (languages : list string)
    (data : list TranscriptEntry) (lang tag : string) :
  get_transcript video_id languages = inr (data, lang, tag) ->
  exists info t k,
    get_video_info video_id = inr info
    /\ In (mkLangInfo (language t) (language_code t) (is_generated t))
          (vi_available_languages info)
    /\ fetch t k = inr data
    /\ (tag <> "fallback" -> language_code t = lang)
    /\ (tag = "manual" -> is_generated t = false)
    /\ (tag = "auto-generated" -> is_generated t = true).
Proof.
  intros Hget.
  destruct (get_transcript_inr_listed _ _ _ Hget) as [catalog Hlist].
  rewrite (get_transcript_listed _ _ _ Hlist) in Hget.
  rewrite (get_video_info_listed _ _ Hlist).
  assert (Hin : forall t, In t catalog ->
            In (mkLangInfo (language t) (language_code t) (is_generated t))
               (map (fun t => mkLangInfo (language t) (language_code t) (is_generated t))
                    catalog)).
  { intros t Ht.
    exact (in_map (fun t0 => mkLangInfo (language t0) (language_code t0) (is_generated t0))
                  catalog t Ht). }
  eexists.
  destruct (select_transcript_cases catalog languages)
    as [(pre & l & post & r & Hl & _ & Hr & Hs)
       | (_ & [(pre & l & post & r & Hl & _ & Hr & Hs)
       | (_ & [(r & Hr & Hs) | (_ & Hs)])])];
    rewrite Hs in Hget.
  - apply try_manual_inr in Hr. destruct Hr as (t & d & Ht & F & ->).
    injection Hget as -> -> <-. apply first_with_In in Ht. destruct Ht as [Ht [Hg Hc]].
    exists t, (List.length pre). repeat split; auto; discriminate.
  - apply try_generated_inr in Hr. destruct Hr as (t & d & Ht & F & ->).
    injection Hget as -> -> <-. apply first_with_In in Ht. destruct Ht as [Ht [Hg Hc]].
    exists t, (List.length languages + List.length pre)%nat.
    repeat split; auto; discriminate.
  - apply try_fallback_inr in Hr. destruct Hr as (t & d & Ht & F & ->).
    injection Hget as -> <- <-. apply find_transcript_In in Ht.
    exists t, (2 * List.length languages)%nat.
    repeat split; auto; try discriminate. congruence.
  - destruct (first_available catalog _) as [e|r] eqn:Ha; [discriminate|].
    apply first_available_inr in Ha. destruct Ha as (t & rest & d & -> & F & ->).
    injection Hget as -> <- <-.
    exists t, (2 * List.length languages + 1)%nat.
    repeat split; auto; try discriminate. apply Hin. now left.
Qed.

End VideoInfo.

Lemma video_url_round_trip_witness :
  let provider := Samples.serving Samples.exact_match [Samples.manual_ko] in
  extract_video_id "https://youtu.be/abc12345678" = inr "abc12345678"
  /\ exists info,
       get_video_info "abc12345678" = inr info
       /\ extract_video_id (vi_video_url info) = inr "abc12345678".
Proof.
  intros provider. split; [reflexivity|]. eexists. split; [reflexivity|].
  apply (@video_url_round_trip provider "https://youtu.be/abc12345678"
           "abc12345678" _ eq_refl eq_refl).
Defined.

Lemma selected_track_is_listed_witness :
  let provider := Samples.serving Samples.regional_match [Samples.manual_en_US] in
  get_transcript Samples.video ["de"]
  = inr ([Samples.hello; Samples.world], "en", "fallback")
  /\ exists info t k,
       get_video_info Samples.video = inr info
       /\ In (mkLangInfo (language t) (language_code t) (is_generated t))
             (vi_available_languages info)
       /\ fetch t k = inr [Samples.hello; Samples.world].
Proof.
  intros provider. split; [reflexivity|].
  destruct (@selected_track_is_listed provider Samples.video ["de"]
              [Samples.hello; Samples.world] "en" "fallback" eq_refl)
    as (info & t & k & Hinfo & Hin & Hf & _).
  now exists info, t, k.
Defined.

(** ** More on timestamps *)

Section TimestampEdges.

Import PyNum.

Local Open Scope Z_scope.

Lemma round_half_even_nonpos (a b : Z) :
  a <= 0 -> 0 < b -> round_half_even a b <= 0.
Proof.
  intros Ha Hb. unfold round_half_even.
  assert (Hq : a / b <= 0) by (apply Z.div_le_upper_bound; lia).
  destruct (Z.eq_dec a 0) as [->|Hne].
  - rewrite Z.mod_0_l, Z.div_0_l by lia.
    destruct (Z.ltb_spec (2 * 0) b); [lia | lia].
  - assert (Hq1 : a / b <= -1).
    { assert (a / b < 0) by (apply Z.div_lt_upper_bound; lia). lia. }
    destruct (2 * (a mod b) <? b); [lia|].
    destruct (b <? 2 * (a mod b)); [lia|].
    destruct (Z.even (a / b)); lia.
Qed.

(** Rounding keeps the sign. *)
Lemma round64_nonpos (q : Q) : (q <= 0)%Q -> (round64 q <= 0)%Q.
Proof.
  destruct q as [n d]. unfold Qle. simpl. rewrite Z.mul_1_r. intros Hn.
  unfold round64. simpl Qnum. simpl Qden.
  destruct (n =? 0); [simpl; lia|].
  set (e := ilog2 (Z.abs n) (Zpos d) - 52).
  destruct (Z.leb_spec 0 e) as [He|He].
  - simpl. rewrite Z.mul_1_r.
    assert (H2 : 0 < 2 ^ e) by (apply Z.pow_pos_nonneg; lia).
    pose proof (round_half_even_nonpos n (Zpos d * 2 ^ e) Hn ltac:(lia)). nia.
  - assert (H2 : 0 < 2 ^ (- e)) by (apply Z.pow_pos_nonneg; lia).
    pose proof (round_half_even_nonpos (n * 2 ^ (- e)) (Zpos d) ltac:(nia) ltac:(lia)) as Hr.
    change ((Qred (round_half_even (n * 2 ^ (- e)) (Zpos d) # Z.to_pos (2 ^ (- e))) <= 0)%Q).
    rewrite Qred_correct. unfold Qle. simpl. lia.
Qed.

Lemma Qtrunc_nonpos (q : Q) : (q <= 0)%Q -> Qtrunc q <= 0.
Proof.
  destruct q as [n d]. unfold Qle, Qtrunc. simpl. rewrite Z.mul_1_r. intros Hn.
  rewrite <- (Z.opp_involutive n), Z.quot_opp_l by lia.
  pose proof (Z.quot_pos (- n) (Zpos d) ltac:(lia) ltac:(lia)). lia.
Qed.

Lemma Qfloor_neg (q : Q) : (q < 0)%Q -> Qfloor q <= -1.
Proof.
  intros Hq. destruct (Z.le_gt_cases (Qfloor q) (-1)) as [|Hge]; [assumption|].
  exfalso. apply (Qlt_not_le _ _ Hq).
  apply Qle_trans with (inject_Z (Qfloor q)); [|apply Qfloor_le].
  change 0%Q with (inject_Z 0). rewrite <- Zle_Qle. lia.
Qed.

(** Floor division of a float [x <= 0] by a positive [int] is not
    positive, whatever is rounded on the way. *)
Lemma float_floor_div_nonpos (x : Q) (p : positive) :
  (x <= 0)%Q -> (float_floor_div x (inject_Z (Zpos p)) <= 0)%Q.
Proof.
  intros Hx. unfold float_floor_div.
  set (y := inject_Z (Zpos p)).
  assert (Hy : (0 < y)%Q) by reflexivity.
  assert (Hdiff : (x - fmod x y <= 0)%Q).
  { unfold fmod.
    assert (E : (x - (x - y * inject_Z (Qtrunc (x / y))) == y * inject_Z (Qtrunc (x / y)))%Q)
      by ring.
    rewrite E.
    assert (Ht : Qtrunc (x / y) <= 0).
    { apply Qtrunc_nonpos. apply Qle_shift_div_r; [assumption|]. now rewrite Qmult_0_l. }
    rewrite <- (Qmult_0_r y). apply Qmult_le_l; [assumption|].
    change 0%Q with (inject_Z 0). now rewrite <- Zle_Qle. }
  assert (Hdiv : (round64 (round64 (x - fmod x y) / y) <= 0)%Q).
  { apply round64_nonpos. apply Qle_shift_div_r; [assumption|].
    rewrite Qmult_0_l. now apply round64_nonpos. }
  set (div0 := round64 (round64 (x - fmod x y) / y)) in *.
  set (div := if negb (Qeq_bool (fmod x y) 0)
                 && xorb (Qlt_bool y 0) (Qlt_bool (fmod x y) 0)
              then round64 (div0 - 1) else div0).
  assert (Hdiv' : (div <= 0)%Q).
  { unfold div. destruct (_ && _); [|assumption].
    apply round64_nonpos.
    apply Qle_trans with (0 - 1)%Q; [|discriminate].
    unfold Qminus. now apply Qplus_le_l. }
  destruct (Qeq_bool div 0) eqn:E0; [apply Qle_refl|].
  assert (Hneg : (div < 0)%Q).
  { apply Qle_lteq in Hdiv'. destruct Hdiv' as [|Heq]; [assumption|].
    apply Qeq_bool_neq in E0. contradiction. }
  pose proof (Qfloor_neg div Hneg) as Hfl.
  destruct (Qlt_bool (1 # 2) (round64 (div - inject_Z (Qfloor div)))).
  - apply round64_nonpos.
    change (inject_Z (Qfloor div) + inject_Z 1 <= inject_Z 0)%Q.
    rewrite <- inject_Z_plus, <- Zle_Qle. lia.
  - change 0%Q with (inject_Z 0). rewrite <- Zle_Qle. lia.
Qed.

(** X7: a negative number of seconds never shows an hour field: the hours
    are not positive and the timestamp has the minutes and the seconds
    only.  For a whole number it is the MM:SS timestamp of the seconds
    taken modulo one hour, so that one second before zero reads 59:59.  For
    a float the remainder is rounded after the modulus has been added and
    can reach it: -2^-70 reads 60:60. *)
Theorem seconds_to_timestamp_negative (s : number) :
  (PyNum.value s < 0)%Q ->
  seconds_to_timestamp s
  = format_0d 2 (PyNum.int (PyNum.floordiv (PyNum.mod_ s 3600) 60)) +:+ ":"
    +:+ format_0d 2 (PyNum.int (PyNum.mod_ s 60))
  /\ (forall z, s = PyInt z ->
        seconds_to_timestamp s = Spec.timestamp_of_whole (z mod 3600)
        /\ seconds_to_timestamp s
           = Spec.two_digits ((z mod 3600) / 60) +:+ ":" +:+ Spec.two_digits (z mod 60))
  /\ seconds_to_timestamp (PyInt (-1)) = "59:59"
  /\ seconds_to_timestamp (PyFloat (-1)) = "59:59"
  /\ PyNum.is_binary64 (- (1 # 2 ^ 70)) = true
  /\ seconds_to_timestamp (PyFloat (- (1 # 2 ^ 70))) = "60:60".
Proof.
  intros Hs.
  assert (Hhours : PyNum.int (PyNum.floordiv s 3600) <= 0).
  { destruct s as [z|x]; simpl PyNum.value in Hs.
    - simpl. change 0%Q with (inject_Z 0) in Hs. rewrite <- Zlt_Qlt in Hs.
      assert (z / 3600 < 0) by (apply Z.div_lt_upper_bound; lia). lia.
    - unfold PyNum.floordiv, PyNum.int. apply Qtrunc_nonpos.
      apply (float_floor_div_nonpos x 3600). now apply Qlt_le_weak. }
  assert (Hbranch : seconds_to_timestamp s
            = format_0d 2 (PyNum.int (PyNum.floordiv (PyNum.mod_ s 3600) 60)) +:+ ":"
              +:+ format_0d 2 (PyNum.int (PyNum.mod_ s 60))).
  { unfold seconds_to_timestamp.
    destruct (Z.ltb_spec 0 (PyNum.int (PyNum.floordiv s 3600))); [lia | reflexivity]. }
  split; [exact Hbranch|].
  split; [|repeat split; vm_compute; reflexivity].
  intros z ->. rewrite Hbranch. simpl PyNum.value in Hs.
  change 0%Q with (inject_Z 0) in Hs. rewrite <- Zlt_Qlt in Hs.
  unfold PyNum.mod_, PyNum.floordiv, PyNum.int.
  pose proof (Z.mod_pos_bound z 3600 ltac:(lia)) as Hm.
  pose proof (Z.mod_pos_bound z 60 ltac:(lia)) as Hsec.
  rewrite !format_0d_two_digits by (try (apply Z.div_pos); lia).
  split; [|reflexivity].
  unfold Spec.timestamp_of_whole.
  rewrite (Z.div_small (z mod 3600) 3600) by lia.
  change (0 <? 0) with false. cbv iota.
  rewrite (Z.mod_small (z mod 3600) 3600) by lia.
  rewrite (Z.mod_mod_divide z 3600 60); [reflexivity|].
  exists 60. reflexivity.
Qed.

Lemma seconds_to_timestamp_negative_witness :
  (PyNum.value (PyFloat (- (3 # 2))) < 0)%Q
  /\ seconds_to_timestamp (PyFloat (- (3 # 2))) = "59:58".
Proof.
  split; [reflexivity|].
  rewrite (proj1 (seconds_to_timestamp_negative (PyFloat (- (3 # 2))) eq_refl)).
  vm_compute. reflexivity.
Defined.

Lemma append_length (a b : string) :
  String.length (a +:+ b) = (String.length a + String.length b)%nat.
Proof.
  induction a as [|c a IH]; [reflexivity|].
  change (String c a +:+ b) with (String c (a +:+ b)). simpl. now rewrite IH.
Qed.

Lemma two_digits_length (z : Z) :
  0 <= z < 100 -> String.length (Spec.two_digits z) = 2%nat.
Proof.
  intros Hz.
  assert (Hall : forallb (fun k => (String.length (Spec.two_digits (Z.of_nat k)) =? 2)%nat)
                         (seq 0 100) = true) by (vm_compute; reflexivity).
  rewrite forallb_forall in Hall.
  specialize (Hall (Z.to_nat z)).
  rewrite Z2Nat.id in Hall by lia.
  apply Nat.eqb_eq, Hall, in_seq. lia.
Qed.

(** X8: below one hour a timestamp has the five characters of MM:SS, from one
    hour up to a hundred hours the eight characters of HH:MM:SS. *)
Theorem seconds_to_timestamp_width (s : number) :
  (0 <= PyNum.value s)%Q ->
  (Qfloor (PyNum.value s) < 3600 -> String.length (seconds_to_timestamp s) = 5%nat)
  /\ (3600 <= Qfloor (PyNum.value s) < 360000 ->
      String.length (seconds_to_timestamp s) = 8%nat).
Proof.
  intros Hs.
  pose proof (Qfloor_nonneg _ Hs) as Hn.
  assert (Hfields : Qfloor (PyNum.value s) < 360000 ->
            seconds_to_timestamp s
            = (let n := Qfloor (PyNum.value s) in
               if 0 <? n / 3600
               then format_0d 2 (n / 3600) +:+ ":" +:+ format_0d 2 ((n mod 3600) / 60)
                    +:+ ":" +:+ format_0d 2 (n mod 60)
               else format_0d 2 ((n mod 3600) / 60) +:+ ":" +:+ format_0d 2 (n mod 60))).
  { intros Hlt.
    destruct (seconds_to_timestamp_fields s Hs) as (Hh & Hm & Hsec).
    { intros x ->. simpl in Hlt. lia. }
    unfold seconds_to_timestamp. now rewrite Hh, Hm, Hsec. }
  pose proof (Z.mod_pos_bound (Qfloor (PyNum.value s)) 3600 ltac:(lia)) as Hm.
  pose proof (Z.mod_pos_bound (Qfloor (PyNum.value s)) 60 ltac:(lia)) as Hsec.
  assert (Hmin : 0 <= (Qfloor (PyNum.value s) mod 3600) / 60 < 100).
  { split; [apply Z.div_pos; lia | apply Z.div_lt_upper_bound; lia]. }
  split; intros Hrange; rewrite Hfields by lia; cbv zeta.
  - rewrite (Z.div_small (Qfloor (PyNum.value s)) 3600) by lia.
    change (0 <? 0) with false. cbv iota.
    rewrite !format_0d_two_digits by lia.
    rewrite !append_length, !two_digits_length by lia. reflexivity.
  - assert (Hh : 1 <= Qfloor (PyNum.value s) / 3600 < 100).
    { split; [apply Z.div_le_lower_bound; lia | apply Z.div_lt_upper_bound; lia]. }
    destruct (Z.ltb_spec 0 (Qfloor (PyNum.value s) / 3600)) as [_|]; [|lia].
    rewrite !format_0d_two_digits by lia.
    rewrite !append_length, !two_digits_length by lia. reflexivity.
Qed.

Lemma seconds_to_timestamp_width_witness :
  (0 <= PyNum.value (PyFloat (7323 # 2)))%Q
  /\ 3600 <= Qfloor (PyNum.value (PyFloat (7323 # 2))) < 360000
  /\ String.length (seconds_to_timestamp (PyFloat (7323 # 2))) = 8%nat.
Proof.
  split; [unfold Qle; simpl; lia|]. split; [vm_compute; split; [discriminate | reflexivity]|].
  apply (proj2 (seconds_to_timestamp_width (PyFloat (7323 # 2))
                  ltac:(unfold Qle; simpl; lia))).
  vm_compute. split; [discriminate | reflexivity].
Defined.

End TimestampEdges.

(** ** The shape of plain text *)

Section PlainShape.

Local Arguments String.append : simpl nomatch.

Lemma single_spaces_weaken (s : string) :
  Shape.single_spaces true s = true -> Shape.single_spaces false s = true.
Proof.
  destruct s as [|c s]; [reflexivity|]. simpl.
  destruct (is_space c); [|tauto].
  rewrite andb_false_r. discriminate.
Qed.

(** The scanner of [re.sub] leaves single spaces only. *)
Lemma sub_spaces_from_single (in_match : bool) (s : string) :
  Shape.single_spaces in_match (sub_spaces_from in_match s) = true.
Proof.
  revert in_match. induction s as [|c s IH]; intros b; [reflexivity|].
  simpl. destruct (is_space c) eqn:Hc.
  - destruct b; [apply IH|]. simpl. apply IH.
  - simpl. rewrite Hc. apply IH.
Qed.

Lemma lstrip_single (b : bool) (s : string) :
  Shape.single_spaces b s = true -> Shape.single_spaces true (lstrip s) = true.
Proof.
  revert b. induction s as [|c s IH]; intros b H; [reflexivity|].
  simpl in *. destruct (is_space c) eqn:Hc.
  - apply andb_true_iff in H. destruct H as [_ H]. exact (IH true H).
  - simpl. now rewrite Hc.
Qed.

Lemma rstrip_spaced (b : bool) (s : string) :
  Shape.single_spaces b s = true ->
  rstrip s = "" \/ Shape.spaced b (rstrip s) = true.
Proof.
  revert b. induction s as [|c s IH]; intros b H; [now left|].
  simpl in H. simpl rstrip. destruct (is_space c) eqn:Hc.
  - apply andb_true_iff in H. destruct H as [H Hs].
    apply andb_true_iff in H. destruct H as [Heq Hb].
    destruct (IH true Hs) as [E | E].
    + rewrite E. now left.
    + right. destruct (rstrip s) as [|x r] eqn:Er; [discriminate|].
      change (Shape.spaced b (String c (String x r)))
        with (if is_space c
              then Ascii.eqb c " " && negb b && Shape.spaced true (String x r)
              else Shape.spaced false (String x r)).
      now rewrite Hc, Heq, Hb, E.
  - right. destruct (IH false H) as [E | E].
    + rewrite E. simpl. now rewrite Hc.
    + destruct (rstrip s) as [|x r] eqn:Er.
      * simpl. now rewrite Hc.
      * change (Shape.spaced b (String c (String x r)))
          with (if is_space c
                then Ascii.eqb c " " && negb b && Shape.spaced true (String x r)
                else Shape.spaced false (String x r)).
        now rewrite Hc.
Qed.

Lemma strip_sub_normalized (s : string) :
  Shape.normalized (strip (re_sub_spaces s)) = true.
Proof.
  unfold strip, re_sub_spaces.
  pose proof (lstrip_single false _ (sub_spaces_from_single false s)) as H.
  destruct (rstrip_spaced true _ H) as [E | E].
  - now rewrite E.
  - unfold Shape.normalized. now destruct (rstrip _).
Qed.

(** On a normalized text stripping and collapsing change nothing. *)
Lemma spaced_single (b : bool) (s : string) :
  Shape.spaced b s = true -> Shape.single_spaces b s = true.
Proof.
  revert b. induction s as [|c s IH]; intros b H; [reflexivity|].
  simpl in *. destruct (is_space c).
  - apply andb_true_iff in H. destruct H as [H Hs].
    rewrite H. simpl. now apply IH.
  - now apply IH.
Qed.

Lemma sub_spaces_from_fixed (b : bool) (s : string) :
  Shape.single_spaces b s = true -> sub_spaces_from b s = s.
Proof.
  revert b. induction s as [|c s IH]; intros b H; [reflexivity|].
  simpl in *. destruct (is_space c).
  - apply andb_true_iff in H. destruct H as [H Hs].
    apply andb_true_iff in H. destruct H as [Heq Hb].
    apply negb_true_iff in Hb. subst b.
    apply Ascii.eqb_eq in Heq. subst c. now rewrite (IH true Hs).
  - now rewrite (IH false H).
Qed.

Lemma lstrip_fixed (s : string) : Shape.spaced true s = true -> lstrip s = s.
Proof.
  destruct s as [|c s]; [reflexivity|]. simpl.
  destruct (is_space c); [|reflexivity].
  rewrite andb_false_r. discriminate.
Qed.

Lemma rstrip_fixed (b : bool) (s : string) :
  Shape.spaced b s = true -> rstrip s = s.
Proof.
  revert b. induction s as [|c s IH]; intros b H; [reflexivity|].
  simpl in H. simpl rstrip. destruct (is_space c).
  - apply andb_true_iff in H. destruct H as [_ Hs].
    rewrite (IH true Hs). destruct s; [discriminate | reflexivity].
  - rewrite (IH false H). now destruct s.
Qed.

Lemma normalized_fixed (s : string) :
  Shape.normalized s = true -> strip s = s /\ re_sub_spaces s = s.
Proof.
  destruct s as [|c s]; [now split|]. unfold Shape.normalized. intros H.
  unfold strip, re_sub_spaces. rewrite (lstrip_fixed _ H), (rstrip_fixed _ _ H).
  split; [reflexivity|].
  apply sub_spaces_from_fixed, single_spaces_weaken. now apply spaced_single.
Qed.

(** X9: plain text is normalized: it has no whitespace but single spaces, each
    of them between two other characters, so no line feed or tab, no
    double space, and no space at either end. *)
Theorem plain_text_normalized (entries : list TranscriptEntry) (chunk_size : option Z) :
  chunk_size_truthy chunk_size = false ->
  exists text,
    format_transcript entries false chunk_size = Text text
    /\ Shape.normalized text = true.
Proof.
  intros Hfalse. eexists. split.
  - unfold format_transcript. destruct chunk_size as [size|]; [|reflexivity].
    now rewrite Hfalse.
  - apply strip_sub_normalized.
Qed.

Lemma plain_text_normalized_witness :
  chunk_size_truthy None = false
  /\ exists text,
       format_transcript [Samples.hello; Samples.world] false None = Text text
       /\ Shape.normalized text = true.
Proof.
  split; [reflexivity|].
  apply (plain_text_normalized [Samples.hello; Samples.world] None). reflexivity.
Defined.

(** X10: formatting is idempotent in plain mode: a transcript whose single entry
    holds the plain text of some entries is formatted to that same text. *)
Theorem plain_format_idempotent (entries : list TranscriptEntry) (text0 : string)
    (start0 duration0 : number) :
  format_transcript entries false None = Text text0 ->
  format_transcript [mkEntry text0 start0 duration0] false None = Text text0.
Proof.
  intros H. unfold format_transcript in H. injection H as H.
  assert (Hn : Shape.normalized text0 = true).
  { rewrite <- H. apply strip_sub_normalized. }
  destruct (normalized_fixed _ Hn) as [Hs Hr].
  unfold format_transcript. cbn [map join text].
  now rewrite Hs, Hr, Hs.
Qed.

Lemma plain_format_idempotent_witness :
  format_transcript [Samples.hello; Samples.world] false None = Text "hello world"
  /\ format_transcript [mkEntry "hello world" (PyFloat 0) (PyFloat 1)] false None
     = Text "hello world".
Proof.
  split; [reflexivity|].
  apply (plain_format_idempotent [Samples.hello; Samples.world]). reflexivity.
Defined.

End PlainShape.

(** ** More on chunks *)

Section ChunkCount.

(** X11: for a positive chunk size in plain mode the chunks, joined again,
    give the plain text; chunk number k (from 0) is the slice of [size]
    characters at position k * size; every chunk but the last has exactly
    [size] characters and the last has between 1 and [size]. *)
Theorem chunker_slices (entries : list TranscriptEntry) (size : Z) :
  0 < size ->
  exists chunks,
    format_transcript entries false (Some size) = Chunks chunks
    /\ join "" chunks = Spec.plain entries
    /\ (forall k, (k < List.length chunks)%nat ->
          nth k chunks ""
          = substring (k * Z.to_nat size) (Z.to_nat size) (Spec.plain entries))
    /\ (forall k, (S k < List.length chunks)%nat ->
          len (nth k chunks "") = size)
    /\ (forall k, (S k = List.length chunks)%nat ->
          1 <= len (nth k chunks "") <= size).
Proof. apply chunks_of_positive_size. Qed.

Lemma chunker_slices_witness :
  0 < 5
  /\ exists chunks,
       format_transcript [Samples.hello; Samples.world] false (Some 5) = Chunks chunks
       /\ join "" chunks = Spec.plain [Samples.hello; Samples.world].
Proof.
  split; [lia|].
  destruct (chunker_slices [Samples.hello; Samples.world] 5 ltac:(lia))
    as (chunks & Hc & Hj & _).
  now exists chunks.
Defined.

(** X12: the number of chunks is the length of the plain text divided by the
    chunk size, rounded up; an empty text gives no chunk at all. *)
Theorem chunk_count (entries : list TranscriptEntry) (size : Z) (chunks : list string) :
  0 < size ->
  format_transcript entries false (Some size) = Chunks chunks ->
  Z.of_nat (List.length chunks) = (len (Spec.plain entries) + size - 1) / size
  /\ (chunks = [] <-> Spec.plain entries = "").
Proof.
  intros Hsize. unfold format_transcript. rewrite plain_text_spec.
  simpl chunk_size_truthy.
  destruct (Z.eqb_spec size 0) as [|_]; [lia|]. simpl.
  intros [= <-]. unfold range. rewrite !length_map, length_seq.
  set (L := len (Spec.plain entries)).
  assert (HL : 0 <= L) by (unfold L, len; lia).
  assert (Hcount : range_length 0 L size = (L + size - 1) / size).
  { unfold range_length.
    destruct (Z.ltb_spec 0 size) as [_|]; [|lia].
    destruct (Z.ltb_spec 0 L) as [Hpos|Hzero].
    - rewrite Z.sub_0_r.
      replace (L + size - 1) with (L - 1 + 1 * size) by ring.
      rewrite Z.div_add by lia. reflexivity.
    - replace L with 0 by lia. simpl. symmetry. apply Z.div_small. lia. }
  assert (Hnonneg : 0 <= (L + size - 1) / size) by (apply Z.div_pos; lia).
  split.
  - rewrite Hcount. lia.
  - rewrite Hcount. split.
    + intros Hnil. apply (f_equal (@List.length string)) in Hnil.
      rewrite !length_map, length_seq in Hnil. simpl in Hnil.
      assert (Hz : (L + size - 1) / size = 0) by lia.
      apply Z.div_small_iff in Hz; [|lia].
      assert (L = 0) by lia.
      unfold L, len in *. destruct (Spec.plain entries); [reflexivity | simpl in *; lia].
    + intros He. unfold L. rewrite He. simpl len.
      change (len "") with 0. rewrite (Z.div_small (0 + size - 1) size) by lia.
      reflexivity.
Qed.

Lemma chunk_count_witness :
  0 < 5
  /\ format_transcript [Samples.hello; Samples.world] false (Some 5)
     = Chunks ["hello"; " worl"; "d"]
  /\ Z.of_nat (List.length ["hello"; " worl"; "d"])
     = (len (Spec.plain [Samples.hello; Samples.world]) + 5 - 1) / 5.
Proof.
  split; [lia|]. split; [reflexivity|].
  apply (chunk_count [Samples.hello; Samples.world] 5 _ ltac:(lia) eq_refl).
Defined.

End ChunkCount.

(** ** More on the cascade *)

Section CascadeEdges.

Context `{provider : Provider}.

Lemma find_ext {A} (p q : A -> bool) (l : list A) :
  (forall x, p x = q x) -> find p l = find q l.
Proof.
  intros Hpq. induction l as [|x l IH]; simpl; [reflexivity|].
  now rewrite Hpq, IH.
Qed.

(** With codes compared for equality, a track [find_transcript] finds for
    en is the one step 1 or step 2 finds for the preference en. *)
Lemma exact_fallback_is_preference (catalog : TranscriptList) (t : Transcript) :
  (forall requested code, language_matches requested code = String.eqb requested code) ->
  find_transcript catalog ["en"] = inr t ->
  find_manually_created_transcript catalog ["en"] = inr t
  \/ find_generated_transcript catalog ["en"] = inr t.
Proof.
  intros Hexact. unfold find_transcript, find_manually_created_transcript,
    find_generated_transcript. simpl.
  rewrite !(find_ext (fun t => language_matches "en" (language_code t))
                     (fun t => String.eqb "en" (language_code t)))
    by (intros; apply Hexact).
  destruct (find _ (manually_created catalog)); [now left|].
  destruct (find _ (generated catalog)); [now right | discriminate].
Qed.

Lemma each_from_In {A} (P : nat -> A -> Prop) (k : nat) (xs : list A) (x : A) :
  Spec.each_from P k xs -> In x xs ->
  exists i, (i < List.length xs)%nat /\ P (k + i)%nat x.
Proof.
  revert k. induction xs as [|y xs IH]; intros k; simpl; [intros _ []|].
  intros [Hy Hxs] [->|Hin].
  - exists 0%nat. split; [lia|]. now rewrite Nat.add_0_r.
  - destruct (IH _ Hxs Hin) as (i & Hi & HP). exists (S i). split; [lia|].
    now replace (k + S i)%nat with (S k + i)%nat by lia.
Qed.

(** X13: with a provider that compares codes for equality, as the released
    library does, and en among the preferences (the default), the fallback
    step can only succeed as a retry: the track it returns is an en track
    whose fetch failed in an earlier attempt of the same call and succeeds
    now. *)
Theorem fallback_is_a_retry (video_id : string) (languages : list string)
    (data : list TranscriptEntry) (lang : string) :
  (forall requested code, language_matches requested code = String.eqb requested code) ->
  In "en" languages ->
  get_transcript video_id languages = inr (data, lang, "fallback") ->
  exists catalog t k e,
    list_transcripts video_id = inr catalog
    /\ In t catalog
    /\ language_code t = "en"
    /\ (k < 2 * List.length languages)%nat
    /\ fetch t k = inl e
    /\ fetch t (2 * List.length languages) = inr data.
Proof.
  intros Hexact Hen Hget.
  destruct (get_transcript_inr_listed _ _ _ Hget) as [catalog Hlist].
  rewrite (get_transcript_listed _ _ _ Hlist) in Hget.
  exists catalog.
  destruct (select_transcript_cases catalog languages)
    as [(pre & l & post & r & Hl & _ & Hr & Hs)
       | (Hman & [(pre & l & post & r & Hl & _ & Hr & Hs)
       | (Hgen & [(r & Hr & Hs) | (_ & Hs)])])];
    rewrite Hs in Hget.
  - apply try_manual_inr in Hr. destruct Hr as (t & d & _ & _ & ->). discriminate.
  - apply try_generated_inr in Hr. destruct Hr as (t & d & _ & _ & ->). discriminate.
  - apply try_fallback_inr in Hr. destruct Hr as (t & d & Ht & F & ->).
    injection Hget as -> _. exists t.
    destruct (each_from_In _ _ _ _ Hman Hen) as (i & Hi & [e1 He1]).
    destruct (each_from_In _ _ _ _ Hgen Hen) as (j & Hj & [e2 He2]).
    unfold try_manual, bind in He1. unfold try_generated, bind in He2.
    destruct (exact_fallback_is_preference catalog t Hexact Ht) as [E | E].
    + rewrite E in He1.
      destruct (fetch t (0 + i)) as [e|d] eqn:Fi; [|discriminate].
      apply find_manually_created_transcript_found, first_with_In in E.
      destruct E as [Hin [_ Hcode]].
      exists (0 + i)%nat, e. repeat split; auto. lia.
    + rewrite E in He2.
      destruct (fetch t (List.length languages + j)) as [e|d] eqn:Fj; [|discriminate].
      apply find_generated_transcript_found, first_with_In in E.
      destruct E as [Hin [_ Hcode]].
      exists (List.length languages + j)%nat, e. repeat split; auto. lia.
  - destruct (first_available catalog _) as [e|r] eqn:Ha; [discriminate|].
    apply first_available_inr in Ha. destruct Ha as (t & rest & d & _ & _ & ->).
    discriminate.
Qed.

(** X14: the last step tries the first track of the catalog and no other: when
    the preferences match no track, no English-equivalent track is found
    and the fetch of the first track fails, the call fails with that error,
    whatever the remaining tracks could deliver. *)
Theorem only_first_track_is_tried (video_id : string) (languages : list string)
    (t : Transcript) (rest : TranscriptList) (e e0 : exn) :
  list_transcripts video_id = inr (t :: rest) ->
  Forall (fun l => ~ Spec.has_manual (t :: rest) l) languages ->
  Forall (fun l => ~ Spec.has_generated (t :: rest) l) languages ->
  find_transcript (t :: rest) ["en"] = inl e0 ->
  fetch t (2 * List.length languages + 1) = inl e ->
  get_transcript video_id languages
  = inl (Exception ("Error fetching transcript: " +:+ exn_str e)).
Proof.
  intros Hlist Hman Hgen Hfb Hfetch.
  rewrite (get_transcript_listed _ _ _ Hlist).
  rewrite select_after_scans
    by (now apply manual_all_missing || now apply generated_all_missing).
  unfold try_fallback, bind. rewrite Hfb. cbn [try_except].
  unfold first_available, bind. now rewrite Hfetch.
Qed.

End CascadeEdges.

Lemma fallback_is_a_retry_witness :
  let provider := Samples.serving Samples.exact_match [Samples.flaky_en] in
  In "en" ["en"]
  /\ get_transcript Samples.video ["en"] = inr ([Samples.hello], "en", "fallback")
  /\ exists k e, (k < 2)%nat
                 /\ fetch Samples.flaky_en k = inl e
                 /\ fetch Samples.flaky_en 2 = inr [Samples.hello].
Proof.
  intros provider. split; [now left|]. split; [reflexivity|].
  destruct (@fallback_is_a_retry provider Samples.video ["en"] [Samples.hello] "en"
              ltac:(reflexivity) ltac:(now left) eq_refl)
    as (catalog & t & k & e & Hlist & Hin & _ & Hk & Hfail & Hok).
  injection Hlist as <-. destruct Hin as [<- | []].
  now exists k, e.
Defined.

Lemma only_first_track_is_tried_witness :
  let catalog := [Samples.broken_de; Samples.manual_ko] in
  let provider := Samples.serving Samples.exact_match catalog in
  (forall k, fetch Samples.manual_ko k = inr [Samples.world])
  /\ get_transcript Samples.video ["fr"]
     = inl (Exception "Error fetching transcript: Could not retrieve a transcript").
Proof.
  intros catalog provider. split; [reflexivity|].
  apply (@only_first_track_is_tried provider Samples.video ["fr"]
           Samples.broken_de [Samples.manual_ko]
           (ProviderError "Could not retrieve a transcript")
           (NoTranscriptFound ["en"])).
  - reflexivity.
  - constructor; [|constructor]. intros (t & Hin & _ & Hc).
    destruct Hin as [<- | [<- | []]]; discriminate.
  - constructor; [|constructor]. intros (t & Hin & Hg & _).
    destruct Hin as [<- | [<- | []]]; discriminate.
  - reflexivity.
  - reflexivity.
Defined.

(** ** The command line *)

Section Main.

Context `{provider : Provider}.

Local Arguments String.append : simpl nomatch.

(** *** The --info mode *)

Lemma io_for_print {A} (xs : list A) (f : A -> string) (w : World) :
  io_for xs (fun x => print (f x)) w
  = (inr tt, mkWorld (stdout w ++ map f xs)%list (stderr w) (files w)).
Proof.
  revert w. induction xs as [|x xs IH]; intros w; simpl.
  - rewrite app_nil_r. now destruct w.
  - unfold io_bind. simpl. rewrite IH. simpl. now rewrite <- app_assoc.
Qed.


End Main.


(** *** Saving *)

Section MainSaving.

Context `{provider : Provider}.

Local Arguments String.append : simpl nomatch.

Lemma save_to_file_io_ok (host : Host) text filename video_id (w : World) :
  host_open_error host (Shape.saved_name host filename video_id) = None ->
  save_to_file_io host text filename video_id w
  = (inr (Shape.saved_name host filename video_id),
     mkWorld (stdout w) (stderr w)
       ((Shape.saved_name host filename video_id, text) :: files w)).
Proof.
  unfold save_to_file_io, Shape.saved_name, save_to_file. simpl.
  intros Hok. now rewrite Hok.
Qed.

Lemma save_to_file_io_fails (host : Host) text filename video_id (w : World) msg :
  host_open_error host (Shape.saved_name host filename video_id) = Some msg ->
  save_to_file_io host text filename video_id w
  = (inl (Raised (Exception ("Error saving file: " +:+ msg))), w).
Proof.
  unfold save_to_file_io, Shape.saved_name, save_to_file. simpl.
  intros Hf. now rewrite Hf.
Qed.


Lemma io_bind_pure {A B} (a : A) (k : A -> IO B) (w : World) :
  io_bind (fun w => (inr a, w)) k w = k a w.
Proof. reflexivity. Qed.

Lemma io_bind_apply {A B} (m : IO A) (k : A -> IO B) (w : World) :
  io_bind m k w
  = match m w with
    | (inr a, w') => k a w'
    | (inl e, w') => (inl e, w')
    end.
Proof. reflexivity. Qed.

Lemma io_bind_print {B} (line : string) (k : unit -> IO B) (w : World) :
  io_bind (print line) k w
  = k tt (mkWorld (stdout w ++ [line])%list (stderr w) (files w)).
Proof. reflexivity. Qed.

(** [main] up to the formatted text, when the URL resolves and a transcript
    is found. *)
Lemma main_body_fetched (host : Host) (args : Args) (w : World) (video_id : string)
    (data : list TranscriptEntry) (lang source : string) :
  info args = false ->
  extract_video_id (url args) = inr video_id ->
  get_transcript video_id (languages args) = inr (data, lang, source) ->
  main_body host args w
  = (match format_transcript data (negb (no_timestamps args)) (chunk_size args) with
     | Chunks chunks =>
         (_ <- print ("Text split into " +:+ str_of_int (Z.of_nat (List.length chunks))
                      +:+ " chunks") ;;
          io_for (enumerate_from_1 chunks)
            (fun '(i, chunk) =>
               let filename :=
                 chunk_filename (output args) video_id (List.length chunks) i in
               saved_file <- save_to_file_io host chunk (Some filename) video_id ;;
               print ("Chunk " +:+ str_of_int i +:+ " saved to: " +:+ saved_file)))%io
     | Text text =>
         (saved_file <- save_to_file_io host text (output args) video_id ;;
          _ <- print ("Transcript saved to: " +:+ saved_file) ;;
          let preview :=
            if 500 <? len text then slice text 0 500 +:+ "..." else text in
          print (Spec.newline +:+ "Preview:" +:+ Spec.newline +:+ preview))%io
     end)
      (mkWorld (stdout w
                ++ ["Processing video ID: " +:+ video_id;
                    "Fetching transcript in languages: "
                      +:+ host_repr host (languages args);
                    "Found transcript in '" +:+ lang +:+ "' (" +:+ source +:+ ")"])%list
               (stderr w) (files w)).
Proof.
  intros Hinfo Hid Hget. unfold main_body.
  rewrite Hid, Hinfo, io_bind_pure, io_bind_print.
  rewrite io_bind_print. unfold io_call. rewrite Hget, io_bind_pure.
  rewrite io_bind_print. cbn [stdout stderr files].
  rewrite <- !app_assoc. cbn [app].
  now destruct (format_transcript data (negb (no_timestamps args)) (chunk_size args)).
Qed.

Lemma main_text_run (host : Host) (args : Args) (w : World) (video_id : string)
    (data : list TranscriptEntry) (lang source text : string) :
  info args = false ->
  extract_video_id (url args) = inr video_id ->
  get_transcript video_id (languages args) = inr (data, lang, source) ->
  format_transcript data (negb (no_timestamps args)) (chunk_size args) = Text text ->
  let name := Shape.saved_name host (output args) video_id in
  let status := fst (main host args w) in
  let w' := snd (main host args w) in
  (host_open_error host name = None ->
   status = 0 /\ files w' = (name, text) :: files w /\ stderr w' = stderr w)
  /\ (forall msg, host_open_error host name = Some msg ->
        status = 1 /\ files w' = files w
        /\ stderr w' = (stderr w ++ ["Error: Error saving file: " +:+ msg])%list).
Proof.
  intros Hinfo Hid Hget Hfmt. unfold main.
  rewrite (main_body_fetched host args w video_id data lang source Hinfo Hid Hget), Hfmt.
  rewrite io_bind_apply. split.
  - intros Hok. rewrite save_to_file_io_ok by exact Hok.
    rewrite !io_bind_print. now cbn.
  - intros msg Hfail. rewrite (save_to_file_io_fails _ _ _ _ _ msg) by exact Hfail.
    now cbn.
Qed.



(** The loop that saves the chunks: it stops at the first file that cannot
    be opened. *)
Lemma save_chunks_run (host : Host) (output : option string) (video_id : string)
    (n : nat) (numbers : list Z) (chunks : list string) :
  List.length numbers = List.length chunks ->
  forall w,
    let names := map (chunk_filename output video_id n) numbers in
    let k := Shape.writable_prefix host names in
    let run :=
      io_for (combine numbers chunks)
        (fun '(i, chunk) =>
           let filename := chunk_filename output video_id n i in
           (saved_file <- save_to_file_io host chunk (Some filename) video_id ;;
            print ("Chunk " +:+ str_of_int i +:+ " saved to: " +:+ saved_file))%io) w in
    files (snd run) = (rev (combine (firstn k names) (firstn k chunks)) ++ files w)%list
    /\ stderr (snd run) = stderr w
    /\ (k = List.length chunks -> fst run = inr tt)
    /\ ((k < List.length chunks)%nat ->
        exists name msg,
          nth_error names k = Some name
          /\ host_open_error host name = Some msg
          /\ fst run = inl (Raised (Exception ("Error saving file: " +:+ msg)))).
Proof.
  revert chunks. induction numbers as [|i numbers IH]; intros [|chunk chunks] Hlen w;
    try discriminate.
  - simpl. repeat split; try reflexivity. lia.
  - cbn [combine io_for map Shape.writable_prefix].
    rewrite io_bind_apply, io_bind_apply.
    assert (Hname : Shape.saved_name host
                      (Some (chunk_filename output video_id n i)) video_id
                    = chunk_filename output video_id n i).
    { unfold Shape.saved_name.
      now rewrite save_to_file_named by apply chunk_filename_nonempty. }
    destruct (host_open_error host (chunk_filename output video_id n i)) as [msg|] eqn:Ho.
    + rewrite (save_to_file_io_fails _ _ _ _ _ msg) by now rewrite Hname.
      cbn. repeat split; try reflexivity; try lia.
      intros _. exists (chunk_filename output video_id n i), msg. now repeat split.
    + rewrite save_to_file_io_ok by now rewrite Hname.
      rewrite Hname. cbn [print fst snd].
      injection Hlen as Hlen.
      specialize (IH chunks Hlen
                    (mkWorld (stdout w ++ ["Chunk " +:+ str_of_int i +:+ " saved to: "
                                           +:+ chunk_filename output video_id n i])%list
                             (stderr w)
                             ((chunk_filename output video_id n i, chunk) :: files w))).
      cbv zeta in IH. destruct IH as (Hfiles & Herr & Hall & Hsome).
      cbn [firstn combine rev List.length stdout stderr files] in *.
      split; [|split; [|split]].
      * rewrite Hfiles. now rewrite <- app_assoc.
      * exact Herr.
      * intros Hk. apply Hall. lia.
      * intros Hk. destruct Hsome as (name & msg & Hn & Hm & Hr); [lia|].
        exists name, msg. now repeat split.
Qed.

Lemma main_chunks_run (host : Host) (args : Args) (w : World) (video_id : string)
    (data : list TranscriptEntry) (lang source : string) (chunks : list string) :
  info args = false ->
  extract_video_id (url args) = inr video_id ->
  get_transcript video_id (languages args) = inr (data, lang, source) ->
  format_transcript data (negb (no_timestamps args)) (chunk_size args) = Chunks chunks ->
  let names := Shape.chunk_names (output args) video_id (List.length chunks) in
  let k := Shape.writable_prefix host names in
  let status := fst (main host args w) in
  let w' := snd (main host args w) in
  files w' = (rev (combine (firstn k names) (firstn k chunks)) ++ files w)%list
  /\ (k = List.length chunks -> status = 0 /\ stderr w' = stderr w)
  /\ ((k < List.length chunks)%nat ->
      exists name msg,
        nth_error names k = Some name
        /\ host_open_error host name = Some msg
        /\ status = 1
        /\ stderr w' = (stderr w ++ ["Error: Error saving file: " +:+ msg])%list).
Proof.
  intros Hinfo Hid Hget Hfmt. unfold main.
  rewrite (main_body_fetched host args w video_id data lang source Hinfo Hid Hget), Hfmt.
  rewrite io_bind_print. unfold enumerate_from_1, Shape.chunk_names, Spec.chunk_numbers.
  match goal with
  | |- context [io_for _ _ ?w0] =>
      destruct (save_chunks_run host (output args) video_id (List.length chunks)
                  (map (fun k => Z.of_nat k) (seq 1 (List.length chunks))) chunks
                  ltac:(now rewrite length_map, length_seq) w0)
        as (Hfiles & Herr & Hall & Hsome)
  end.
  cbv zeta in Hfiles, Herr, Hall, Hsome. cbn [stdout stderr files] in *.
  match goal with
  | |- context [io_for ?l ?b ?w0] => destruct (io_for l b w0) as [[e|u] w1] eqn:Erun
  end; cbn [fst snd] in *.
  - split; [exact Hfiles|]. split.
    + intros Hk. specialize (Hall Hk). discriminate.
    + intros Hk. destruct (Hsome Hk) as (name & msg & Hn & Hm & Hr).
      exists name, msg. injection Hr as ->. repeat split; try assumption.
      cbn. now rewrite Herr.
  - split; [exact Hfiles|]. split.
    + intros _. now split.
    + intros Hk. destruct (Hsome Hk) as (name & msg & _ & _ & Hr). discriminate.
Qed.



(** *** The files and the programmatic entry point *)

Lemma writable_prefix_all (host : Host) (names : list string) :
  (forall name, host_open_error host name = None) ->
  Shape.writable_prefix host names = List.length names.
Proof.
  intros Hok. induction names as [|name names IH]; simpl; [reflexivity|].
  now rewrite Hok, IH.
Qed.

Lemma map_snd_combine {A B} (l1 : list A) (l2 : list B) :
  List.length l1 = List.length l2 -> map snd (combine l1 l2) = l2.
Proof.
  revert l2. induction l1 as [|a l1 IH]; intros [|b l2] Hl; try discriminate.
  - reflexivity.
  - simpl. injection Hl as Hl. now rewrite IH.
Qed.

Lemma chunk_names_length output video_id n :
  List.length (Shape.chunk_names output video_id n) = n.
Proof.
  unfold Shape.chunk_names, Spec.chunk_numbers.
  now rewrite !length_map, length_seq.
Qed.

Lemma main_files_run (host : Host) (args : Args) (w : World) (video_id : string)
    (data : list TranscriptEntry) (lang source : string) :
  info args = false ->
  (forall name, host_open_error host name = None) ->
  extract_video_id (url args) = inr video_id ->
  get_transcript video_id (languages args) = inr (data, lang, source) ->
  fst (main host args w) = 0
  /\ exists fs,
       files (snd (main host args w)) = (fs ++ files w)%list
       /\ map snd (rev fs)
          = match format_transcript data (negb (no_timestamps args)) (chunk_size args) with
            | Text text => [text]
            | Chunks chunks => chunks
            end.
Proof.
  intros Hinfo Hok Hid Hget.
  destruct (format_transcript data (negb (no_timestamps args)) (chunk_size args))
    as [text|chunks] eqn:Hfmt.
  - destruct (main_text_run host args w video_id data lang source text
                Hinfo Hid Hget Hfmt) as [Hrun _].
    destruct (Hrun (Hok _)) as (Hs & Hf & _).
    split; [exact Hs|]. eexists [_]. split; [exact Hf | reflexivity].
  - destruct (main_chunks_run host args w video_id data lang source chunks
                Hinfo Hid Hget Hfmt) as (Hf & Hall & _).
    rewrite (writable_prefix_all host _ Hok), chunk_names_length in Hf, Hall.
    destruct (Hall eq_refl) as [Hs _]. split; [exact Hs|].
    eexists. split; [exact Hf|].
    rewrite rev_involutive, firstn_all.
    rewrite <- (chunk_names_length (output args) video_id (List.length chunks)) at 1.
    rewrite firstn_all. apply map_snd_combine, chunk_names_length.
Qed.



End MainSaving.





(** ** The chunk files of one run *)

Section ChunkNames.

Local Arguments String.append : simpl nomatch.

Import PyRe.

Lemma append_cancel_l (e a b : string) : e +:+ a = e +:+ b -> a = b.
Proof.
  induction e as [|c e IH]; [tauto|].
  change (String c e +:+ a) with (String c (e +:+ a)).
  change (String c e +:+ b) with (String c (e +:+ b)).
  intros [= H]. auto.
Qed.

Lemma append_cancel_r (e a b : string) : a +:+ e = b +:+ e -> a = b.
Proof.
  intros H. apply (f_equal Spec.string_rev) in H.
  rewrite !string_rev_append in H. apply append_cancel_l in H.
  rewrite <- (string_rev_involutive a), <- (string_rev_involutive b). now rewrite H.
Qed.

Lemma digits_all_digit (n : N) : all_chars Shape.is_digit (digits n) = true.
Proof.
  unfold digits. induction (N.to_uint n) as [|u IH|u IH|u IH|u IH|u IH|u IH|u IH|u IH|u IH|u IH];
    simpl; try reflexivity; exact IH.
Qed.

Lemma digits_inj (a b : N) : digits a = digits b -> a = b.
Proof.
  unfold digits. intros H. apply DecimalN.Unsigned.to_uint_inj.
  apply (f_equal NilEmpty.uint_of_string) in H.
  rewrite !NilEmpty.usu in H. now injection H.
Qed.

Lemma str_of_int_nonneg (i : Z) : 0 <= i -> str_of_int i = digits (Z.to_N i).
Proof.
  intros Hi. unfold str_of_int.
  destruct (Z.ltb_spec i 0) as [|_]; [lia|]. f_equal. lia.
Qed.

Lemma str_of_int_inj (i j : Z) :
  0 <= i -> 0 <= j -> str_of_int i = str_of_int j -> i = j.
Proof.
  intros Hi Hj. rewrite !str_of_int_nonneg by assumption.
  intros H. apply digits_inj in H. lia.
Qed.

(** Where a run of digits ends is determined by the text. *)
Lemma digit_run_unique (a b r r' : string) (x : ascii) :
  all_chars Shape.is_digit a = true ->
  all_chars Shape.is_digit b = true ->
  Shape.is_digit x = false ->
  a +:+ String x r = b +:+ String x r' -> a = b.
Proof.
  intros Ha Hb Hx. revert b Hb.
  induction a as [|c a IH]; intros [|c' b] Hb H.
  - reflexivity.
  - change (String x r = String c' (b +:+ String x r')) in H.
    injection H as -> _. simpl in Hb. rewrite Hx in Hb. discriminate.
  - change (String c (a +:+ String x r) = String x r') in H.
    injection H as -> _. simpl in Ha. rewrite Hx in Ha. discriminate.
  - change (String c (a +:+ String x r) = String c' (b +:+ String x r')) in H.
    injection H as -> H.
    simpl in Ha, Hb. apply andb_true_iff in Ha, Hb.
    f_equal. apply IH; tauto.
Qed.

(** [rfind] does not look for its answer where the character is absent. *)
Lemma rfind_from_range (c : ascii) (s : string) (i last : Z) :
  rfind_from c s i last = last \/ i <= rfind_from c s i last.
Proof.
  revert i last. induction s as [|x s IH]; intros i last; [now left|].
  simpl. destruct (IH (i + 1) (if Ascii.eqb x c then i else last)) as [E | E].
  - rewrite E. destruct (Ascii.eqb x c); [right; lia | now left].
  - right. lia.
Qed.

Lemma rfind_from_skip (c : ascii) (p r : string) (i last : Z) :
  Shape.free_of c p = true ->
  rfind_from c (p +:+ r) i last = rfind_from c r (i + len p) last.
Proof.
  revert i. induction p as [|x p IH]; intros i Hp.
  - simpl. f_equal. unfold len. simpl. lia.
  - apply free_of_cons in Hp. destruct Hp as [Hx Hp].
    change (String x p +:+ r) with (String x (p +:+ r)). simpl.
    apply Ascii.eqb_neq in Hx. rewrite Hx, (IH (i + 1) Hp).
    f_equal. unfold len. simpl. lia.
Qed.

Lemma substring_0_app (p r : string) (m : nat) :
  (String.length p <= m)%nat ->
  substring 0 m (p +:+ r) = p +:+ substring 0 (m - String.length p) r.
Proof.
  revert m. induction p as [|x p IH]; intros m Hm.
  - simpl. now rewrite Nat.sub_0_r.
  - destruct m as [|m]; [simpl in Hm; lia|].
    change (String x p +:+ r) with (String x (p +:+ r)). simpl.
    rewrite IH by (simpl in Hm; lia). reflexivity.
Qed.

(** [splitext] keeps a leading part that has no dot in the base. *)
Lemma splitext_base_prefix (p r : string) :
  Shape.free_of "." p = true ->
  exists s, fst (splitext (p +:+ r)) = p +:+ s.
Proof.
  intros Hp. unfold splitext.
  set (sepIndex := rfind "/" (p +:+ r)). set (dotIndex := rfind "." (p +:+ r)).
  destruct (Z.ltb_spec sepIndex dotIndex) as [Hlt|]; [|now exists r].
  destruct (existsb _ _); [|now exists r].
  simpl fst.
  assert (Hsep : -1 <= sepIndex).
  { unfold sepIndex, rfind.
    destruct (rfind_from_range "/" (p +:+ r) 0 (-1)) as [-> | H]; lia. }
  assert (Hdot : len p <= dotIndex).
  { unfold dotIndex, rfind in *. rewrite rfind_from_skip in * by assumption.
    destruct (rfind_from_range "." r (0 + len p) (-1)) as [E | E]; [|lia].
    rewrite E in Hlt. lia. }
  unfold slice. rewrite Z.sub_0_r. simpl (Z.to_nat 0).
  rewrite substring_0_app by (unfold len in Hdot; lia). eauto.
Qed.

Lemma is_digit_not_dot (s : string) :
  all_chars Shape.is_digit s = true -> Shape.free_of "." s = true.
Proof.
  apply all_chars_impl. intros c.
  destruct c as [[] [] [] [] [] [] [] []]; vm_compute; congruence.
Qed.

Lemma chunk_filename_injective (output : option string) (video_id : string)
    (n : nat) (i j : Z) :
  0 <= i -> 0 <= j ->
  (1 < n)%nat ->
  chunk_filename output video_id n i = chunk_filename output video_id n j ->
  i = j.
Proof.
  intros Hi Hj Hn. unfold chunk_filename.
  destruct (Nat.ltb_spec 1 n) as [_|]; [|lia].
  assert (Hdefault : forall k k',
            0 <= k -> 0 <= k' ->
            (let '(base, ext) :=
               splitext ("transcript_chunk_" +:+ str_of_int k +:+ "_" +:+ video_id +:+ ".txt")
             in base +:+ "_chunk_" +:+ str_of_int k +:+ ext)
            = (let '(base, ext) :=
                 splitext ("transcript_chunk_" +:+ str_of_int k' +:+ "_" +:+ video_id +:+ ".txt")
               in base +:+ "_chunk_" +:+ str_of_int k' +:+ ext) ->
            k = k').
  { intros k k' Hk Hk'.
    assert (Hshape : forall m, 0 <= m ->
              exists s,
                (let '(base, ext) :=
                   splitext ("transcript_chunk_" +:+ str_of_int m +:+ "_" +:+ video_id
                             +:+ ".txt")
                 in base +:+ "_chunk_" +:+ str_of_int m +:+ ext)
                = "transcript_chunk_" +:+ str_of_int m +:+ String "_" s).
    { intros m Hm.
      assert (E : "transcript_chunk_" +:+ str_of_int m +:+ "_" +:+ video_id +:+ ".txt"
                  = ("transcript_chunk_" +:+ str_of_int m +:+ "_")
                    +:+ (video_id +:+ ".txt"))
        by now rewrite !append_assoc.
      rewrite E.
      destruct (splitext_base_prefix ("transcript_chunk_" +:+ str_of_int m +:+ "_")
                  (video_id +:+ ".txt")) as [s Hs].
      - unfold Shape.free_of. rewrite !all_chars_app.
        pose proof (is_digit_not_dot (str_of_int m)) as Hd.
        unfold Shape.free_of in Hd. rewrite Hd; [reflexivity|].
        rewrite str_of_int_nonneg by assumption. apply digits_all_digit.
      - destruct (splitext _) as [base ext]. cbn [fst] in Hs. subst base.
        exists (s +:+ "_chunk_" +:+ str_of_int m +:+ ext).
        rewrite !append_assoc. reflexivity. }
    destruct (Hshape k Hk) as [s ->]. destruct (Hshape k' Hk') as [s' ->].
    intros H. apply append_cancel_l in H.
    apply digit_run_unique in H; try reflexivity;
      try (rewrite str_of_int_nonneg by assumption; apply digits_all_digit).
    now apply str_of_int_inj. }
  destruct output as [o|]; [destruct (String.eqb o "")|]; try (now apply Hdefault).
  destruct (splitext o) as [base ext]. intros H.
  apply append_cancel_l in H.
  change ("_chunk_" +:+ str_of_int i +:+ ext) with ("_chunk_" +:+ (str_of_int i +:+ ext)) in H.
  apply append_cancel_l, append_cancel_r in H. now apply str_of_int_inj.
Qed.

Lemma chunk_names_NoDup (output : option string) (video_id : string) (n : nat) :
  List.NoDup (Shape.chunk_names output video_id n).
Proof.
  unfold Shape.chunk_names, Spec.chunk_numbers.
  assert (Hnum : List.NoDup (map Z.of_nat (seq 1 n))).
  { apply NoDup_map_NoDup_ForallPairs; [|apply List.seq_NoDup].
    intros a b _ _ H. lia. }
  destruct (Nat.ltb_spec 1 n) as [Hn|Hn].
  - apply NoDup_map_NoDup_ForallPairs; [|exact Hnum].
    intros a b Ha Hb. apply in_map_iff in Ha, Hb.
    destruct Ha as (a' & <- & _). destruct Hb as (b' & <- & _).
    apply chunk_filename_injective; lia.
  - destruct n as [|[|n]]; [constructor | | lia].
    simpl. constructor; [tauto | constructor].
Qed.

(** X21: no two chunks of one run are saved under the same name: no chunk file
    overwrites another. *)
Theorem chunk_names_distinct (output : option string) (video_id : string) (n : nat) :
  List.NoDup (Shape.chunk_names output video_id n).
Proof. apply chunk_names_NoDup. Qed.

End ChunkNames.

(** ** Reading the saved files back *)

Section ReadBack.

Context `{provider : Provider}.

Lemma content_latest (l fs : FileSystem) (name v : string) :
  In (name, v) l ->
  (forall v', In (name, v') l -> v' = v) ->
  Shape.content (l ++ fs)%list name = Some v.
Proof.
  unfold Shape.content. induction l as [|[n0 v0] l IH]; intros Hin Huniq; [destruct Hin|].
  cbn [app find fst]. destruct (String.eqb_spec n0 name) as [->|Hne].
  - cbn [snd]. f_equal. apply Huniq. now left.
  - apply IH.
    + destruct Hin as [Heq|Hin]; [congruence | assumption].
    + intros v' Hv'. apply Huniq. now right.
Qed.

Lemma combine_nth_error {A B} (l1 : list A) (l2 : list B) (k : nat) (a : A) (b : B) :
  nth_error l1 k = Some a -> nth_error l2 k = Some b -> In (a, b) (combine l1 l2).
Proof.
  revert l1 l2. induction k as [|k IH]; intros [|x l1] [|y l2]; simpl; try discriminate.
  - intros [= ->] [= ->]. now left.
  - intros Ha Hb. right. now apply IH.
Qed.

Lemma combine_NoDup_functional {A B} (l1 : list A) (l2 : list B) (a : A) (b b' : B) :
  List.NoDup l1 -> In (a, b) (combine l1 l2) -> In (a, b') (combine l1 l2) -> b = b'.
Proof.
  intros Hnd. revert l2. induction Hnd as [|x l1 Hx Hnd IH]; intros [|y l2]; simpl;
    try contradiction.
  intros [Heq|Hin] [Heq'|Hin'].
  - congruence.
  - injection Heq as -> _. exfalso. apply Hx. now apply in_combine_l in Hin'.
  - injection Heq' as -> _. exfalso. apply Hx. now apply in_combine_l in Hin.
  - now apply (IH l2).
Qed.

Lemma chunk_names_nth (output : option string) (video_id : string) (n k : nat) :
  (k < n)%nat ->
  nth_error (Shape.chunk_names output video_id n) k
  = Some (chunk_filename output video_id n (Z.of_nat (S k))).
Proof.
  intros Hk. unfold Shape.chunk_names, Spec.chunk_numbers.
  rewrite !nth_error_map, nth_error_seq.
  destruct (Nat.ltb_spec k n); [reflexivity | lia].
Qed.


End ReadBack.


(** ** What a successful run prints, and how the entry point fails *)

Section Reports.

Context `{provider : Provider}.

Local Arguments String.append : simpl nomatch.

Lemma length_app_string (a b : string) :
  String.length (a +:+ b) = (String.length a + String.length b)%nat.
Proof. induction a as [|c a IH]; [reflexivity|]. cbn. now rewrite IH. Qed.

Lemma length_substring_0 (n : nat) (s : string) :
  (n <= String.length s)%nat -> String.length (substring 0 n s) = n.
Proof.
  revert s. induction n as [|n IH]; intros s Hn.
  - now destruct s.
  - destruct s as [|c s]; cbn in Hn; [lia|].
    cbn. rewrite IH; [reflexivity | lia].
Qed.

Lemma written_app (a b : list string) :
  Shape.written (a ++ b) = Shape.written a +:+ Shape.written b.
Proof.
  induction a as [|x a IH]; [reflexivity|].
  cbn [app Shape.written]. now rewrite IH, !append_assoc.
Qed.


End Reports.


(** ** The chunk size without --no-timestamps *)

Section ChunkSizeIgnored.

Context `{provider : Provider}.

Lemma format_transcript_timestamps_ignore_size (entries : list TranscriptEntry)
    (chunk_size : option Z) :
  format_transcript entries true chunk_size = format_transcript entries true None.
Proof.
  unfold format_transcript. destruct chunk_size as [size|]; [|reflexivity].
  now rewrite andb_false_r.
Qed.

(** X24: the chunk size has an effect only together with --no-timestamps:
    when timestamps are kept, [main] does what it does without a chunk
    size, and so does [extract_youtube_transcript]. *)
Theorem chunk_size_needs_no_timestamps (host : Host) (args : Args) (w : World) :
  no_timestamps args = false ->
  main host args w
  = main host (mkArgs (url args) (languages args) (output args) false None (info args)) w
  /\ (forall url languages chunk_size,
        extract_youtube_transcript url languages true chunk_size
        = extract_youtube_transcript url languages true None).
Proof.
  intros Hts. split.
  - destruct args as [u ls o nt cs i]. cbn [no_timestamps] in Hts. subst nt.
    cbn [url languages output info].
    unfold main. f_equal.
    unfold main_body, io_bind, io_call.
    cbn [url languages output no_timestamps chunk_size info negb].
    destruct (extract_video_id u) as [r|video_id]; [reflexivity|].
    cbv beta iota.
    destruct i; [reflexivity|].
    destruct (get_transcript video_id ls) as [e|[[data lang] source]]; [reflexivity|].
    cbv beta iota.
    now rewrite (format_transcript_timestamps_ignore_size data cs).
  - intros url0 languages0 chunk_size0. unfold extract_youtube_transcript.
    destruct (extract_video_id url0) as [r|video_id]; [reflexivity|].
    destruct (get_transcript video_id languages0) as [e|[[data lang] source]];
      [reflexivity|].
    now rewrite (format_transcript_timestamps_ignore_size data chunk_size0).
Qed.

End ChunkSizeIgnored.

Lemma chunk_size_needs_no_timestamps_witness :
  let provider := Samples.serving Samples.exact_match [Samples.manual_es] in
  let host := mkHost "20240101_120000" (fun _ => None) (fun _ => "['es']") in
  let w := mkWorld [] [] [] in
  let args := mkArgs "https://youtu.be/abc12345678" ["es"] (Some "out.txt")
                     false (Some 5) false in
  no_timestamps args = false
  /\ main host args w
     = main host (mkArgs "https://youtu.be/abc12345678" ["es"] (Some "out.txt")
                         false None false) w
  /\ files (snd (main host args w))
     = [("out.txt", "[00:00] hello" +:+ Spec.newline +:+ "[01:01:01] world")].
Proof.
  intros provider host w args. split; [reflexivity|].
  split; [exact (proj1 (@chunk_size_needs_no_timestamps provider host args w eq_refl))
         | reflexivity].
Defined.
